(** * TroopJS core: event emitter and pub/sub hub

    A shallow embedding of [src/event/emitter.js], [src/pubsub/hub.js] and
    the base component of [src/unnamed/part_000].

    Modelling conventions.
    - JavaScript strings are Rocq strings (sequences of 8-bit characters).
    - Object identity is an address: handler objects and the per-event
      [handlers] objects live in two growing heaps, and every reference to
      them (the registry, [head], [tail], [next], the candidate arrays held
      by an in-flight runner) is an address into those heaps.  Writes through
      one reference are therefore seen through all others, as in the source.
    - The per-emitter object [me[HANDLERS]] and the [runners] tables are
      string-keyed finite maps; names inherited from [Object.prototype] are
      not modelled.
    - The epoch counters are JavaScript numbers that only ever count up from
      [0] by [++]; they are modelled by [Z].  The instance counter of the
      base component counts the same way; it is modelled by [N], with the
      value [2^53] from which [++] no longer changes a JavaScript number.
    - Callbacks are identified by a function address; what a callback does
      when invoked is given by an environment [call], a state transformer
      that covers everything happening until the value it returns settles. *)

From Stdlib Require Import ZArith NArith String Ascii List Lia Bool.
From Stdlib Require Import DecimalString DecimalN.
From stdpp Require Import base option list gmap strings.

Set Warnings "-register-all".

Open Scope Z_scope.
Open Scope string_scope.
Open Scope list_scope.

(** ** JavaScript values *)

Module JS.

(** The values that flow through the emitter as arguments, results and
    failures.  [VObject] is a reference to an object that is neither an
    array nor array-like (it has no [length]); [VError] is an [Error]
    built by the emitter itself and [VTypeError] the [TypeError] raised by
    the language. *)
Inductive value : Type :=
| VUndefined
| VNull
| VBool (b : bool)
| VNum (n : Z)
| VStr (s : string)
| VArray (elems : list value)
| VObject (o : nat)
| VError (msg : string)
| VTypeError.

(** [Function.prototype.apply(thisArg, argArray)], the conversion of
    [argArray] into an argument list (ES5.1 15.3.4.3): [undefined] and
    [null] give no arguments, a value that is not an object raises a
    [TypeError] ([None]), an array gives its elements and any other
    object is read through its [length], here absent. *)
Definition arg_list (argArray : value) : option (list value) :=
  match argArray with
  | VUndefined | VNull => Some []
  | VBool _ | VNum _ | VStr _ => None
  | VArray elems => Some elems
  | VObject _ | VError _ | VTypeError => Some []
  end.

(** What invoking a callback yields, seen from [when(x, next)]: a value
    (returned directly or through a promise that fulfils with it), an
    exception thrown by the call, a promise that rejects, or a promise
    that never settles. *)
Inductive outcome : Type :=
| Returns (v : value)
| Throws (e : value)
| Rejects (e : value)
| Pends.

(** The state of a promise once nothing more can happen to it. *)
Inductive promise : Type :=
| Resolved (v : value)
| Rejected (e : value)
| Pending.

(** The completion of a function call: it returns or it throws. *)
Inductive completion (A : Type) : Type :=
| Normal (a : A)
| Thrown (e : value).
Arguments Normal {A} a.
Arguments Thrown {A} e.

(** [when(x, next)] where [x] fulfilled and [next] completed with [c]:
    the promise follows what [next] returned and rejects with what it
    threw. *)
Definition chained (c : completion promise) : promise :=
  match c with
  | Normal p => p
  | Thrown e => Rejected e
  end.

End JS.
Import JS.

(** ** The two regular expressions *)

Module Regex.

Definition is_line_terminator (c : ascii) : bool :=
  (Ascii.eqb c "010" || Ascii.eqb c "013")%char.

(** [\w] is [[A-Za-z0-9_]]. *)
Definition is_word (c : ascii) : bool :=
  let n := nat_of_ascii c in
  ((48 <=? n) && (n <=? 57) || (65 <=? n) && (n <=? 90)
   || (97 <=? n) && (n <=? 122) || (n =? 95))%nat.

Fixpoint take_while (p : ascii -> bool) (s : list ascii) : list ascii :=
  match s with
  | c :: t => if p c then c :: take_while p t else []
  | [] => []
  end.

(** The tail of [RE_RUNNER], [(?::(\w+))], tried at the front of [s]:
    a colon, then the longest non-empty run of word characters. *)
Definition colon_word (s : list ascii) : option (list ascii) :=
  match s with
  | ":"%char :: w :: t =>
      if is_word w then Some (w :: take_while is_word t) else None
  | _ => None
  end.

(** The greedy [.] repetition followed by the tail: consume one more
    character when that still leads to a match, otherwise try the tail
    here. The result is what the repetition consumed and the runner. *)
Fixpoint dots_then_tail (s : list ascii) : option (list ascii * list ascii) :=
  match s with
  | [] => None
  | c :: t =>
      let here := match colon_word s with
                  | Some r => Some ([], r)
                  | None => None
                  end in
      if is_line_terminator c then here
      else match dots_then_tail t with
           | Some (e, r) => Some (c :: e, r)
           | None => here
           end
  end.

(** [RE_RUNNER = /^(.+)(?::(\w+))/], as [RE_RUNNER.exec(event)]: [None]
    for [null], otherwise [matches[1]] and [matches[2]]. *)
Definition RE_RUNNER_chars (s : list ascii) : option (list ascii * list ascii) :=
  match s with
  | [] => None
  | c :: t =>
      if is_line_terminator c then None
      else match dots_then_tail t with
           | Some (e, r) => Some (c :: e, r)
           | None => None
           end
  end.

Definition RE_RUNNER (event : string) : option (string * string) :=
  match RE_RUNNER_chars (list_ascii_of_string event) with
  | Some (e, r) => Some (string_of_list_ascii e, string_of_list_ascii r)
  | None => None
  end.

Fixpoint strip_prefix (p s : list ascii) : option (list ascii) :=
  match p, s with
  | [], _ => Some s
  | a :: p', b :: s' => if Ascii.eqb a b then strip_prefix p' s' else None
  | _ :: _, [] => None
  end.

(** The part of [RE_PHASE] after the alternation: [alized?$]. *)
Definition alized_opt_end (s : list ascii) : bool :=
  match strip_prefix (list_ascii_of_string "alize") s with
  | Some [] => true
  | Some ["d"%char] => true
  | _ => false
  end.

(** [RE_PHASE = /^(?:initi|fin)alized?$/], as [RE_PHASE.test(s)]. *)
Definition RE_PHASE (s : string) : bool :=
  let l := list_ascii_of_string s in
  (match strip_prefix (list_ascii_of_string "initi") l with
   | Some r => alized_opt_end r
   | None => false
   end)
  || (match strip_prefix (list_ascii_of_string "fin") l with
      | Some r => alized_opt_end r
      | None => false
      end).

End Regex.

(** ** The objects of the emitter *)

(** A handler object: [callback] and [context] are set when [on] creates it;
    [handled] and [next] are absent until written. *)
Module Handler.
Record t : Type := Build {
  callback : nat;
  context : option nat;
  handled : option Z;
  next : option nat
}.

Definition set_handled (n : Z) (h : t) : t :=
  Build (callback h) (context h) (Some n) (next h).

Definition set_next (a : option nat) (h : t) : t :=
  Build (callback h) (context h) (handled h) a.
End Handler.

(** The per-event object the source calls [handlers]: the epoch counter
    [handled], the optional [head] and [tail] of the chain and the optional
    [memory]. *)
Module Handlers.
Record t : Type := Build {
  handled : Z;
  head : option nat;
  tail : option nat;
  memory : option value
}.

Definition set_handled (n : Z) (c : t) : t :=
  Build n (head c) (tail c) (memory c).

Definition set_ends (hd tl : option nat) (c : t) : t :=
  Build (handled c) hd tl (memory c).

Definition set_memory (v : value) (c : t) : t :=
  Build (handled c) (head c) (tail c) (Some v).
End Handlers.

(** Everything an emitter instance can reach: its registry [me[HANDLERS]]
    from event names to [handlers] objects, the heap of those objects, the
    heap of handler objects, and the [phase] property of the context
    objects (absent for a context without one). *)
Record store : Type := Store {
  handlers : gmap string nat;
  chains : list Handlers.t;
  heap : list Handler.t;
  phases : gmap nat string
}.

Definition set_handlers (r : gmap string nat) (st : store) : store :=
  Store r (chains st) (heap st) (phases st).
Definition set_chains (cs : list Handlers.t) (st : store) : store :=
  Store (handlers st) cs (heap st) (phases st).
Definition set_heap (hp : list Handler.t) (st : store) : store :=
  Store (handlers st) (chains st) hp (phases st).
Definition set_phases (ps : gmap nat string) (st : store) : store :=
  Store (handlers st) (chains st) (heap st) ps.

(** An emitter that has just been constructed: [this[HANDLERS] = {}]. *)
Definition empty_store : store := Store ∅ [] [] ∅.

(** A write to a field of the [handlers] object at address [h]. *)
Definition write_chain (h : nat) (f : Handlers.t -> Handlers.t) (st : store) : store :=
  set_chains (alter f h (chains st)) st.

(** A write to a field of the handler object at address [a]. *)
Definition write_handler (a : nat) (f : Handler.t -> Handler.t) (st : store) : store :=
  set_heap (alter f a (heap st)) st.

(** One callback invocation made by a runner, kept as a ghost record: the
    handler object, its callback, the receiver, the arguments and what the
    invocation yielded. *)
Record invocation : Type := Invocation {
  inv_handler : nat;
  inv_callback : nat;
  inv_this : option nat;
  inv_args : list value;
  inv_outcome : outcome
}.

(** The result of a dispatch: the invocations made, in order, how the call
    completed (a promise, or an exception thrown synchronously) and the
    store when nothing more can happen.  [None] stands for a run that does
    not finish a loop or follows a reference that does not exist. *)
Definition run : Type := option (list invocation * completion promise * store).

(** A runner: [runner.call(me, handlers, candidates, handled, args)]. *)
Definition runner : Type := nat -> list nat -> Z -> value -> store -> run.

(** The behaviour of the callbacks: [call f this args st] is what function
    [f] yields when applied to [this] and [args] in store [st], with the
    store once the yielded value has settled. *)
Definition callbacks : Type := nat -> option nat -> list value -> store -> outcome * store.

(** The expression every [next] closure ends with when it has a candidate:
    [(candidate[HANDLED] = handled) === handled
       && when(candidate[CALLBACK].apply(this, args), next)].
    The candidate is stamped, then its callback is applied to the receiver
    ([this] selects it from the handler object) and to [args]; a value
    the callback returns is handed to [continue], the call [when] makes
    to [next]. *)
Definition invoke (call : callbacks) (candidate : nat)
    (this : Handler.t -> option nat) (handled : Z) (args : value)
    (continue : value -> store -> run) (st : store) : run :=
  let st := write_handler candidate (Handler.set_handled handled) st in
  hd ← heap st !! candidate;
  match arg_list args with
  | None => Some ([], Thrown VTypeError, st)
  | Some al =>
      let (o, st) := call (Handler.callback hd) (this hd) al st in
      let inv := Invocation candidate (Handler.callback hd) (this hd) al o in
      match o with
      | Returns v =>
          '(tr, c, st) ← continue v st;
          Some (inv :: tr, Normal (chained c), st)
      | Throws e => Some ([inv], Thrown e, st)
      | Rejects e => Some ([inv], Normal (Rejected e), st)
      | Pends => Some ([inv], Normal Pending, st)
      end
  end.

(** ** src/event/emitter.js *)

Module Emitter.

Definition DEFAULT : string := "default".

(** The result of [on] and [off]: [return me]. *)
Inductive self : Type := Me.

Section Sequence.

Variable call : callbacks.

(** The closure [next] of [sequence].  [h], [candidates], [handled] and
    [args] are the runner's parameters; [results] and [candidatesCount] are
    the variables the closure updates ([results[resultsCount++] = result]
    appends).  Each time [when] calls [next] again one unit of [fuel] is
    used. *)
Fixpoint next (fuel : nat) (h : nat) (candidates : list nat) (handled : Z)
    (args : value) (results : list value) (candidatesCount : nat)
    (result : value) (skip : bool) (st : store) : run :=
  match fuel with
  | O => None
  | S fuel =>
      let results := if skip then results else results ++ [result] in
      match candidates !! candidatesCount with
      | Some candidate =>
          invoke call candidate Handler.context handled args
            (fun v st => next fuel h candidates handled args results
                           (S candidatesCount) v false st) st
      | None =>
          _ ← chains st !! h;
          Some ([], Normal (Resolved (VArray results)),
                write_chain h (Handlers.set_memory args) st)
      end
  end.

(** [sequence(handlers, candidates, handled, args)]: [next(args, true)].
    [next] is entered once per candidate and once more at the end. *)
Definition sequence : runner :=
  fun h candidates handled args st =>
    next (S (length candidates)) h candidates handled args [] 0 args true st.

End Sequence.

(** The [runners] table of the emitter prototype. *)
Definition runners (call : callbacks) : gmap string runner :=
  <["sequence" := sequence call]> (<[DEFAULT := sequence call]> ∅).

(** [on(event, context, callback)]; [callback] is [None] when it is
    [undefined]. *)
Definition on (event : string) (context callback : option nat) (st : store)
  : option (completion self * store) :=
  match callback with
  | None => Some (Thrown (VError "no callback provided"), st)
  | Some callback =>
      let handler := length (heap st) in
      let st := set_heap (heap st ++ [Handler.Build callback context None None]) st in
      match handlers st !! event with
      | Some h =>
          c ← chains st !! h;
          match Handlers.tail c with
          | Some t =>
              let st := write_handler t (Handler.set_next (Some handler)) st in
              Some (Normal Me,
                    write_chain h (Handlers.set_ends (Handlers.head c) (Some handler)) st)
          | None =>
              Some (Normal Me,
                    write_chain h (Handlers.set_ends (Some handler) (Some handler)) st)
          end
      | None =>
          let h := length (chains st) in
          let st := set_handlers (<[event := h]> (handlers st)) st in
          let st := set_chains
                      (chains st ++ [Handlers.Build 0 (Some handler) (Some handler) None]) st in
          Some (Normal Me, st)
      end
  end.

(** [context && handler[CONTEXT] !== context]. *)
Definition context_differs (context : option nat) (hd : Handler.t) : bool :=
  match context with
  | Some c => bool_decide (Handler.context hd ≠ Some c)
  | None => false
  end.

(** [callback && handler[CALLBACK] !== callback]. *)
Definition callback_differs (callback : option nat) (hd : Handler.t) : bool :=
  match callback with
  | Some f => bool_decide (Handler.callback hd ≠ f)
  | None => false
  end.

(** The [do ... while] loop of [off], entered with [handler]; [head] and
    [tail] are the local variables of [off]. A handler that breaks out of
    the [remove] block is linked behind [tail]; the others are passed over
    by [continue].  One unit of [fuel] is used for each round; [off] gives
    one unit for each handler object of the heap, which is enough as long
    as the chain does not lead back into itself (where the source loops
    for ever the result is [None]). *)
Fixpoint off_loop (fuel : nat) (context callback : option nat)
    (hp : list Handler.t) (handler : nat) (head tail : option nat)
  : option (list Handler.t * option nat * option nat) :=
  match fuel with
  | O => None
  | S fuel =>
      hd ← hp !! handler;
      '(hp, head, tail) ←
        (if context_differs context hd || callback_differs callback hd then
           match head with
           | None => Some (hp, Some handler, Some handler)
           | Some _ =>
               t ← tail;
               Some (alter (Handler.set_next (Some handler)) t hp, head, Some handler)
           end
         else Some (hp, head, tail));
      hd ← hp !! handler;
      match Handler.next hd with
      | Some n => off_loop fuel context callback hp n head tail
      | None => Some (hp, head, tail)
      end
  end.

(** [off(event, context, callback)]; an absent [context] or [callback] is
    [None]. *)
Definition off (event : string) (context callback : option nat) (st : store)
  : option (self * store) :=
  match handlers st !! event with
  | Some h =>
      c ← chains st !! h;
      match Handlers.head c with
      | Some handler =>
          '(hp, head, tail) ← off_loop (length (heap st)) context callback
                                (heap st) handler None None;
          match head, tail with
          | Some _, Some t =>
              let st := set_heap hp st in
              let st := write_chain h (Handlers.set_ends head tail) st in
              Some (Me, write_handler t (Handler.set_next None) st)
          | _, _ =>
              let st := set_heap hp st in
              Some (Me, write_chain h (Handlers.set_ends None None) st)
          end
      | None => Some (Me, st)
      end
  | None => Some (Me, st)
  end.

(** The [do ... while] loop of [emit]: every handler reached from
    [handler] is pushed on [candidates].  The fuel is used as in
    [off_loop]. *)
Fixpoint emit_loop (fuel : nat) (hp : list Handler.t) (handler : nat)
    (candidates : list nat) : option (list nat) :=
  match fuel with
  | O => None
  | S fuel =>
      let candidates := candidates ++ [handler] in
      hd ← hp !! handler;
      match Handler.next hd with
      | Some n => emit_loop fuel hp n candidates
      | None => Some candidates
      end
  end.

(** The part of [emit] and [reemit] that overrides [event] and [runner]
    when [RE_RUNNER] matches; the left result is the error thrown for an
    unknown runner. [runner] is [None] when [runners] has no such entry. *)
Definition select_runner (runners : gmap string runner) (event : string)
  : value + (string * option runner) :=
  match Regex.RE_RUNNER event with
  | Some (name, suffix) =>
      match runners !! suffix with
      | Some r => inr (name, Some r)
      | None => inl (VError ("unknown runner " +:+ suffix))
      end
  | None => inr (event, runners !! DEFAULT)
  end.

(** [emit(event, ...args)] on an emitter whose [runners] table is
    [runners].  The call [runner.call(...)] of an absent runner is a
    [TypeError], raised before the arguments are evaluated. *)
Definition emit (runners : gmap string runner) (event : string)
    (args : list value) (st : store) : run :=
  match select_runner runners event with
  | inl e => Some ([], Thrown e, st)
  | inr (event, runner) =>
      '(h, candidates, st) ←
        match handlers st !! event with
        | Some h =>
            c ← chains st !! h;
            match Handlers.head c with
            | Some handler =>
                candidates ← emit_loop (length (heap st)) (heap st) handler [];
                Some (h, candidates, st)
            | None => Some (h, [], st)
            end
        | None =>
            let h := length (chains st) in
            let st := set_handlers (<[event := h]> (handlers st)) st in
            Some (h, [], set_chains (chains st ++ [Handlers.Build 0 None None None]) st)
        end;
      match runner with
      | Some runner =>
          c ← chains st !! h;
          let handled := Handlers.handled c + 1 in
          let st := write_chain h (Handlers.set_handled handled) st in
          runner h candidates handled (VArray args) st
      | None => Some ([], Thrown VTypeError, st)
      end
  end.

(** The [do ... while] loop of [reemit]: a handler is pushed on
    [candidates] unless one of the three tests breaks out of the [add]
    block.  The fuel is used as in [off_loop]. *)
Fixpoint reemit_loop (fuel : nat) (senile : bool) (context callback : option nat)
    (handled : Z) (hp : list Handler.t) (handler : nat) (candidates : list nat)
  : option (list nat) :=
  match fuel with
  | O => None
  | S fuel =>
      hd ← hp !! handler;
      let candidates :=
        if context_differs context hd then candidates
        else if callback_differs callback hd then candidates
        else if bool_decide (Handler.handled hd = Some handled) && negb senile
             then candidates
        else candidates ++ [handler] in
      match Handler.next hd with
      | Some n => reemit_loop fuel senile context callback handled hp n candidates
      | None => Some candidates
      end
  end.

(** [reemit(event, senile, context, callback)]. *)
Definition reemit (runners : gmap string runner) (event : string) (senile : bool)
    (context callback : option nat) (st : store) : run :=
  match select_runner runners event with
  | inl e => Some ([], Thrown e, st)
  | inr (event, runner) =>
      '(h, handled, candidates, st) ←
        match handlers st !! event with
        | Some h =>
            c ← chains st !! h;
            let handled := Handlers.handled c in
            match Handlers.head c with
            | Some handler =>
                candidates ← reemit_loop (length (heap st)) senile context callback
                               handled (heap st) handler [];
                Some (h, handled, candidates, st)
            | None => Some (h, handled, [], st)
            end
        | None =>
            let h := length (chains st) in
            let st := set_handlers (<[event := h]> (handlers st)) st in
            Some (h, 0, [], set_chains (chains st ++ [Handlers.Build 0 None None None]) st)
        end;
      match runner with
      | Some runner =>
          c ← chains st !! h;
          runner h candidates handled (default VUndefined (Handlers.memory c)) st
      | None => Some ([], Thrown VTypeError, st)
      end
  end.

(** [peek(event)]: the memory, [undefined] when there is none. *)
Definition peek (event : string) (st : store) : value :=
  match handlers st !! event with
  | Some h =>
      match chains st !! h with
      | Some c =>
          match Handlers.memory c with
          | Some m => m
          | None => VUndefined
          end
      | None => VUndefined
      end
  | None => VUndefined
  end.

End Emitter.

(** ** src/pubsub/hub.js *)

Module Hub.

(** Modelled from the spec: [../event/config], from which the hub reads
    [RE_RUNNER], is not among the sources.  [republish] is specified as
    the hub's [reemit], with the same suffix on the event, so the
    expression is taken to be the one of [emitter.js]. *)
Definition RE_RUNNER : string -> option (string * string) := Regex.RE_RUNNER.

(** Modelled from the spec: the name of the default runner, read from
    [../event/config] like the property names [head], [next], [context],
    [callback], [handled], [handlers] and [runners].  [republish] works
    on the objects that [on] and [emit] of [emitter.js] build, so all of
    them are taken to be the names [emitter.js] uses. *)
Definition DEFAULT : string := Emitter.DEFAULT.

(** The property of a context object that holds its phase. *)
Definition phase_of (st : store) (context : nat) : string :=
  default "undefined" (phases st !! context).

Section Runners.

Variable call : callbacks.

(** The [while] loop shared by both [next] closures: it advances
    [candidatesCount] past every candidate that has a context in a blocked
    phase.  The result is the candidate it stops at (if any), the value
    left in [context] and the new [candidatesCount].  The loop reads one
    more entry of [candidates] in each round, so that one unit of [fuel]
    for each entry and one for the read past the end are enough. *)
Fixpoint blocked_loop (fuel : nat) (candidates : list nat) (candidatesCount : nat)
    (context : option nat) (st : store)
  : option (option nat * option nat * nat) :=
  match fuel with
  | O => None
  | S fuel =>
      match candidates !! candidatesCount with
      | None => Some (None, context, S candidatesCount)
      | Some candidate =>
          hd ← heap st !! candidate;
          match Handler.context hd with
          | None => Some (Some candidate, None, S candidatesCount)
          | Some c =>
              if Regex.RE_PHASE (phase_of st c)
              then blocked_loop fuel candidates (S candidatesCount) (Some c) st
              else Some (Some candidate, Some c, S candidatesCount)
          end
      end
  end.

(** The closure [next] of the hub's [sequence]. *)
Fixpoint sequence_next (fuel : nat) (h : nat) (candidates : list nat) (handled : Z)
    (args : value) (results : list value) (candidatesCount : nat)
    (result : value) (skip : bool) (st : store) : run :=
  match fuel with
  | O => None
  | S fuel =>
      let results := if skip then results else results ++ [result] in
      '(found, context, candidatesCount) ←
        blocked_loop (S (length candidates)) candidates candidatesCount None st;
      match found with
      | Some candidate =>
          invoke call candidate (fun _ => context) handled args
            (fun v st => sequence_next fuel h candidates handled args results
                           candidatesCount v false st) st
      | None =>
          _ ← chains st !! h;
          Some ([], Normal (Resolved (VArray results)),
                write_chain h (Handlers.set_memory args) st)
      end
  end.

Definition sequence : runner :=
  fun h candidates handled args st =>
    sequence_next (S (length candidates)) h candidates handled args [] 0 args true st.

(** The closure [next] of [pipeline]; [args] is the variable of the
    runner that the closure overwrites. *)
Fixpoint pipeline_next (fuel : nat) (h : nat) (candidates : list nat) (handled : Z)
    (args : value) (candidatesCount : nat) (result : value) (st : store) : run :=
  match fuel with
  | O => None
  | S fuel =>
      let args := match result with
                  | VUndefined => args
                  | _ => result
                  end in
      '(found, context, candidatesCount) ←
        blocked_loop (S (length candidates)) candidates candidatesCount None st;
      match found with
      | Some candidate =>
          invoke call candidate (fun _ => context) handled args
            (fun v st => pipeline_next fuel h candidates handled args
                           candidatesCount v st) st
      | None =>
          _ ← chains st !! h;
          Some ([], Normal (Resolved args),
                write_chain h (Handlers.set_memory args) st)
      end
  end.

Definition pipeline : runner :=
  fun h candidates handled args st =>
    pipeline_next (S (length candidates)) h candidates handled args 0 args st.

(** [merge.call({}, runners, overrides)] of troopjs-utils: the entries of
    [overrides] laid over those of [runners]. *)
Definition merge (runners overrides : gmap string runner) : gmap string runner :=
  overrides ∪ runners.

(** The [runners] table of the hub. *)
Definition runners : gmap string runner :=
  merge (Emitter.runners call)
    (<["pipeline" := pipeline]>
       (<["sequence" := sequence]> (<[DEFAULT := pipeline]> ∅))).

(** [subscribe], [unsubscribe] and [publish] are the emitter's [on], [off]
    and [emit], run on the hub. *)
Definition subscribe := Emitter.on.
Definition unsubscribe := Emitter.off.
Definition publish := Emitter.emit runners.

(** [republish(event, context, callback, senile)]: the body of [reemit],
    written out again in [hub.js] with the parameters in another order
    (the [do ... while] loop is the one of [reemit]). *)
Definition republish (event : string) (context callback : option nat)
    (senile : bool) (st : store) : run :=
  match (match RE_RUNNER event with
         | Some (name, suffix) =>
             match runners !! suffix with
             | Some r => inr (name, Some r)
             | None => inl (VError ("unknown runner " +:+ suffix))
             end
         | None => inr (event, runners !! DEFAULT)
         end) with
  | inl e => Some ([], Thrown e, st)
  | inr (event, runner) =>
      '(h, handled, candidates, st) ←
        match handlers st !! event with
        | Some h =>
            c ← chains st !! h;
            let handled := Handlers.handled c in
            match Handlers.head c with
            | Some handler =>
                candidates ← Emitter.reemit_loop (length (heap st)) senile context
                               callback handled (heap st) handler [];
                Some (h, handled, candidates, st)
            | None => Some (h, handled, [], st)
            end
        | None =>
            let h := length (chains st) in
            let st := set_handlers (<[event := h]> (handlers st)) st in
            Some (h, 0, [], set_chains (chains st ++ [Handlers.Build 0 None None None]) st)
        end;
      match runner with
      | Some runner =>
          c ← chains st !! h;
          runner h candidates handled (default VUndefined (Handlers.memory c)) st
      | None => Some ([], Thrown VTypeError, st)
      end
  end.

Definition peek := Emitter.peek.

End Runners.

End Hub.

(** ** src/unnamed/part_000: the base component *)

Module Component.

(** Where the counter stops: [COUNT] is a JavaScript number, and
    [2^53 + 1] is rounded back to [2^53]. *)
Definition MAX_COUNT : N := 2 ^ 53.

(** The value of [COUNT] after [COUNT++]. *)
Definition increment (COUNT : N) : N :=
  if (COUNT <? MAX_COUNT)%N then (COUNT + 1)%N else COUNT.

(** An instance: the emitter it extends, the [displayName] it reads
    through its prototype (["core/component"] unless a derived component
    gives another) and the [instanceCount] its constructor sets. *)
Record t : Type := Build {
  emitter : store;
  displayName : string;
  instanceCount : N
}.

(** The constructor, [this[INSTANCE_COUNT] = COUNT++], on a new object
    whose prototype holds [displayName] and to which the constructor of
    the emitter has given its empty registry: the instance and the new
    value of the module's [COUNT]. *)
Definition Component (displayName : string) (COUNT : N) : t * N :=
  (Build empty_store displayName COUNT, increment COUNT).

(** A number that is a count, as a string: its decimal digits. *)
Definition number_to_string (n : N) : string :=
  NilEmpty.string_of_uint (N.to_uint n).

(** [toString()]: [self.displayName + "@" + self[INSTANCE_COUNT]]. *)
Definition toString (self : t) : string :=
  displayName self +:+ "@" +:+ number_to_string (instanceCount self).

End Component.

(** ** Notions used to state the properties *)

(** *** Event names with a runner suffix *)

Definition no_terminator (p : list ascii) : Prop :=
  Forall (fun c => Regex.is_line_terminator c = false) p.

Definition starts_with_word (q : list ascii) : Prop :=
  exists w t, q = w :: t /\ Regex.is_word w = true.

(** [s] has a colon that follows the non-empty prefix [p], free of line
    terminators, and is followed by [q], which starts with a word
    character. *)
Definition colon_split (s p q : list ascii) : Prop :=
  s = p ++ ":"%char :: q /\ p <> [] /\ no_terminator p /\ starts_with_word q.

(** The same on strings: [event] is [name], a colon and [rest]. *)
Definition runner_split (event name rest : string) : Prop :=
  colon_split (list_ascii_of_string event) (list_ascii_of_string name)
    (list_ascii_of_string rest).

(** The longest prefix of [rest] made of word characters. *)
Definition word_prefix (rest : string) : string :=
  string_of_list_ascii (Regex.take_while Regex.is_word (list_ascii_of_string rest)).




(** *** What the callbacks may be assumed to do *)

(** From [st] to [st'] no object has disappeared: every handler object is
    still there with the callback and context it was created with, and so
    is every [handlers] object.  All operations of the emitter keep this. *)
Definition extends (st st' : store) : Prop :=
  (forall a hd, heap st !! a = Some hd ->
     exists hd', heap st' !! a = Some hd'
       /\ Handler.callback hd' = Handler.callback hd
       /\ Handler.context hd' = Handler.context hd)
  /\ (length (chains st) <= length (chains st'))%nat.

Definition well_behaved (call : callbacks) : Prop :=
  forall f this args st, extends st (call f this args st).2.

(** The callbacks leave the phase of every context as it is. *)
Definition keeps_phases (call : callbacks) : Prop :=
  forall f this args st, phases (call f this args st).2 = phases st.

(** The callbacks leave what [peek] returns as it is: they do not
    themselves dispatch. *)
Definition keeps_memory (call : callbacks) : Prop :=
  forall f this args st event,
    Emitter.peek event (call f this args st).2 = Emitter.peek event st.

(** *** The runners told over the remaining candidates *)

(** The candidate is bound to a context in a blocked phase. *)
Definition blocked (st : store) (hd : Handler.t) : bool :=
  match Handler.context hd with
  | Some c => Regex.RE_PHASE (Hub.phase_of st c)
  | None => false
  end.

(** The argument list of the next handler in a pipeline, from the current
    one and the value just returned. *)
Definition threaded (args result : value) : value :=
  match result with
  | VUndefined => args
  | _ => result
  end.

Section Over.

Variable call : callbacks.
Variables (h : nat) (handled : Z).

(** The end of every runner: the memory is written and the promise
    resolves. *)
Definition finish (memory resolution : value) (st : store) : run :=
  _ ← chains st !! h;
  Some ([], Normal (Resolved resolution), write_chain h (Handlers.set_memory memory) st).

(** The emitter's [sequence]: each remaining candidate in turn, with the
    same [args]; the values returned are appended to [results]. *)
Fixpoint sequence_over (args : value) (rest : list nat) (results : list value)
    (st : store) : run :=
  match rest with
  | [] => finish args (VArray results) st
  | candidate :: rest =>
      invoke call candidate Handler.context handled args
        (fun v st => sequence_over args rest (results ++ [v]) st) st
  end.

(** The hub's [sequence]: as above, passing over the blocked candidates. *)
Fixpoint hub_sequence_over (args : value) (rest : list nat) (results : list value)
    (st : store) : run :=
  match rest with
  | [] => finish args (VArray results) st
  | candidate :: rest =>
      hd ← heap st !! candidate;
      if blocked st hd then hub_sequence_over args rest results st
      else invoke call candidate Handler.context handled args
             (fun v st => hub_sequence_over args rest (results ++ [v]) st) st
  end.

(** The hub's [pipeline]: each candidate that is not blocked receives the
    arguments threaded so far. *)
Fixpoint pipeline_over (args : value) (rest : list nat) (st : store) : run :=
  match rest with
  | [] => finish args args st
  | candidate :: rest =>
      hd ← heap st !! candidate;
      if blocked st hd then pipeline_over args rest st
      else invoke call candidate Handler.context handled args
             (fun v st => pipeline_over (threaded args v) rest st) st
  end.

End Over.

(** A candidate the loop of the hub passes over. *)
Definition passed (st : store) (a : nat) : Prop :=
  exists hd, heap st !! a = Some hd /\ blocked st hd = true.

(** *** Reading a trace *)

Definition returned (i : invocation) : Prop :=
  exists v, inv_outcome i = Returns v.

Definition failed (i : invocation) : Prop :=
  exists e, inv_outcome i = Throws e \/ inv_outcome i = Rejects e.

(** The values the invocations of a trace returned, in order. *)
Definition returned_values (tr : list invocation) : list value :=
  omap (fun i => match inv_outcome i with
                 | Returns v => Some v
                 | _ => None
                 end) tr.

(** A failed invocation is the last one, and the failure reaches the
    caller unchanged: a rejection rejects the promise of the dispatch; an
    exception is thrown by the dispatch itself when it comes from the
    first invocation, made while the dispatch is still running
    synchronously, and rejects the promise otherwise. *)
Definition surfaces (tr : list invocation) (c : completion promise) : Prop :=
  forall pre i post e, tr = pre ++ i :: post ->
    (inv_outcome i = Rejects e -> post = [] /\ c = Normal (Rejected e))
    /\ (inv_outcome i = Throws e ->
        post = [] /\ c = match pre with
                         | [] => Thrown e
                         | _ :: _ => Normal (Rejected e)
                         end).

(** The candidate is not passed over by a runner that passes over the
    handlers [skips] selects. *)
Definition kept (skips : store -> Handler.t -> bool) (st : store) (a : nat) : bool :=
  match heap st !! a with
  | Some hd => negb (skips st hd)
  | None => true
  end.

(** The candidate is not passed over by the hub. *)
Definition unblocked (st : store) (a : nat) : bool := kept blocked st a.

(** The accumulated variables once the values [vs] have been returned. *)
Definition after_all {acc : Type} (after : acc -> value -> acc) (s : acc)
    (vs : list value) : acc :=
  fold_left after vs s.

(** The memory of the [handlers] object at [h]: [None] when the property
    is absent. *)
Definition memory_at (st : store) (h : nat) : option (option value) :=
  Handlers.memory <$> chains st !! h.

(** The invocation was made on the handler object as it was created: its
    callback, applied to its context. *)
Definition bound_in (st : store) (i : invocation) : Prop :=
  exists hd, heap st !! inv_handler i = Some hd
    /\ inv_callback i = Handler.callback hd /\ inv_this i = Handler.context hd.

(** One of the three runners of the repository. *)
Definition known_runner (call : callbacks) (r : runner) : Prop :=
  r = Emitter.sequence call \/ r = Hub.sequence call \/ r = Hub.pipeline call.

(** A table of runners of the repository. *)
Definition known_runners (call : callbacks) (runners : gmap string runner) : Prop :=
  forall name r, runners !! name = Some r -> known_runner call r.

(** *** Epochs *)

(** The epoch counter of the chain of [event], when it has one. *)
Definition epoch (st : store) (event : string) : option Z :=
  h ← handlers st !! event;
  c ← chains st !! h;
  Some (Handlers.handled c).

Definition epochs_le (st st' : store) : Prop :=
  forall event n, epoch st event = Some n ->
    exists m, epoch st' event = Some m /\ n <= m.

Definition epochs_kept (st st' : store) : Prop :=
  forall event n, epoch st event = Some n -> epoch st' event = Some n.

(** *** The common shape of the three runners *)

Section RunOver.

Variable call : callbacks.
Variables (h : nat) (handled : Z).

(** What varies from one runner to the other: the variables [acc] the
    closure carries from one candidate to the next, the arguments it passes,
    how a returned value updates the variables, what it stores as memory
    and resolves with in the end, and which candidates it passes over. *)
Variable acc : Type.
Variable args_of : acc -> value.
Variable after : acc -> value -> acc.
Variable memory_of resolution_of : acc -> value.
Variable skips : store -> Handler.t -> bool.

Fixpoint run_over (s : acc) (rest : list nat) (st : store) : run :=
  match rest with
  | [] => finish h (memory_of s) (resolution_of s) st
  | candidate :: rest =>
      hd ← heap st !! candidate;
      if skips st hd then run_over s rest st
      else invoke call candidate Handler.context handled (args_of s)
             (fun v st => run_over (after s v) rest st) st
  end.

End RunOver.

(** No candidate is passed over. *)
Definition skips_none (st : store) (hd : Handler.t) : bool := false.

(** *** Chains of handler objects *)

(** Following [next] from [first] visits exactly the handler objects [l]
    and then ends. *)
Inductive linked (hp : list Handler.t) : option nat -> list nat -> Prop :=
| linked_nil : linked hp None []
| linked_cons a hd l :
    hp !! a = Some hd -> linked hp (Handler.next hd) l -> linked hp (Some a) (a :: l).

(** The [handlers] object [c] holds the chain [l]: [head] leads through
    [l] and [tail] is its last handler. *)
Definition chain_of (hp : list Handler.t) (c : Handlers.t) (l : list nat) : Prop :=
  linked hp (Handlers.head c) l /\ Handlers.tail c = last l.

(** The handlers [l] are linked one to the next; where the [next] of the
    last one leads is left open. *)
Inductive segment (hp : list Handler.t) : list nat -> Prop :=
| segment_nil : segment hp []
| segment_one a hd : hp !! a = Some hd -> segment hp [a]
| segment_cons a hd b l :
    hp !! a = Some hd -> Handler.next hd = Some b -> segment hp (b :: l) ->
    segment hp (a :: b :: l).

(** From [hp] to [hp'] only [next] fields were written. *)
Definition relinked (hp hp' : list Handler.t) : Prop :=
  length hp' = length hp
  /\ forall a hd, hp !! a = Some hd ->
       exists hd', hp' !! a = Some hd'
         /\ Handler.callback hd' = Handler.callback hd
         /\ Handler.context hd' = Handler.context hd
         /\ Handler.handled hd' = Handler.handled hd.

(** The handlers [off] is asked to remove: the context is absent or is
    the handler's, and the callback is absent or is the handler's. *)
Definition selected (context callback : option nat) (hd : Handler.t) : bool :=
  (bool_decide (context = None) || bool_decide (Handler.context hd = context))
  && (bool_decide (callback = None) || bool_decide (Some (Handler.callback hd) = callback)).

(** The handler object at [a] is not one [off] is asked to remove. *)
Definition survives (context callback : option nat) (hp : list Handler.t) (a : nat) : bool :=
  match hp !! a with
  | Some hd => negb (selected context callback hd)
  | None => false
  end.

(** The handlers [reemit] replays: selected as for [off], and either not
    stamped with the current epoch or replayed regardless. *)
Definition replayed (senile : bool) (context callback : option nat) (handled : Z)
    (hp : list Handler.t) (a : nat) : bool :=
  match hp !! a with
  | Some hd =>
      selected context callback hd
      && (negb (bool_decide (Handler.handled hd = Some handled)) || senile)
  | None => false
  end.

(** ** Example emitters *)

(** The store after [on(event, context, callback)]. *)
Definition subscribed (event : string) (context callback : nat) (st : store) : store :=
  match Emitter.on event (Some context) (Some callback) st with
  | Some (_, st') => st'
  | None => st
  end.

(** Three handlers on ["evt"]: callbacks 0, 1 and 2, bound to the
    contexts 10, 11 and 12. *)
Definition three_handlers : store :=
  subscribed "evt" 12 2 (subscribed "evt" 11 1 (subscribed "evt" 10 0 empty_store)).

(** Callbacks that return their own number and touch nothing. *)
Definition quiet : callbacks :=
  fun f this args st => (Returns (VNum (Z.of_nat f)), st).

(** Callbacks that return nothing and touch nothing. *)
Definition silent : callbacks :=
  fun f this args st => (Returns VUndefined, st).

(** Callback 0 subscribes a fourth handler to ["evt"] and unsubscribes
    the handlers of callback 1 before it returns; the others return at
    once. *)
Definition meddling : callbacks :=
  fun f this args st =>
    match f with
    | O =>
        let st1 := subscribed "evt" 13 3 st in
        (Returns VUndefined,
         match Emitter.off "evt" None (Some 1%nat) st1 with
         | Some (_, st2) => st2
         | None => st1
         end)
    | _ => (Returns VUndefined, st)
    end.

(** Callback 0 returns 7, callback 1 throws, callback 2 returns a promise
    that rejects; the others return nothing. *)
Definition failing : callbacks :=
  fun f this args st =>
    match f with
    | 0%nat => (Returns (VNum 7), st)
    | 1%nat => (Throws (VStr "thrown"), st)
    | 2%nat => (Rejects (VStr "rejected"), st)
    | _ => (Returns VUndefined, st)
    end.

(** *** Where a dispatch finds its chain *)

(** [emit] and [reemit] find the [handlers] object of [name] at [h] and
    go on in [st1]: either [name] is registered in [st], which is left as
    it is, or it is not, and a new object with epoch [0] and nothing else
    is registered for it. *)
Definition located (st : store) (name : string) (h : nat) (st1 : store) : Prop :=
  (handlers st !! name = Some h /\ st1 = st)
  \/ (handlers st !! name = None /\ h = length (chains st)
      /\ st1 = set_chains (chains st ++ [Handlers.Build 0 None None None])
                 (set_handlers (<[name := h]> (handlers st)) st)).

(** The callbacks leave the stamp of every handler object as it is. *)
Definition keeps_stamps (call : callbacks) : Prop :=
  forall f this args st a hd, heap st !! a = Some hd ->
    exists hd', heap (call f this args st).2 !! a = Some hd'
      /\ Handler.handled hd' = Handler.handled hd.

(** What it is for a runner of the hub to pass over the candidates whose
    context is in a blocked phase: run over existing candidates, it
    finishes; it invokes only candidates that are not blocked, in the
    order of the snapshot; when its promise resolves it has invoked all
    of them, each having returned; and, the callbacks leaving stamps
    alone, a blocked handler keeps its stamp, and with it its standing
    for a later replay. *)
Definition passes_over_blocked (call : callbacks) (run : runner) : Prop :=
  forall h candidates handled args st,
    (h < length (chains st))%nat ->
    Forall (fun a => (a < length (heap st))%nat) candidates ->
    exists tr c st',
      run h candidates handled args st = Some (tr, c, st')
      /\ map inv_handler tr `prefix_of` List.filter (unblocked st) candidates
      /\ (forall v, c = Normal (Resolved v) ->
            map inv_handler tr = List.filter (unblocked st) candidates
            /\ Forall returned tr)
      /\ (keeps_stamps call ->
          forall a hd, heap st !! a = Some hd -> blocked st hd = true ->
            (exists hd', heap st' !! a = Some hd'
               /\ Handler.handled hd' = Handler.handled hd)
            /\ forall senile context callback n,
                 replayed senile context callback n (heap st') a
                 = replayed senile context callback n (heap st) a).

(** What stays the same along a run of the hub when the callbacks keep
    the objects in place and the phases as they are. *)
Definition steady (st st' : store) : Prop :=
  extends st st' /\ phases st' = phases st.


(** Two handlers on ["evt"]: callback 0 bound to context 10 and callback
    3 bound to context 11. *)
Definition two_handlers : store :=
  subscribed "evt" 11 3 (subscribed "evt" 10 0 empty_store).

(** One handler on ["evt"]: callback 1 bound to context 11. *)
Definition one_handler : store := subscribed "evt" 11 1 empty_store.

(** The store of [three_handlers] once ["evt"] has been emitted with the
    argument 1 to callbacks that return. *)
Definition three_handlers_emitted : store :=
  match Emitter.emit (Emitter.runners quiet) "evt" [VNum 1] three_handlers with
  | Some (_, _, st') => st'
  | None => three_handlers
  end.

(** Callback 0 returns the array of 2 and 3; the others return nothing. *)
Definition piping : callbacks :=
  fun f this args st =>
    match f with
    | O => (Returns (VArray [VNum 2; VNum 3]), st)
    | _ => (Returns VUndefined, st)
    end.

(** *** What a dispatch leaves in place *)

(** Every event name registered in [st] is registered in [st'] for the
    same [handlers] object: no operation of the emitter removes or
    rebinds a name. *)
Definition registry_kept (st st' : store) : Prop :=
  forall name h, handlers st !! name = Some h -> handlers st' !! name = Some h.

(** The callbacks leave the registrations as they are. *)
Definition keeps_registry (call : callbacks) : Prop :=
  forall f this args st, registry_kept st (call f this args st).2.

(** From [st] to [st'] no subscription has changed: the event names are
    registered as they were, every [handlers] object has the [head] and
    [tail] it had, and every handler object the callback, context and
    [next] it had. *)
Definition subscriptions_kept (st st' : store) : Prop :=
  registry_kept st st'
  /\ (forall h c, chains st !! h = Some c ->
        exists c', chains st' !! h = Some c'
          /\ Handlers.head c' = Handlers.head c /\ Handlers.tail c' = Handlers.tail c)
  /\ (forall a hd, heap st !! a = Some hd ->
        exists hd', heap st' !! a = Some hd'
          /\ Handler.callback hd' = Handler.callback hd
          /\ Handler.context hd' = Handler.context hd
          /\ Handler.next hd' = Handler.next hd).

(** The callbacks neither subscribe nor unsubscribe. *)
Definition keeps_subscriptions (call : callbacks) : Prop :=
  forall f this args st, subscriptions_kept st (call f this args st).2.

(** From [st] to [st'] every handler object stamped with the epoch [n]
    is still stamped with it. *)
Definition stamps_stick (n : Z) (st st' : store) : Prop :=
  forall a hd, heap st !! a = Some hd -> Handler.handled hd = Some n ->
    exists hd', heap st' !! a = Some hd' /\ Handler.handled hd' = Some n.

(** *** Well-formed stores *)



(** *** Names of events and runners, phases *)

(** A non-empty string of word characters, as a runner is named after
    the colon. *)
Definition word (s : string) : Prop :=
  s <> "" /\ Forall (fun c => Regex.is_word c = true) (list_ascii_of_string s).

(** A non-empty string with no line terminator. *)
Definition one_line (s : string) : Prop :=
  s <> "" /\ no_terminator (list_ascii_of_string s).

(** No context is in a blocked phase. *)
Definition none_blocked (st : store) : Prop :=
  forall context, Regex.RE_PHASE (Hub.phase_of st context) = false.

(** *** Components *)

(** The instances made one after the other for the display names
    [names], from the value [COUNT] of the counter. *)
Fixpoint constructed (names : list string) (COUNT : N) : list Component.t :=
  match names with
  | [] => []
  | name :: names =>
      let (c, COUNT) := Component.Component name COUNT in
      c :: constructed names COUNT
  end.

(** *** More example emitters *)

(** Three handlers on ["evt"] as in [three_handlers], the context of the
    first being in the phase ["finalized"]. *)
Definition first_finalized : store :=
  set_phases {[10%nat := "finalized"]} three_handlers.

(** Callback 1 returns a promise that never settles; the others return
    nothing. *)
Definition stalling : callbacks :=
  fun f this args st =>
    match f with
    | 1%nat => (Pends, st)
    | _ => (Returns VUndefined, st)
    end.

(** *** Values that are no argument list *)

(** A number, a string or a boolean: a value that [apply] refuses as an
    argument array. *)
Definition scalar (v : value) : Prop := arg_list v = None.

(** *** Subscribing in a row *)




(** *** Example emitters for the compositions *)

(** The store after the only handler of ["evt"] on the hub returned the
    number 7 to [publish]. *)
Definition scalar_memory : store :=
  match Hub.publish failing "evt" [VNum 1] (subscribed "evt" 10 0 empty_store) with
  | Some (_, _, st') => st'
  | None => empty_store
  end.


(** * Properties *)

(** ** What the two regular expressions accept *)

Section RegexFacts.

Import Regex.

Lemma colon_word_some s r :
  colon_word s = Some r ->
  exists q, s = ":"%char :: q /\ starts_with_word q /\ r = take_while is_word q.
Proof.
  destruct s as [|c [|w t]]; simpl; try discriminate.
  - destruct c as [[] [] [] [] [] [] [] []]; discriminate.
  - destruct (Ascii.eqb_spec c ":"%char) as [->|Hc].
    + destruct (is_word w) eqn:Hw; [|discriminate].
      intros [= <-]. exists (w :: t). repeat split.
      * exists w, t. auto.
      * simpl. now rewrite Hw.
    + destruct c as [[] [] [] [] [] [] [] []]; try discriminate. now destruct Hc.
Qed.

Lemma colon_word_complete q :
  starts_with_word q -> colon_word (":"%char :: q) = Some (take_while is_word q).
Proof.
  intros (w & t & -> & Hw). simpl. now rewrite Hw.
Qed.

Lemma dots_then_tail_sound s e r :
  dots_then_tail s = Some (e, r) ->
  exists q, s = e ++ ":"%char :: q /\ no_terminator e /\ starts_with_word q
            /\ r = take_while is_word q.
Proof.
  revert e r. induction s as [|c t IH]; intros e r; [discriminate|].
  cbn [dots_then_tail].
  assert (Hhere : match colon_word (c :: t) with
                  | Some r0 => Some ([], r0) | None => None end = Some (e, r) ->
                  exists q, c :: t = e ++ ":"%char :: q /\ no_terminator e
                            /\ starts_with_word q /\ r = take_while is_word q).
  { destruct (colon_word (c :: t)) as [r0|] eqn:Hcw; [|discriminate].
    intros [= <- <-]. apply colon_word_some in Hcw as (q & Hq & Hw & ->).
    exists q. repeat split; auto. constructor. }
  destruct (is_line_terminator c) eqn:Hc; [exact Hhere|].
  destruct (dots_then_tail t) as [[e0 r0]|] eqn:Ht; [|exact Hhere].
  intros [= <- <-]. destruct (IH _ _ eq_refl) as (q & -> & Hn & Hw & ->).
  exists q. repeat split; auto. constructor; auto.
Qed.

Lemma dots_then_tail_longest s e' q' :
  s = e' ++ ":"%char :: q' -> no_terminator e' -> starts_with_word q' ->
  exists e r, dots_then_tail s = Some (e, r) /\ (length e' <= length e)%nat.
Proof.
  revert e'. induction s as [|c t IH]; intros e' Hs Hn Hw.
  - destruct e'; discriminate.
  - cbn [dots_then_tail]. destruct e' as [|c' e''].
    + simpl in Hs. injection Hs as -> ->.
      rewrite (colon_word_complete _ Hw).
      change (is_line_terminator ":"%char) with false. cbv iota.
      destruct (dots_then_tail q') as [[e0 r0]|]; eauto with lia.
      do 2 eexists. split; [reflexivity|]. simpl. lia.
    + simpl in Hs. injection Hs as <- ->. inversion Hn as [|? ? Hc Hn']; subst.
      rewrite Hc. destruct (IH e'' eq_refl Hn' Hw) as (e & r & -> & Hle).
      do 2 eexists. split; [reflexivity|]. simpl. lia.
Qed.

Lemma RE_RUNNER_chars_some s e r :
  RE_RUNNER_chars s = Some (e, r) <->
  exists q, colon_split s e q /\ r = take_while is_word q
            /\ forall e' q', colon_split s e' q' -> (length e' <= length e)%nat.
Proof.
  split.
  - destruct s as [|c t]; [discriminate|]. simpl.
    destruct (is_line_terminator c) eqn:Hc; [discriminate|].
    destruct (dots_then_tail t) as [[e0 r0]|] eqn:Ht; [|discriminate].
    intros [= <- <-]. destruct (dots_then_tail_sound _ _ _ Ht) as (q & -> & Hn & Hw & ->).
    exists q. split; [|split; [reflexivity|]].
    + split; [reflexivity|]. split; [discriminate|]. split; [constructor; auto|exact Hw].
    + intros e' q' (Hs & Hne & Hn' & Hw'). destruct e' as [|c' e'']; [congruence|].
      simpl in Hs. injection Hs as <- Hs. inversion Hn'; subst.
      destruct (dots_then_tail_longest _ _ _ Hs ltac:(assumption) Hw') as (e1 & r1 & He1 & Hle).
      rewrite Ht in He1. injection He1 as <- <-. simpl. lia.
  - intros (q & (Hs & Hne & Hn & Hw) & -> & Hmax).
    destruct e as [|c e0]; [congruence|]. subst s. simpl.
    inversion Hn as [|? ? Hc Hn0]; subst. rewrite Hc.
    destruct (dots_then_tail_longest _ _ _ eq_refl Hn0 Hw) as (e1 & r1 & He1 & Hle).
    rewrite He1. destruct (dots_then_tail_sound _ _ _ He1) as (q1 & Hs1 & Hn1 & Hw1 & ->).
    assert (Hsplit : colon_split (c :: e0 ++ ":"%char :: q) (c :: e1) q1).
    { split; [simpl; congruence|]. split; [discriminate|]. split; [constructor; auto|exact Hw1]. }
    specialize (Hmax _ _ Hsplit). simpl in Hmax.
    assert (Hlen : length e1 = length e0) by lia.
    assert (He : e1 = e0 /\ q1 = q).
    { clear -Hs1 Hlen. revert e0 Hs1 Hlen. induction e1 as [|a e1 IH]; intros [|b e0] Hs Hl;
        simpl in *; try discriminate.
      - injection Hs as ->. auto.
      - injection Hs as -> Hs. injection Hl as Hl. destruct (IH _ Hs Hl) as [-> ->]. auto. }
    destruct He as [-> ->]. reflexivity.
Qed.


Lemma length_list_ascii_of_string s :
  length (list_ascii_of_string s) = String.length s.
Proof. induction s; simpl; congruence. Qed.

Lemma list_ascii_of_string_inj s1 s2 :
  list_ascii_of_string s1 = list_ascii_of_string s2 -> s1 = s2.
Proof.
  intros H. rewrite <- (string_of_list_ascii_of_string s1), H.
  apply string_of_list_ascii_of_string.
Qed.

Lemma RE_RUNNER_some event name suffix :
  RE_RUNNER event = Some (name, suffix) <->
  exists rest, runner_split event name rest /\ suffix = word_prefix rest
    /\ forall name' rest', runner_split event name' rest' ->
         (String.length name' <= String.length name)%nat.
Proof.
  unfold RE_RUNNER, runner_split, word_prefix. split.
  - destruct (RE_RUNNER_chars (list_ascii_of_string event)) as [[e r]|] eqn:He; [|discriminate].
    intros [= <- <-]. apply RE_RUNNER_chars_some in He as (q & Hsplit & -> & Hmax).
    exists (string_of_list_ascii q).
    rewrite !list_ascii_of_string_of_list_ascii. split; [exact Hsplit|]. split; [reflexivity|].
    intros name' rest' Hs'. apply Hmax in Hs'.
    now rewrite <- !length_list_ascii_of_string, list_ascii_of_string_of_list_ascii.
  - intros (rest & Hsplit & -> & Hmax).
    assert (He : RE_RUNNER_chars (list_ascii_of_string event)
                 = Some (list_ascii_of_string name,
                         take_while is_word (list_ascii_of_string rest))).
    { apply RE_RUNNER_chars_some. exists (list_ascii_of_string rest).
      split; [exact Hsplit|]. split; [reflexivity|]. intros e' q' Hs'.
      specialize (Hmax (string_of_list_ascii e') (string_of_list_ascii q')).
      rewrite !list_ascii_of_string_of_list_ascii in Hmax. specialize (Hmax Hs').
      now rewrite <- !length_list_ascii_of_string, list_ascii_of_string_of_list_ascii in Hmax. }
    rewrite He. now rewrite string_of_list_ascii_of_string.
Qed.


Lemma list_ascii_of_string_app s1 s2 :
  list_ascii_of_string (s1 +:+ s2) = list_ascii_of_string s1 ++ list_ascii_of_string s2.
Proof. induction s1 as [|c s1 IH]; [reflexivity|]. simpl. now rewrite <- IH. Qed.




End RegexFacts.

(** ** The runners follow the snapshot *)

Section Refinement.

Variable call : callbacks.
Variables (h : nat) (handled : Z).

Lemma lookup_stamped candidate n st :
  heap (write_handler candidate (Handler.set_handled n) st) !! candidate
  = Handler.set_handled n <$> heap st !! candidate.
Proof. apply list_lookup_alter_eq. Qed.

(** The receiver read before the stamp is the one read after it. *)
Lemma invoke_this candidate hd args k st :
  heap st !! candidate = Some hd ->
  invoke call candidate (fun _ => Handler.context hd) handled args k st
  = invoke call candidate Handler.context handled args k st.
Proof.
  intros Hhd. unfold invoke. rewrite lookup_stamped, Hhd. reflexivity.
Qed.

Lemma invoke_ext candidate this args k k' st :
  (forall v st', k v st' = k' v st') ->
  invoke call candidate this handled args k st
  = invoke call candidate this handled args k' st.
Proof.
  intros Hk. unfold invoke.
  destruct (heap _ !! candidate) as [hd|]; [|reflexivity]. cbn [mbind option_bind].
  destruct (arg_list args) as [al|]; [|reflexivity].
  destruct (call _ _ al _) as [[v|e|e|] st']; try reflexivity.
  now rewrite Hk.
Qed.

Lemma next_over candidates args fuel : forall results count result skip st,
  (length candidates - count < fuel)%nat ->
  Emitter.next call fuel h candidates handled args results count result skip st
  = sequence_over call h handled args (drop count candidates)
      (if skip then results else results ++ [result]) st.
Proof.
  induction fuel as [|fuel IH]; intros results count result skip st Hfuel; [lia|].
  cbn [Emitter.next].
  destruct (candidates !! count) as [candidate|] eqn:Hc.
  - rewrite (drop_S _ _ _ Hc). cbn [sequence_over]. apply invoke_ext. intros v st'.
    apply lookup_lt_Some in Hc. rewrite IH by lia. reflexivity.
  - apply lookup_ge_None in Hc. rewrite drop_ge by lia. reflexivity.
Qed.
Lemma blocked_loop_spec candidates st fuel : forall count ctx,
  (length candidates - count < fuel)%nat ->
  match Hub.blocked_loop fuel candidates count ctx st with
  | None =>
      exists skipped a rest, drop count candidates = skipped ++ a :: rest
        /\ Forall (passed st) skipped /\ heap st !! a = None
  | Some (None, _, _) => Forall (passed st) (drop count candidates)
  | Some (Some c, ctx', count') =>
      exists skipped hd, drop count candidates = skipped ++ c :: drop count' candidates
        /\ Forall (passed st) skipped /\ heap st !! c = Some hd
        /\ blocked st hd = false /\ ctx' = Handler.context hd
        /\ (count < count')%nat
  end.
Proof.
  induction fuel as [|fuel IH]; intros count ctx Hfuel; [lia|].
  cbn [Hub.blocked_loop].
  destruct (candidates !! count) as [c|] eqn:Hc.
  - rewrite (drop_S _ _ _ Hc).
    destruct (heap st !! c) as [hd|] eqn:Hhd; cbn [mbind option_bind].
    + destruct (Handler.context hd) as [o|] eqn:Ho.
      * destruct (Regex.RE_PHASE (Hub.phase_of st o)) eqn:Hp.
        -- assert (Hpass : passed st c).
           { exists hd. split; [exact Hhd|]. unfold blocked. now rewrite Ho. }
           apply lookup_lt_Some in Hc.
           specialize (IH (S count) (Some o) ltac:(lia)).
           destruct (Hub.blocked_loop fuel candidates (S count) (Some o) st)
             as [[[[c'|] ctx'] count']|].
           ++ destruct IH as (skipped & hd' & Hd & Hs & Hhd' & Hb & Hctx & Hlt).
              exists (c :: skipped), hd'. rewrite Hd. repeat split; auto with lia.
           ++ constructor; auto.
           ++ destruct IH as (skipped & a & rest & Hd & Hs & Ha).
              exists (c :: skipped), a, rest. rewrite Hd. repeat split; auto.
        -- exists [], hd. repeat split; auto with lia.
           unfold blocked. now rewrite Ho.
      * exists [], hd. repeat split; auto with lia.
        unfold blocked. now rewrite Ho.
    + exists [], c, (drop (S count) candidates). repeat split; auto.
  - apply lookup_ge_None in Hc. rewrite drop_ge by lia. constructor.
Qed.

Lemma hub_sequence_over_passed args skipped rest results st :
  Forall (passed st) skipped ->
  hub_sequence_over call h handled args (skipped ++ rest) results st
  = hub_sequence_over call h handled args rest results st.
Proof.
  induction 1 as [|a skipped (hd & Hhd & Hb) _ IH]; [reflexivity|].
  cbn [app hub_sequence_over]. rewrite Hhd. cbn [mbind option_bind]. now rewrite Hb.
Qed.

Lemma pipeline_over_passed args skipped rest st :
  Forall (passed st) skipped ->
  pipeline_over call h handled args (skipped ++ rest) st
  = pipeline_over call h handled args rest st.
Proof.
  induction 1 as [|a skipped (hd & Hhd & Hb) _ IH]; [reflexivity|].
  cbn [app pipeline_over]. rewrite Hhd. cbn [mbind option_bind]. now rewrite Hb.
Qed.

Lemma sequence_next_over candidates args fuel : forall results count result skip st,
  (length candidates - count < fuel)%nat ->
  Hub.sequence_next call fuel h candidates handled args results count result skip st
  = hub_sequence_over call h handled args (drop count candidates)
      (if skip then results else results ++ [result]) st.
Proof.
  induction fuel as [|fuel IH]; intros results count result skip st Hfuel; [lia|].
  cbn [Hub.sequence_next].
  pose proof (blocked_loop_spec candidates st (S (length candidates)) count None
                ltac:(lia)) as Hloop.
  destruct (Hub.blocked_loop _ candidates count None st) as [[[[c|] ctx'] count']|];
    cbn [mbind option_bind].
  - destruct Hloop as (skipped & hd & Hd & Hs & Hhd & Hb & -> & Hlt).
    rewrite Hd, hub_sequence_over_passed by exact Hs.
    cbn [hub_sequence_over]. rewrite Hhd. cbn [mbind option_bind]. rewrite Hb.
    rewrite (invoke_this _ _ _ _ _ Hhd). apply invoke_ext. intros v st'.
    assert (count < length candidates)%nat.
    { destruct (decide (count < length candidates)%nat); [assumption|].
      rewrite drop_ge in Hd by lia. now destruct skipped. }
    rewrite IH by lia. reflexivity.
  - rewrite <- (app_nil_r (drop count candidates)).
    rewrite hub_sequence_over_passed by exact Hloop. reflexivity.
  - destruct Hloop as (skipped & a & rest & Hd & Hs & Ha).
    rewrite Hd, hub_sequence_over_passed by exact Hs.
    cbn [hub_sequence_over]. now rewrite Ha.
Qed.

Lemma pipeline_next_over candidates fuel : forall args count result st,
  (length candidates - count < fuel)%nat ->
  Hub.pipeline_next call fuel h candidates handled args count result st
  = pipeline_over call h handled (threaded args result) (drop count candidates) st.
Proof.
  induction fuel as [|fuel IH]; intros args count result st Hfuel; [lia|].
  cbn [Hub.pipeline_next]. fold (threaded args result).
  pose proof (blocked_loop_spec candidates st (S (length candidates)) count None
                ltac:(lia)) as Hloop.
  destruct (Hub.blocked_loop _ candidates count None st) as [[[[c|] ctx'] count']|];
    cbn [mbind option_bind].
  - destruct Hloop as (skipped & hd & Hd & Hs & Hhd & Hb & -> & Hlt).
    rewrite Hd, pipeline_over_passed by exact Hs.
    cbn [pipeline_over]. rewrite Hhd. cbn [mbind option_bind]. rewrite Hb.
    rewrite (invoke_this _ _ _ _ _ Hhd). apply invoke_ext. intros v st'.
    assert (count < length candidates)%nat.
    { destruct (decide (count < length candidates)%nat); [assumption|].
      rewrite drop_ge in Hd by lia. now destruct skipped. }
    rewrite IH by lia. reflexivity.
  - rewrite <- (app_nil_r (drop count candidates)).
    rewrite pipeline_over_passed by exact Hloop. reflexivity.
  - destruct Hloop as (skipped & a & rest & Hd & Hs & Ha).
    rewrite Hd, pipeline_over_passed by exact Hs.
    cbn [pipeline_over]. now rewrite Ha.
Qed.

(** The three runners are the structural ones over the whole snapshot. *)
Lemma sequence_is_over candidates args st :
  Emitter.sequence call h candidates handled args st
  = sequence_over call h handled args candidates [] st.
Proof. unfold Emitter.sequence. rewrite next_over by lia. now rewrite drop_0. Qed.

Lemma hub_sequence_is_over candidates args st :
  Hub.sequence call h candidates handled args st
  = hub_sequence_over call h handled args candidates [] st.
Proof. unfold Hub.sequence. rewrite sequence_next_over by lia. now rewrite drop_0. Qed.

Lemma pipeline_is_over candidates args st :
  Hub.pipeline call h candidates handled args st
  = pipeline_over call h handled args candidates st.
Proof.
  unfold Hub.pipeline. rewrite pipeline_next_over by lia. rewrite drop_0.
  now destruct args.
Qed.

End Refinement.

(** ** One turn of a runner *)

Section Turn.

Variable call : callbacks.

(** What a finished [invoke] has done. *)
Lemma invoke_inv candidate this handled args k st tr c st' :
  invoke call candidate this handled args k st = Some (tr, c, st') ->
  exists hd, heap st !! candidate = Some hd /\
    let st1 := write_handler candidate (Handler.set_handled handled) st in
    let hd1 := Handler.set_handled handled hd in
    (arg_list args = None /\ tr = [] /\ c = Thrown VTypeError /\ st' = st1)
    \/ exists al o st2,
         arg_list args = Some al
         /\ call (Handler.callback hd) (this hd1) al st1 = (o, st2)
         /\ let i := Invocation candidate (Handler.callback hd) (this hd1) al o in
            match o with
            | Returns v =>
                exists tr' c', k v st2 = Some (tr', c', st')
                  /\ tr = i :: tr' /\ c = Normal (chained c')
            | Throws e => tr = [i] /\ c = Thrown e /\ st' = st2
            | Rejects e => tr = [i] /\ c = Normal (Rejected e) /\ st' = st2
            | Pends => tr = [i] /\ c = Normal Pending /\ st' = st2
            end.
Proof.
  unfold invoke. rewrite lookup_stamped.
  destruct (heap st !! candidate) as [hd|]; [|discriminate].
  cbn [fmap option_fmap option_map mbind option_bind]. intros H. exists hd. split; [reflexivity|].
  cbv zeta. destruct (arg_list args) as [al|].
  - right. exists al.
    change (Handler.callback (Handler.set_handled handled hd)) with (Handler.callback hd) in H.
    destruct (call (Handler.callback hd) (this (Handler.set_handled handled hd)) al _)
      as [o st2] eqn:Hcall.
    exists o, st2. split; [reflexivity|]. split; [reflexivity|].
    destruct o as [v|e|e|].
    + destruct (k v st2) as [[[tr' c'] st'']|]; [|discriminate].
      cbn [mbind option_bind] in H. injection H as <- <- <-. eauto.
    + now injection H as <- <- <-.
    + now injection H as <- <- <-.
    + now injection H as <- <- <-.
  - left. now injection H as <- <- <-.
Qed.

End Turn.

(** ** The three runners as instances of one traversal *)

Section Instances.

Variable call : callbacks.
Variables (h : nat) (handled : Z).

Lemma sequence_over_run args rest : forall results st,
  sequence_over call h handled args rest results st
  = run_over call h handled (list value) (fun _ => args) (fun rs v => rs ++ [v])
      (fun _ => args) VArray skips_none results rest st.
Proof.
  induction rest as [|a rest IH]; intros results st; [reflexivity|].
  cbn [sequence_over run_over].
  destruct (heap st !! a) as [hd|] eqn:Hhd; cbn [mbind option_bind skips_none].
  - apply invoke_ext. intros v st'. apply IH.
  - unfold invoke. rewrite lookup_stamped, Hhd. reflexivity.
Qed.

Lemma hub_sequence_over_run args rest : forall results st,
  hub_sequence_over call h handled args rest results st
  = run_over call h handled (list value) (fun _ => args) (fun rs v => rs ++ [v])
      (fun _ => args) VArray blocked results rest st.
Proof.
  induction rest as [|a rest IH]; intros results st; [reflexivity|].
  cbn [hub_sequence_over run_over].
  destruct (heap st !! a) as [hd|]; [|reflexivity]. cbn [mbind option_bind].
  destruct (blocked st hd); [apply IH|].
  apply invoke_ext. intros v st'. apply IH.
Qed.

Lemma pipeline_over_run rest : forall args st,
  pipeline_over call h handled args rest st
  = run_over call h handled value (fun a => a) threaded (fun a => a) (fun a => a)
      blocked args rest st.
Proof.
  induction rest as [|a rest IH]; intros args st; [reflexivity|].
  cbn [pipeline_over run_over].
  destruct (heap st !! a) as [hd|]; [|reflexivity]. cbn [mbind option_bind].
  destruct (blocked st hd); [apply IH|].
  apply invoke_ext. intros v st'. apply IH.
Qed.

End Instances.

(** ** Stores along a run *)

Lemma extends_refl st : extends st st.
Proof. split; [eauto|lia]. Qed.

Lemma extends_trans st1 st2 st3 : extends st1 st2 -> extends st2 st3 -> extends st1 st3.
Proof.
  intros [H1 L1] [H2 L2]. split; [|lia]. intros a hd Hhd.
  destruct (H1 _ _ Hhd) as (hd2 & Hhd2 & Hc2 & Hx2).
  destruct (H2 _ _ Hhd2) as (hd3 & Hhd3 & Hc3 & Hx3).
  exists hd3. split; [assumption|]. split; congruence.
Qed.

Lemma extends_stamp a n st : extends st (write_handler a (Handler.set_handled n) st).
Proof.
  split; [|reflexivity]. intros b hd Hhd. cbn [write_handler set_heap heap].
  destruct (decide (a = b)) as [->|Hab].
  - rewrite list_lookup_alter_eq, Hhd. eauto.
  - rewrite list_lookup_alter_ne by assumption. eauto.
Qed.

Lemma extends_relink a n st : extends st (write_handler a (Handler.set_next n) st).
Proof.
  split; [|reflexivity]. intros b hd Hhd. cbn [write_handler set_heap heap].
  destruct (decide (a = b)) as [->|Hab].
  - rewrite list_lookup_alter_eq, Hhd. eauto.
  - rewrite list_lookup_alter_ne by assumption. eauto.
Qed.

Lemma extends_write_chain h f st : extends st (write_chain h f st).
Proof.
  split; [eauto|]. cbn [write_chain set_chains chains]. now rewrite length_alter.
Qed.

Lemma extends_valid st st' a :
  extends st st' -> (a < length (heap st))%nat -> (a < length (heap st'))%nat.
Proof.
  intros [H _] Ha. apply lookup_lt_is_Some in Ha as [hd Hhd].
  destruct (H _ _ Hhd) as (hd' & Hhd' & _). eapply lookup_lt_Some, Hhd'.
Qed.

Lemma peek_write_handler event a f st :
  Emitter.peek event (write_handler a f st) = Emitter.peek event st.
Proof. reflexivity. Qed.


(** A write to a chain object that leaves its counter alone leaves every
    epoch alone. *)
Lemma epoch_write_chain event h f st :
  (forall c, Handlers.handled (f c) = Handlers.handled c) ->
  epoch (write_chain h f st) event = epoch st event.
Proof.
  intros Hf. unfold epoch. cbn [write_chain set_chains chains handlers].
  destruct (handlers st !! event) as [h'|]; [|reflexivity]. cbn [mbind option_bind].
  destruct (decide (h = h')) as [->|Hh].
  - rewrite list_lookup_alter_eq. destruct (chains st !! h'); [|reflexivity].
    cbn. now rewrite Hf.
  - now rewrite list_lookup_alter_ne.
Qed.




Lemma epochs_kept_trans st1 st2 st3 :
  epochs_kept st1 st2 -> epochs_kept st2 st3 -> epochs_kept st1 st3.
Proof. intros H1 H2 event n Hn. now apply H2, H1. Qed.

Lemma epochs_kept_eq st st' : (forall event, epoch st' event = epoch st event) -> epochs_kept st st'.
Proof. intros H event n Hn. now rewrite H. Qed.

(** ** Properties of every run *)

Section Traversal.

Variable call : callbacks.
Variables (h : nat) (handled : Z).
Variable acc : Type.
Variable args_of : acc -> value.
Variable after : acc -> value -> acc.
Variable memory_of resolution_of : acc -> value.
Variable skips : store -> Handler.t -> bool.

Local Abbreviation run_over :=
  (run_over call h handled acc args_of after memory_of resolution_of skips).

(** With callbacks that keep the objects in place, a run over existing
    candidates finishes. *)
Lemma run_over_total : well_behaved call -> forall rest s st,
  (h < length (chains st))%nat ->
  Forall (fun a => (a < length (heap st))%nat) rest ->
  is_Some (run_over s rest st).
Proof.
  intros Hwb. induction rest as [|a rest IH]; intros s st Hh Hrest.
  - cbn [run_over]. unfold finish. apply lookup_lt_is_Some in Hh as [c ->]. eauto.
  - cbn [run_over]. inversion Hrest as [|? ? Ha Hrest']; subst.
    apply lookup_lt_is_Some in Ha as [hd Hhd]. rewrite Hhd. cbn [mbind option_bind].
    destruct (skips st hd); [now apply IH|].
    unfold invoke. rewrite lookup_stamped, Hhd. cbn.
    destruct (arg_list (args_of s)) as [al|]; [|eauto].
    destruct (call _ _ al _) as [o st2] eqn:Hcall.
    assert (Hext : extends st st2).
    { eapply extends_trans; [apply extends_stamp|].
      pose proof (Hwb (Handler.callback hd) (Handler.context hd) al
                    (write_handler a (Handler.set_handled handled) st)) as H.
      rewrite Hcall in H. exact H. }
    destruct o as [v|e|e|]; eauto.
    destruct (IH (after s v) st2) as [[[tr c] st'] ->]; eauto.
    + destruct Hext as [_ Hl]. lia.
    + eapply Forall_impl; [exact Hrest'|]. intros b Hb. eapply extends_valid; eauto.
Qed.

(** The two ways a run over a non-empty list starts. *)
Lemma run_over_cons_inv s a rest st tr c st' :
  run_over s (a :: rest) st = Some (tr, c, st') ->
  exists hd, heap st !! a = Some hd /\
    (skips st hd = true /\ run_over s rest st = Some (tr, c, st')
     \/ skips st hd = false
        /\ invoke call a Handler.context handled (args_of s)
             (fun v st => run_over (after s v) rest st) st = Some (tr, c, st')).
Proof.
  cbn [run_over]. destruct (heap st !! a) as [hd|]; [|discriminate].
  cbn [mbind option_bind]. intros H. exists hd. split; [reflexivity|].
  destruct (skips st hd); auto.
Qed.

Lemma run_over_nil_inv s st tr c st' :
  run_over s [] st = Some (tr, c, st') ->
  tr = [] /\ c = Normal (Resolved (resolution_of s))
  /\ st' = write_chain h (Handlers.set_memory (memory_of s)) st
  /\ (h < length (chains st))%nat.
Proof.
  cbn [run_over]. unfold finish. destruct (chains st !! h) eqn:Hc; [|discriminate].
  cbn [mbind option_bind]. intros [= <- <- <-]. repeat split.
  eapply lookup_lt_Some, Hc.
Qed.

(** A failure ends the run and reaches the caller. *)
Lemma run_over_surfaces rest : forall s st tr c st',
  run_over s rest st = Some (tr, c, st') -> surfaces tr c.
Proof.
  induction rest as [|a rest IH]; intros s st tr c st' Hrun.
  - apply run_over_nil_inv in Hrun as (-> & _). intros [|] ? ? ? ?; discriminate.
  - apply run_over_cons_inv in Hrun as (hd & Hhd & [[_ Hrun]|[_ Hrun]]); [eauto|].
    apply invoke_inv in Hrun as (hd' & _ & [(_ & -> & _)|(al & o & st2 & _ & _ & Ho)]).
    { intros [|] ? ? ? ?; discriminate. }
    cbv zeta in Ho. destruct o as [v|e|e|].
    + destruct Ho as (tr' & c' & Hk & -> & ->). apply IH in Hk.
      intros pre j post e Htr. destruct pre as [|i0 pre].
      * injection Htr as <- <-. split; discriminate.
      * injection Htr as _ Htr. destruct (Hk _ _ _ e Htr) as [Hrej Hthr].
        split; intros Ho.
        -- destruct (Hrej Ho) as [-> ->]. auto.
        -- destruct (Hthr Ho) as [-> ->]. split; [reflexivity|]. now destruct pre.
    + destruct Ho as (-> & -> & _). intros [|? [|]] j post e' Htr; try discriminate.
      injection Htr as <- <-. split; [discriminate|]. intros [= <-]. auto.
    + destruct Ho as (-> & -> & _). intros [|? [|]] j post e' Htr; try discriminate.
      injection Htr as <- <-. split; [|discriminate]. intros [= <-]. auto.
    + destruct Ho as (-> & -> & _). intros [|? [|]] j post e' Htr; try discriminate.
      injection Htr as <- <-. split; discriminate.
Qed.

(** A candidate is invoked only when the one invoked before has
    returned. *)
Lemma run_over_serial rest : forall s st tr c st',
  run_over s rest st = Some (tr, c, st') ->
  forall pre i post, tr = pre ++ i :: post -> post <> [] -> returned i.
Proof.
  induction rest as [|a rest IH]; intros s st tr c st' Hrun.
  - apply run_over_nil_inv in Hrun as (-> & _). intros [|] ? ? ?; discriminate.
  - apply run_over_cons_inv in Hrun as (hd & Hhd & [[_ Hrun]|[_ Hrun]]); [eauto|].
    apply invoke_inv in Hrun as (hd' & _ & [(_ & -> & _)|(al & o & st2 & _ & _ & Ho)]).
    { intros [|] ? ? ?; discriminate. }
    cbv zeta in Ho. destruct o as [v|e|e|].
    + destruct Ho as (tr' & c' & Hk & -> & ->).
      intros [|i0 pre] j post Htr Hpost.
      * injection Htr as <- <-. now exists v.
      * injection Htr as _ Htr. eapply IH; eauto.
    + destruct Ho as (-> & _). intros [|? [|]] j post Htr Hpost; try discriminate.
      injection Htr as <- <-. congruence.
    + destruct Ho as (-> & _). intros [|? [|]] j post Htr Hpost; try discriminate.
      injection Htr as <- <-. congruence.
    + destruct Ho as (-> & _). intros [|? [|]] j post Htr Hpost; try discriminate.
      injection Htr as <- <-. congruence.
Qed.

(** The store a run ends in: the stamps and the callbacks take it step
    by step to a store [st1]; the memory is written after that, and only
    when the run resolves. *)
Lemma run_over_steps (R : store -> store -> Prop) :
  (forall st, R st st) ->
  (forall st1 st2 st3, R st1 st2 -> R st2 st3 -> R st1 st3) ->
  (forall a st, R st (write_handler a (Handler.set_handled handled) st)) ->
  (forall f this al st, R st (call f this al st).2) ->
  forall rest s st tr c st',
    run_over s rest st = Some (tr, c, st') ->
    exists st1, R st st1 /\
      ((exists s', c = Normal (Resolved (resolution_of s'))
          /\ st' = write_chain h (Handlers.set_memory (memory_of s')) st1
          /\ (h < length (chains st1))%nat)
       \/ (forall v, c <> Normal (Resolved v)) /\ st' = st1).
Proof.
  intros Hrefl Htrans Hstamp Hcall.
  induction rest as [|a rest IH]; intros s st tr c st' Hrun.
  - apply run_over_nil_inv in Hrun as (-> & -> & -> & Hh). exists st. eauto 7.
  - apply run_over_cons_inv in Hrun as (hd & Hhd & [[_ Hrun]|[_ Hrun]]); [eauto|].
    apply invoke_inv in Hrun as (hd' & _ & [(_ & -> & -> & ->)|(al & o & st2 & _ & Hc & Ho)]).
    { eexists. split; [apply Hstamp|]. right. split; [discriminate|reflexivity]. }
    cbv zeta in Ho.
    assert (HR : R st st2).
    { eapply Htrans; [apply Hstamp|]. specialize (Hcall (Handler.callback hd')
        (Handler.context (Handler.set_handled handled hd')) al
        (write_handler a (Handler.set_handled handled) st)).
      rewrite Hc in Hcall. exact Hcall. }
    destruct o as [v|e|e|].
    + destruct Ho as (tr' & c' & Hk & -> & ->).
      destruct (IH _ _ _ _ _ Hk) as (st1 & HR1 & Hend). exists st1. split; [eauto|].
      destruct Hend as [(s' & -> & -> & Hh)|[Hc' ->]].
      * left. exists s'. auto.
      * right. split; [|reflexivity]. intros v' Hv'. destruct c' as [[]|]; try discriminate.
        injection Hv' as ->. now apply (Hc' v').
    + destruct Ho as (-> & -> & ->). exists st2. split; [assumption|]. right.
      split; [discriminate|reflexivity].
    + destruct Ho as (-> & -> & ->). exists st2. split; [assumption|]. right.
      split; [discriminate|reflexivity].
    + destruct Ho as (-> & -> & ->). exists st2. split; [assumption|]. right.
      split; [discriminate|reflexivity].
Qed.

End Traversal.

(** ** Which candidates a run invokes *)

Section Invoked.

Variable call : callbacks.
Variables (h : nat) (handled : Z).
Variable acc : Type.
Variable args_of : acc -> value.
Variable after : acc -> value -> acc.
Variable memory_of resolution_of : acc -> value.
Variable skips : store -> Handler.t -> bool.

Local Abbreviation run_over :=
  (run_over call h handled acc args_of after memory_of resolution_of skips).

(** [stays] relates a store to the stores that follow it in a run. *)
Variable stays : store -> store -> Prop.
Hypothesis stays_trans : forall st1 st2 st3, stays st1 st2 -> stays st2 st3 -> stays st1 st3.
Hypothesis stays_stamp : forall a st, stays st (write_handler a (Handler.set_handled handled) st).
Hypothesis stays_call : forall f this al st, stays st (call f this al st).2.
Hypothesis stays_extends : forall st st', stays st st' -> extends st st'.
Hypothesis stays_skips : forall st st' a hd hd',
  stays st st' -> heap st !! a = Some hd -> heap st' !! a = Some hd' ->
  skips st' hd' = skips st hd.

Lemma kept_stays st st' rest :
  stays st st' -> Forall (fun a => (a < length (heap st))%nat) rest ->
  List.filter (kept skips st') rest = List.filter (kept skips st) rest.
Proof.
  intros Hst Hrest. apply List.filter_ext_in. intros a Ha.
  rewrite Forall_forall in Hrest. apply list_elem_of_In, Hrest in Ha.
  apply lookup_lt_is_Some in Ha as [hd Hhd]. unfold kept. rewrite Hhd.
  destruct (stays_extends _ _ Hst) as [Hext _].
  destruct (Hext _ _ Hhd) as (hd' & Hhd' & _). rewrite Hhd'. f_equal. eauto.
Qed.

Lemma stays_after_call a hd al o st st2 :
  call (Handler.callback hd) (Handler.context (Handler.set_handled handled hd)) al
    (write_handler a (Handler.set_handled handled) st) = (o, st2) ->
  stays st st2.
Proof.
  intros Hc. eapply stays_trans; [apply stays_stamp|].
  pose proof (stays_call (Handler.callback hd)
                (Handler.context (Handler.set_handled handled hd)) al
                (write_handler a (Handler.set_handled handled) st)) as H.
  rewrite Hc in H. exact H.
Qed.

(** The invocations are those of the candidates that are not passed
    over, in the order of the snapshot, as far as the run gets. *)
Lemma run_over_prefix rest : forall s st tr c st',
  Forall (fun a => (a < length (heap st))%nat) rest ->
  run_over s rest st = Some (tr, c, st') ->
  map inv_handler tr `prefix_of` List.filter (kept skips st) rest.
Proof.
  induction rest as [|a rest IH]; intros s st tr c st' Hrest Hrun.
  - apply run_over_nil_inv in Hrun as (-> & _). apply prefix_nil.
  - inversion Hrest as [|? ? Ha Hrest']; subst.
    apply run_over_cons_inv in Hrun as (hd & Hhd & [[Hs Hrun]|[Hs Hrun]]).
    + cbn [List.filter]. unfold kept at 1. rewrite Hhd, Hs. cbn. eauto.
    + cbn [List.filter]. unfold kept at 1. rewrite Hhd, Hs. cbn.
      apply invoke_inv in Hrun as (hd' & Hhd' & [(_ & -> & _)|(al & o & st2 & _ & Hc & Ho)]).
      { apply prefix_nil. }
      cbv zeta in Ho. pose proof (stays_after_call _ _ _ _ _ _ Hc) as Hst.
      destruct o as [v|e|e|].
      * destruct Ho as (tr' & c' & Hk & -> & ->). cbn [map inv_handler].
        apply prefix_cons. rewrite <- (kept_stays _ _ _ Hst Hrest').
        eapply IH; [|exact Hk]. eapply Forall_impl; [exact Hrest'|].
        intros b Hb. eapply extends_valid; eauto.
      * destruct Ho as (-> & _). apply prefix_cons, prefix_nil.
      * destruct Ho as (-> & _). apply prefix_cons, prefix_nil.
      * destruct Ho as (-> & _). apply prefix_cons, prefix_nil.
Qed.

(** Each invocation applies the callback of its handler object to the
    context of that object. *)
Lemma run_over_bound rest : forall s st tr c st',
  Forall (fun a => (a < length (heap st))%nat) rest ->
  run_over s rest st = Some (tr, c, st') ->
  Forall (bound_in st) tr.
Proof.
  induction rest as [|a rest IH]; intros s st tr c st' Hrest Hrun.
  - apply run_over_nil_inv in Hrun as (-> & _). constructor.
  - inversion Hrest as [|? ? Ha Hrest']; subst.
    apply run_over_cons_inv in Hrun as (hd & Hhd & [[Hs Hrun]|[Hs Hrun]]); [eauto|].
    apply invoke_inv in Hrun as (hd' & Hhd' & [(_ & -> & _)|(al & o & st2 & _ & Hc & Ho)]).
    { constructor. }
    cbv zeta in Ho. pose proof (stays_after_call _ _ _ _ _ _ Hc) as Hst.
    assert (Hi : bound_in st (Invocation a (Handler.callback hd')
                   (Handler.context (Handler.set_handled handled hd')) al o)).
    { exists hd'. auto. }
    destruct o as [v|e|e|].
    + destruct Ho as (tr' & c' & Hk & -> & ->). constructor; [exact Hi|].
      assert (Hrest2 : Forall (fun a => (a < length (heap st2))%nat) rest).
      { eapply Forall_impl; [exact Hrest'|]. intros b Hb. eapply extends_valid; eauto. }
      pose proof (run_over_prefix _ _ _ _ _ _ Hrest2 Hk) as [k Hpre].
      pose proof (IH _ _ _ _ _ Hrest2 Hk) as Hb. rewrite Forall_forall in Hb |- *.
      intros i Hi'. destruct (Hb _ Hi') as (hd2 & Hhd2 & Hcb & Hctx).
      assert (Hin : inv_handler i ∈ rest).
      { assert (Hin' : In (inv_handler i) (List.filter (kept skips st2) rest)).
        { rewrite Hpre. apply in_or_app. left. apply in_map, list_elem_of_In, Hi'. }
        apply List.filter_In in Hin' as [Hin' _]. now apply list_elem_of_In. }
      rewrite Forall_forall in Hrest'. apply Hrest', lookup_lt_is_Some in Hin as [hd0 Hhd0].
      destruct (stays_extends _ _ Hst) as [Hext _].
      destruct (Hext _ _ Hhd0) as (hd2' & Hhd2' & Hcb' & Hctx').
      exists hd0. split; [exact Hhd0|]. split; congruence.
    + destruct Ho as (-> & _). repeat constructor. exact Hi.
    + destruct Ho as (-> & _). repeat constructor. exact Hi.
    + destruct Ho as (-> & _). repeat constructor. exact Hi.
Qed.

(** When the arguments never raise a [TypeError] and every invocation
    returns, all the candidates that are not passed over are invoked, the
    promise resolves and the memory is written. *)
Lemma run_over_finished :
  (forall s, is_Some (arg_list (args_of s))) ->
  forall rest s st tr c st',
  Forall (fun a => (a < length (heap st))%nat) rest ->
  run_over s rest st = Some (tr, c, st') ->
  Forall returned tr ->
  map inv_handler tr = List.filter (kept skips st) rest
  /\ c = Normal (Resolved (resolution_of (after_all after s (returned_values tr))))
  /\ memory_at st' h = Some (Some (memory_of (after_all after s (returned_values tr)))).
Proof.
  intros Hargs.
  induction rest as [|a rest IH]; intros s st tr c st' Hrest Hrun Hret.
  - apply run_over_nil_inv in Hrun as (-> & -> & -> & Hh). repeat split.
    unfold memory_at. cbn [write_chain set_chains chains].
    rewrite list_lookup_alter_eq. apply lookup_lt_is_Some in Hh as [c0 ->]. reflexivity.
  - inversion Hrest as [|? ? Ha Hrest']; subst.
    apply run_over_cons_inv in Hrun as (hd & Hhd & [[Hs Hrun]|[Hs Hrun]]).
    + cbn [List.filter]. unfold kept at 1. rewrite Hhd, Hs. cbn. eauto.
    + cbn [List.filter]. unfold kept at 1. rewrite Hhd, Hs. cbn.
      apply invoke_inv in Hrun as (hd' & Hhd' & [(Hnone & _)|(al & o & st2 & _ & Hc & Ho)]).
      { destruct (Hargs s) as [al Hal]. congruence. }
      cbv zeta in Ho. pose proof (stays_after_call _ _ _ _ _ _ Hc) as Hst.
      destruct o as [v|e|e|].
      * destruct Ho as (tr' & c' & Hk & -> & ->). inversion Hret as [|? ? _ Hret']; subst.
        assert (Hrest2 : Forall (fun a => (a < length (heap st2))%nat) rest).
        { eapply Forall_impl; [exact Hrest'|]. intros b Hb. eapply extends_valid; eauto. }
        destruct (IH _ _ _ _ _ Hrest2 Hk Hret') as (Htr & -> & Hmem).
        cbn [map inv_handler returned_values omap inv_outcome].
        rewrite Htr, (kept_stays _ _ _ Hst Hrest'). auto.
      * destruct Ho as (-> & _). inversion Hret as [|? ? [v Hv] _]; discriminate.
      * destruct Ho as (-> & _). inversion Hret as [|? ? [v Hv] _]; discriminate.
      * destruct Ho as (-> & _). inversion Hret as [|? ? [v Hv] _]; discriminate.
Qed.

(** When a returned value never changes the arguments, every invocation
    receives the same ones. *)
Lemma run_over_same_args :
  (forall s v, args_of (after s v) = args_of s) ->
  forall rest s st tr c st',
  run_over s rest st = Some (tr, c, st') ->
  Forall (fun i => arg_list (args_of s) = Some (inv_args i)) tr.
Proof.
  intros Hsame.
  induction rest as [|a rest IH]; intros s st tr c st' Hrun.
  - apply run_over_nil_inv in Hrun as (-> & _). constructor.
  - apply run_over_cons_inv in Hrun as (hd & Hhd & [[Hs Hrun]|[Hs Hrun]]); [eauto|].
    apply invoke_inv in Hrun as (hd' & Hhd' & [(_ & -> & _)|(al & o & st2 & Hal & Hc & Ho)]).
    { constructor. }
    cbv zeta in Ho. destruct o as [v|e|e|].
    + destruct Ho as (tr' & c' & Hk & -> & ->). constructor; [exact Hal|].
      rewrite <- (Hsame s v). eauto.
    + destruct Ho as (-> & _). repeat constructor. exact Hal.
    + destruct Ho as (-> & _). repeat constructor. exact Hal.
    + destruct Ho as (-> & _). repeat constructor. exact Hal.
Qed.

(** A resolved run has invoked every candidate that is not passed over,
    and each has returned. *)
Lemma run_over_resolved rest : forall s st tr c st' v,
  Forall (fun a => (a < length (heap st))%nat) rest ->
  run_over s rest st = Some (tr, c, st') ->
  c = Normal (Resolved v) ->
  map inv_handler tr = List.filter (kept skips st) rest
  /\ Forall returned tr
  /\ v = resolution_of (after_all after s (returned_values tr)).
Proof.
  induction rest as [|a rest IH]; intros s st tr c st' v Hrest Hrun Hc.
  - apply run_over_nil_inv in Hrun as (-> & -> & _). injection Hc as <-. auto.
  - inversion Hrest as [|? ? Ha Hrest']; subst.
    apply run_over_cons_inv in Hrun as (hd & Hhd & [[Hs Hrun]|[Hs Hrun]]).
    + cbn [List.filter]. unfold kept at 1. rewrite Hhd, Hs. cbn. eauto.
    + cbn [List.filter]. unfold kept at 1. rewrite Hhd, Hs. cbn.
      apply invoke_inv in Hrun as (hd' & Hhd' & [(_ & _ & Hc' & _)|(al & o & st2 & _ & Hcall & Ho)]).
      { discriminate. }
      cbv zeta in Ho. pose proof (stays_after_call _ _ _ _ _ _ Hcall) as Hst.
      destruct o as [v0|e|e|].
      * destruct Ho as (tr' & c' & Hk & -> & Hc').
        assert (Hc'' : c' = Normal (Resolved v)).
        { destruct c' as [[]|]; try discriminate. now injection Hc' as ->. }
        assert (Hrest2 : Forall (fun a => (a < length (heap st2))%nat) rest).
        { eapply Forall_impl; [exact Hrest'|]. intros b Hb. eapply extends_valid; eauto. }
        destruct (IH _ _ _ _ _ _ Hrest2 Hk Hc'') as (Htr & Hret & ->).
        cbn [map inv_handler returned_values omap inv_outcome].
        rewrite Htr, (kept_stays _ _ _ Hst Hrest'). split; [reflexivity|].
        split; [|reflexivity]. constructor; [now exists v0|exact Hret].
      * destruct Ho as (_ & Hc' & _). discriminate.
      * destruct Ho as (_ & Hc' & _). discriminate.
      * destruct Ho as (_ & Hc' & _). discriminate.
Qed.

(** With callbacks that leave stamps alone, a handler that is passed over
    keeps its stamp. *)
Lemma run_over_skipped_untouched : keeps_stamps call -> forall rest s st tr c st',
  run_over s rest st = Some (tr, c, st') ->
  forall a hd, heap st !! a = Some hd -> skips st hd = true ->
    exists hd', heap st' !! a = Some hd' /\ Handler.handled hd' = Handler.handled hd.
Proof.
  intros Hkeep. induction rest as [|b rest IH]; intros s st tr c st' Hrun a hd Ha Hskip.
  - apply run_over_nil_inv in Hrun as (_ & _ & -> & _). eauto.
  - apply run_over_cons_inv in Hrun as (hdb & Hhdb & [[Hs Hrun]|[Hs Hrun]]); [eauto|].
    assert (Hab : b <> a) by (intros ->; congruence).
    assert (Ha1 : heap (write_handler b (Handler.set_handled handled) st) !! a = Some hd).
    { cbn [write_handler set_heap heap]. now rewrite list_lookup_alter_ne. }
    apply invoke_inv in Hrun as (hd' & Hhd' & [(_ & _ & _ & ->)|(al & o & st2 & _ & Hcall & Ho)]).
    { eauto. }
    cbv zeta in Ho. pose proof (stays_after_call _ _ _ _ _ _ Hcall) as Hst.
    pose proof (Hkeep (Handler.callback hd')
                  (Handler.context (Handler.set_handled handled hd')) al _ _ _ Ha1) as Hk.
    rewrite Hcall in Hk. destruct Hk as (hd2 & Ha2 & Hh2).
    destruct o as [v|e|e|].
    + destruct Ho as (tr' & c' & Hk & -> & ->).
      destruct (IH _ _ _ _ _ Hk a hd2 Ha2) as (hd3 & Ha3 & Hh3).
      * rewrite (stays_skips _ _ _ _ _ Hst Ha Ha2). exact Hskip.
      * exists hd3. split; [exact Ha3|congruence].
    + destruct Ho as (_ & _ & ->). eauto.
    + destruct Ho as (_ & _ & ->). eauto.
    + destruct Ho as (_ & _ & ->). eauto.
Qed.

End Invoked.

(** ** Chains of handler objects *)

Lemma linked_functional hp first l1 : forall l2,
  linked hp first l1 -> linked hp first l2 -> l1 = l2.
Proof.
  intros l2 H1. revert l2. induction H1 as [|a hd l Hhd _ IH]; intros l2 H2.
  - now inversion H2.
  - inversion H2 as [|? hd' l' Hhd' Hl']; subst. f_equal. apply IH. congruence.
Qed.

Lemma linked_suffix hp l1 : forall first a l2,
  linked hp first (l1 ++ a :: l2) -> linked hp (Some a) (a :: l2).
Proof.
  induction l1 as [|b l1 IH]; intros first a l2 H; inversion H; subst.
  - econstructor; eauto.
  - eauto.
Qed.

Lemma linked_valid hp first l :
  linked hp first l -> Forall (fun a => (a < length hp)%nat) l.
Proof.
  induction 1 as [|a hd l Hhd _ IH]; constructor; [|assumption].
  eapply lookup_lt_Some, Hhd.
Qed.

Lemma linked_NoDup hp first l : linked hp first l -> NoDup l.
Proof.
  induction 1 as [|a hd l Hhd Hl IH]; constructor; [|assumption].
  intros Hin. apply list_elem_of_split in Hin as (l1 & l2 & ->).
  pose proof (linked_suffix _ _ _ _ _ Hl) as Ha.
  inversion Ha as [|? hd' ? Hhd' Hl2]; subst.
  assert (hd' = hd) as -> by congruence.
  pose proof (linked_functional _ _ _ _ Hl Hl2) as Heq.
  apply (f_equal length) in Heq. rewrite length_app in Heq. cbn in Heq. lia.
Qed.

(** A chain has at most as many handlers as the heap has objects. *)
Lemma linked_length hp first l : linked hp first l -> (length l <= length hp)%nat.
Proof.
  intros H. rewrite <- (length_seq (length hp) 0%nat). apply submseteq_length.
  apply NoDup_submseteq; [eapply linked_NoDup, H|].
  intros a Ha. apply elem_of_seq. pose proof (linked_valid _ _ _ H) as Hv.
  rewrite Forall_forall in Hv. specialize (Hv _ Ha). lia.
Qed.

(** A chain stays one when the [next] of its handlers is left alone. *)
Lemma linked_frame hp hp' first l :
  linked hp first l ->
  (forall a hd, a ∈ l -> hp !! a = Some hd ->
     exists hd', hp' !! a = Some hd' /\ Handler.next hd' = Handler.next hd) ->
  linked hp' first l.
Proof.
  induction 1 as [|a hd l Hhd _ IH]; intros Hsame; [constructor|].
  destruct (Hsame a hd ltac:(left) Hhd) as (hd' & Hhd' & Hn).
  econstructor; [exact Hhd'|]. rewrite Hn. apply IH.
  intros b hdb Hb. apply Hsame. now right.
Qed.

Lemma linked_head_None hp l : linked hp None l -> l = [].
Proof. now inversion 1. Qed.

Lemma linked_nil_head hp first : linked hp first [] -> first = None.
Proof. now inversion 1. Qed.

(** The loop of [emit] collects the chain. *)
Lemma emit_loop_linked hp : forall l fuel a candidates,
  linked hp (Some a) l -> (length l <= fuel)%nat ->
  Emitter.emit_loop fuel hp a candidates = Some (candidates ++ l).
Proof.
  induction l as [|b l IH]; intros fuel a candidates Hl Hfuel; [inversion Hl|].
  inversion Hl as [|? hd ? Hhd Hnext]; subst.
  destruct fuel as [|fuel]; [cbn in Hfuel; lia|]. cbn [Emitter.emit_loop].
  rewrite Hhd. cbn [mbind option_bind].
  destruct (Handler.next hd) as [n|].
  - rewrite (IH fuel n) by (auto; cbn in Hfuel; lia).
    now rewrite <- app_assoc.
  - apply linked_head_None in Hnext as ->. reflexivity.
Qed.

(** The three tests of [reemit] let through the handlers to replay. *)
Lemma reemit_tests senile context callback handled hd :
  (if Emitter.context_differs context hd then false
   else if Emitter.callback_differs callback hd then false
   else if bool_decide (Handler.handled hd = Some handled) && negb senile then false
   else true)
  = selected context callback hd
    && (negb (bool_decide (Handler.handled hd = Some handled)) || senile).
Proof.
  unfold Emitter.context_differs, Emitter.callback_differs, selected.
  destruct context as [c|], callback as [f|]; cbn;
    repeat case_bool_decide; destruct senile; cbn; congruence.
Qed.

Lemma off_tests context callback hd :
  Emitter.context_differs context hd || Emitter.callback_differs callback hd
  = negb (selected context callback hd).
Proof.
  unfold Emitter.context_differs, Emitter.callback_differs, selected.
  destruct context as [c|], callback as [f|]; cbn;
    repeat case_bool_decide; cbn; congruence.
Qed.


(** ** The relinking done by [off] *)

Lemma relinked_refl hp : relinked hp hp.
Proof. split; [reflexivity|]. eauto 6. Qed.

Lemma relinked_trans hp1 hp2 hp3 : relinked hp1 hp2 -> relinked hp2 hp3 -> relinked hp1 hp3.
Proof.
  intros [L1 H1] [L2 H2]. split; [congruence|]. intros a hd Hhd.
  destruct (H1 _ _ Hhd) as (hd2 & Hhd2 & ? & ? & ?).
  destruct (H2 _ _ Hhd2) as (hd3 & Hhd3 & ? & ? & ?).
  exists hd3. repeat split; congruence.
Qed.

Lemma relinked_set_next hp t n : relinked hp (alter (Handler.set_next n) t hp).
Proof.
  split; [apply length_alter|]. intros a hd Hhd.
  destruct (decide (t = a)) as [->|Hta].
  - rewrite list_lookup_alter_eq, Hhd. eexists. split; [reflexivity|]. auto.
  - rewrite list_lookup_alter_ne by assumption. eauto 6.
Qed.

Lemma relinked_lookup hp hp' a hd' :
  relinked hp hp' -> hp' !! a = Some hd' ->
  exists hd, hp !! a = Some hd
    /\ Handler.callback hd' = Handler.callback hd
    /\ Handler.context hd' = Handler.context hd
    /\ Handler.handled hd' = Handler.handled hd.
Proof.
  intros [Hlen H] Hhd'. assert (Ha : (a < length hp)%nat).
  { rewrite <- Hlen. eapply lookup_lt_Some, Hhd'. }
  apply lookup_lt_is_Some in Ha as [hd Hhd]. exists hd. split; [assumption|].
  destruct (H _ _ Hhd) as (hd2 & Hhd2 & ? & ? & ?). assert (hd2 = hd') as -> by congruence.
  auto.
Qed.

Lemma selected_relinked context callback hd hd' :
  Handler.callback hd' = Handler.callback hd -> Handler.context hd' = Handler.context hd ->
  selected context callback hd' = selected context callback hd.
Proof. unfold selected. now intros -> ->. Qed.

Lemma segment_snoc hp surv t a :
  segment hp surv -> last surv = Some t -> NoDup surv -> a ∉ surv ->
  is_Some (hp !! a) ->
  segment (alter (Handler.set_next (Some a)) t hp) (surv ++ [a]).
Proof.
  intros Hseg. revert t. induction Hseg as [|x hd Hhd|x hd b l Hhd Hn Hseg IH];
    intros t Hlast Hnd Ha [hda Hhda].
  - discriminate.
  - injection Hlast as ->. cbn [app].
    assert (Hta : t <> a) by (intros ->; apply Ha; now left).
    eapply segment_cons.
    + rewrite list_lookup_alter_eq, Hhd. reflexivity.
    + reflexivity.
    + eapply segment_one. rewrite list_lookup_alter_ne by assumption. exact Hhda.
  - change (last (x :: b :: l)) with (last (b :: l)) in Hlast.
    inversion Hnd as [|? ? Hx Hnd']; subst.
    assert (Htx : t <> x).
    { intros ->. apply Hx. eapply last_Some_elem_of, Hlast. }
    cbn [app]. eapply segment_cons.
    + rewrite list_lookup_alter_ne by assumption. exact Hhd.
    + exact Hn.
    + apply IH; eauto. intros Hin. apply Ha. now right.
Qed.

Lemma segment_close hp surv t :
  segment hp surv -> last surv = Some t -> NoDup surv ->
  linked (alter (Handler.set_next None) t hp) (head surv) surv.
Proof.
  intros Hseg. revert t. induction Hseg as [|x hd Hhd|x hd b l Hhd Hn Hseg IH];
    intros t Hlast Hnd.
  - discriminate.
  - injection Hlast as ->. cbn [head]. econstructor.
    + rewrite list_lookup_alter_eq, Hhd. reflexivity.
    + constructor.
  - change (last (x :: b :: l)) with (last (b :: l)) in Hlast.
    inversion Hnd as [|? ? Hx Hnd']; subst.
    assert (Htx : t <> x).
    { intros ->. apply Hx. eapply last_Some_elem_of, Hlast. }
    cbn [head]. econstructor.
    + rewrite list_lookup_alter_ne by assumption. exact Hhd.
    + rewrite Hn. apply (IH t Hlast Hnd').
Qed.

Lemma head_app_ne {A} (l k : list A) : l <> [] -> head (l ++ k) = head l.
Proof. now destruct l. Qed.

Lemma head_is_None {A} (l : list A) : head l = None -> l = [].
Proof. now destruct l. Qed.

(** The loop of [off]: [surv] are the handlers linked behind [head] so
    far; the loop links the survivors among the rest of the chain behind
    them. *)
Lemma off_loop_spec context callback hp0 : forall rest fuel hp a surv,
  linked hp (Some a) (a :: rest) ->
  segment hp surv ->
  NoDup (surv ++ a :: rest) ->
  relinked hp0 hp ->
  (length (a :: rest) <= fuel)%nat ->
  let surv' := surv ++ List.filter (survives context callback hp0) (a :: rest) in
  exists hp',
    Emitter.off_loop fuel context callback hp a (head surv) (last surv)
    = Some (hp', head surv', last surv')
    /\ segment hp' surv' /\ relinked hp0 hp'.
Proof.
  induction rest as [|b rest IH]; intros fuel hp a surv Hl Hseg Hnd Hre Hfuel surv'.
  all: destruct fuel as [|fuel]; [cbn in Hfuel; lia|].
  all: inversion Hl as [|? hd ? Hhd Hnext]; subst.
  all: destruct (relinked_lookup _ _ _ _ Hre Hhd) as (hd0 & Hhd0 & Hcb & Hctx & _).
  all: assert (Hkeep : survives context callback hp0 a
                       = (Emitter.context_differs context hd
                          || Emitter.callback_differs callback hd)).
  all: try (unfold survives; rewrite Hhd0, off_tests; f_equal;
            symmetry; now apply selected_relinked).
  all: assert (Ha : a ∉ surv).
  all: try (intros Hin; apply NoDup_app in Hnd as (_ & Hdis & _);
            apply (Hdis _ Hin); now left).
  all: cbn [Emitter.off_loop]; rewrite Hhd; cbn [mbind option_bind].
  all: subst surv'; cbn [List.filter]; rewrite Hkeep.
  all: destruct (Emitter.context_differs context hd || Emitter.callback_differs callback hd).
  - (* last handler, kept *)
    apply linked_nil_head in Hnext as Hn.
    destruct (head surv) as [s0|] eqn:Hhead.
    + assert (Hne : surv <> []) by (intros ->; discriminate).
      destruct (last surv) as [t|] eqn:Hlast; [|apply last_None in Hlast; contradiction].
      cbn [mbind option_bind].
      assert (Hta : t <> a).
      { intros ->. apply Ha. eapply last_Some_elem_of, Hlast. }
      rewrite list_lookup_alter_ne by assumption. rewrite Hhd. cbn [mbind option_bind].
      rewrite Hn. rewrite last_snoc, head_app_ne, Hhead by assumption.
      eexists. split; [reflexivity|]. split.
      * apply segment_snoc; eauto. apply NoDup_app in Hnd. tauto.
      * eapply relinked_trans; [exact Hre|apply relinked_set_next].
    + apply head_is_None in Hhead as ->.
      cbn [mbind option_bind]. rewrite Hhd. cbn [mbind option_bind]. rewrite Hn.
      exists hp. split; [reflexivity|]. split; [|assumption]. eapply segment_one; eauto.
  - (* last handler, removed *)
    cbn [mbind option_bind]. rewrite Hhd. cbn [mbind option_bind].
    apply linked_nil_head in Hnext as Hn. rewrite Hn.
    rewrite app_nil_r. eauto.
  - (* kept, more to come *)
    inversion Hnext as [|? hdb ? Hhdb Hnext' Hn]; subst.
    destruct (head surv) as [s0|] eqn:Hhead.
    + assert (Hne : surv <> []) by (intros ->; discriminate).
      destruct (last surv) as [t|] eqn:Hlast; [|apply last_None in Hlast; contradiction].
      cbn [mbind option_bind].
      assert (Hta : t <> a).
      { intros ->. apply Ha. eapply last_Some_elem_of, Hlast. }
      assert (Htin : t ∈ surv) by (eapply last_Some_elem_of, Hlast).
      rewrite list_lookup_alter_ne by assumption. rewrite Hhd. cbn [mbind option_bind].
      rewrite <- Hn.
      destruct (IH fuel (alter (Handler.set_next (Some a)) t hp) b (surv ++ [a]))
        as (hp' & Hloop & Hseg' & Hre').
      * eapply linked_frame; [econstructor; eauto|]. intros x hdx Hx Hhdx.
        assert (Htx : t <> x).
        { intros ->. apply NoDup_app in Hnd as (_ & Hdis & _).
          apply (Hdis _ Htin). now right. }
        rewrite list_lookup_alter_ne by assumption. eauto.
      * apply segment_snoc; eauto. apply NoDup_app in Hnd. tauto.
      * now rewrite <- app_assoc.
      * eapply relinked_trans; [exact Hre|apply relinked_set_next].
      * cbn in Hfuel |- *. lia.
      * rewrite last_snoc, head_app_ne, Hhead in Hloop by assumption.
        rewrite <- app_assoc in Hloop, Hseg'. exists hp'. auto.
    + apply head_is_None in Hhead as ->.
      cbn [mbind option_bind]. rewrite Hhd. cbn [mbind option_bind]. rewrite <- Hn.
      destruct (IH fuel hp b [a]) as (hp' & Hloop & Hseg' & Hre');
        [econstructor; eauto | eapply segment_one; eauto | exact Hnd | assumption
        | cbn in Hfuel |- *; lia | ].
      exists hp'. auto.
  - (* removed, more to come *)
    inversion Hnext as [|? hdb ? Hhdb Hnext' Hn]; subst.
    cbn [mbind option_bind]. rewrite Hhd. cbn [mbind option_bind]. rewrite <- Hn.
    destruct (IH fuel hp b surv) as (hp' & Hloop & Hseg' & Hre');
      [econstructor; eauto | assumption | | assumption | cbn in Hfuel |- *; lia | ].
    + apply NoDup_app in Hnd as (H1 & H2 & H3). apply NoDup_app.
      split; [assumption|]. inversion H3; subst. split; [|assumption].
      intros x Hx Hin. apply (H2 _ Hx). now right.
    + exists hp'. auto.
Qed.

(** ** Removing handlers *)

(** C8. [off] removes from the chain of [event] exactly the handlers
    whose context is the given one (or any, when none is given) and whose
    callback is the given one (or any, when none is given); the others
    stay linked in the order they had; when none stays, [head] and [tail]
    are cleared; in every case the [handlers] object stays registered
    with its epoch and memory, the handler objects keep their callback,
    context and stamp, [off] on an event that is not registered changes
    nothing, and [off] returns the emitter. *)
Theorem off_removes_the_selected event context callback st :
  (handlers st !! event = None ->
   Emitter.off event context callback st = Some (Emitter.Me, st))
  /\ forall h c l,
       handlers st !! event = Some h -> chains st !! h = Some c ->
       chain_of (heap st) c l ->
       let survivors := List.filter (survives context callback (heap st)) l in
       exists st' c',
         Emitter.off event context callback st = Some (Emitter.Me, st')
         /\ handlers st' = handlers st
         /\ chains st' !! h = Some c'
         /\ (forall h', h' <> h -> chains st' !! h' = chains st !! h')
         /\ Handlers.handled c' = Handlers.handled c
         /\ Handlers.memory c' = Handlers.memory c
         /\ chain_of (heap st') c' survivors
         /\ (survivors = [] -> Handlers.head c' = None /\ Handlers.tail c' = None)
         /\ relinked (heap st) (heap st').
Proof.
  split.
  { intros Hnone. unfold Emitter.off. now rewrite Hnone. }
  intros h c l Hh Hc [Hl Htail] survivors. unfold Emitter.off. rewrite Hh, Hc.
  cbn [mbind option_bind].
  destruct (Handlers.head c) as [a|] eqn:Hhead.
  - inversion Hl as [|? hd rest Hhd Hnext]; subst.
    destruct (off_loop_spec context callback (heap st) rest (length (heap st))
                (heap st) a []) as (hp' & Hloop & Hseg & Hre).
    + exact Hl.
    + constructor.
    + eapply linked_NoDup, Hl.
    + apply relinked_refl.
    + eapply linked_length, Hl.
    + cbn [head last] in Hloop. rewrite Hloop. cbn [mbind option_bind app] in *.
      fold survivors in Hloop, Hseg |- *.
      destruct survivors as [|x surv] eqn:Hsurv.
      * cbn [head last]. eexists. eexists. split; [reflexivity|].
        cbn [write_chain set_chains set_heap handlers chains heap].
        rewrite list_lookup_alter_eq, Hc.
        split; [reflexivity|]. split; [reflexivity|].
        split; [intros h' Hh'; now rewrite list_lookup_alter_ne|].
        split; [reflexivity|]. split; [reflexivity|].
        split; [split; [constructor|reflexivity]|].
        split; [auto|exact Hre].
      * destruct (last (x :: surv)) as [t|] eqn:Hlast;
          [|apply last_None in Hlast; discriminate].
        cbn [head]. eexists. eexists. split; [reflexivity|].
        cbn [write_handler write_chain set_chains set_heap handlers chains heap].
        rewrite list_lookup_alter_eq, Hc.
        split; [reflexivity|]. split; [reflexivity|].
        split; [intros h' Hh'; now rewrite list_lookup_alter_ne|].
        split; [reflexivity|]. split; [reflexivity|].
        split; [|split; [discriminate|]].
        -- split; [|now rewrite Hlast].
           apply (segment_close hp' (x :: surv) t Hseg Hlast).
           rewrite <- Hsurv. apply NoDup_ListNoDup, List.NoDup_filter, NoDup_ListNoDup.
           eapply linked_NoDup, Hl.
        -- eapply relinked_trans; [exact Hre|apply relinked_set_next].
  - apply linked_head_None in Hl as Hnil. subst l. subst survivors. cbn [List.filter].
    exists st, c. split; [reflexivity|]. split; [reflexivity|]. split; [assumption|].
    split; [reflexivity|]. split; [reflexivity|]. split; [reflexivity|].
    split; [split; [rewrite Hhead; constructor|assumption]|].
    split; [auto|apply relinked_refl].
Qed.

(** ** Selecting the runner *)

Lemma lookup_snoc {A} (l : list A) (x : A) : (l ++ [x]) !! length l = Some x.
Proof. induction l as [|y l IH]; [reflexivity|exact IH]. Qed.



Lemma publish_is_emit call event args st :
  Hub.publish call event args st = Emitter.emit (Hub.runners call) event args st.
Proof. reflexivity. Qed.



Lemma select_runner_default runners event :
  Regex.RE_RUNNER event = None ->
  Emitter.select_runner runners event = inr (event, runners !! Emitter.DEFAULT).
Proof. intros He. unfold Emitter.select_runner. now rewrite He. Qed.

(** The entries of the emitter's table are all [sequence]. *)
Lemma emitter_runners_lookup call name r :
  Emitter.runners call !! name = Some r -> r = Emitter.sequence call.
Proof.
  unfold Emitter.runners, Emitter.DEFAULT.
  rewrite !lookup_insert, lookup_empty. repeat case_decide; try discriminate.
  - now intros [= <-].
  - now intros [= <-].
Qed.

Lemma emitter_runners_known call : known_runners call (Emitter.runners call).
Proof. intros name r Hr. left. eapply emitter_runners_lookup, Hr. Qed.

(** The entries of the hub's table are the hub's two runners. *)
Lemma hub_runners_known call : known_runners call (Hub.runners call).
Proof.
  intros name r. unfold Hub.runners, Hub.merge, Emitter.runners, Emitter.DEFAULT.
  rewrite lookup_union, !lookup_insert.
  repeat case_decide; subst; try discriminate; cbn; intros [= <-];
    unfold known_runner; auto.
Qed.


(** ** The operations keep the objects in place *)

Lemma extends_grow st hd : extends st (set_heap (heap st ++ [hd]) st).
Proof.
  split; [|reflexivity]. intros a hd0 Ha. exists hd0. cbn [set_heap heap].
  rewrite lookup_app_l by (eapply lookup_lt_Some, Ha). auto.
Qed.

Lemma extends_register st event h c :
  extends st (set_chains (chains st ++ [c]) (set_handlers (<[event := h]> (handlers st)) st)).
Proof.
  split; [eauto|]. cbn [set_chains set_handlers chains]. rewrite length_app. lia.
Qed.

Lemma on_extends event context callback st r st' :
  Emitter.on event context callback st = Some (r, st') -> extends st st'.
Proof.
  unfold Emitter.on. destruct callback as [f|]; [|intros [= _ <-]; apply extends_refl].
  cbn zeta. cbn [set_heap handlers chains heap].
  destruct (handlers st !! event) as [h|].
  - destruct (chains st !! h) as [c|]; [|discriminate]. cbn [mbind option_bind].
    destruct (Handlers.tail c) as [t|]; intros [= _ <-].
    + eapply extends_trans; [apply extends_grow|].
      eapply extends_trans; [apply extends_relink|apply extends_write_chain].
    + eapply extends_trans; [apply extends_grow|apply extends_write_chain].
  - intros [= _ <-].
    eapply extends_trans; [apply extends_grow|].
    apply (extends_register (set_heap _ st)).
Qed.

Lemma off_loop_relinked context callback : forall fuel hp a head tail hp' head' tail',
  Emitter.off_loop fuel context callback hp a head tail = Some (hp', head', tail') ->
  relinked hp hp'.
Proof.
  induction fuel as [|fuel IH]; intros hp a head tail hp' head' tail'; [discriminate|].
  cbn [Emitter.off_loop]. destruct (hp !! a) as [hd|]; [|discriminate].
  cbn [mbind option_bind].
  set (step := if Emitter.context_differs context hd || Emitter.callback_differs callback hd
               then _ else _).
  destruct step as [[[hp1 head1] tail1]|] eqn:Hstep; [|discriminate].
  cbn [mbind option_bind].
  assert (Hre : relinked hp hp1).
  { subst step.
    destruct (Emitter.context_differs context hd || Emitter.callback_differs callback hd).
    - destruct head as [x|].
      + destruct tail as [t|]; [|discriminate]. cbn in Hstep. injection Hstep as <- _ _.
        apply relinked_set_next.
      + injection Hstep as <- _ _. apply relinked_refl.
    - injection Hstep as <- _ _. apply relinked_refl. }
  destruct (hp1 !! a) as [hd1|]; [|discriminate]. cbn [mbind option_bind].
  destruct (Handler.next hd1) as [n|].
  - intros H. eapply relinked_trans; [exact Hre|]. eapply IH, H.
  - now intros [= <- _ _].
Qed.

Lemma relinked_extends st hp' : relinked (heap st) hp' -> extends st (set_heap hp' st).
Proof.
  intros [_ H]. split; [|reflexivity]. intros a hd Ha.
  destruct (H _ _ Ha) as (hd' & ? & ? & ? & _). eauto.
Qed.

Lemma off_extends event context callback st r st' :
  Emitter.off event context callback st = Some (r, st') -> extends st st'.
Proof.
  unfold Emitter.off. destruct (handlers st !! event) as [h|]; [|intros [= _ <-]; apply extends_refl].
  destruct (chains st !! h) as [c|]; [|discriminate]. cbn [mbind option_bind].
  destruct (Handlers.head c) as [a|]; [|intros [= _ <-]; apply extends_refl].
  destruct (Emitter.off_loop _ _ _ _ _ _ _) as [[[hp' head'] tail']|] eqn:Hloop; [|discriminate].
  cbn [mbind option_bind]. apply off_loop_relinked, relinked_extends in Hloop.
  destruct head' as [x|], tail' as [t|]; intros [= _ <-].
  - eapply extends_trans; [exact Hloop|].
    eapply extends_trans; [apply extends_write_chain|apply extends_relink].
  - eapply extends_trans; [exact Hloop|apply extends_write_chain].
  - eapply extends_trans; [exact Hloop|apply extends_write_chain].
  - eapply extends_trans; [exact Hloop|apply extends_write_chain].
Qed.

Lemma subscribed_extends event context callback st :
  extends st (subscribed event context callback st).
Proof.
  unfold subscribed. destruct (Emitter.on _ _ _ _) as [[r st']|] eqn:Hon.
  - eapply on_extends, Hon.
  - apply extends_refl.
Qed.

Lemma silent_well_behaved : well_behaved silent.
Proof. intros f this args st. apply extends_refl. Qed.

Lemma quiet_well_behaved : well_behaved quiet.
Proof. intros f this args st. apply extends_refl. Qed.

Lemma failing_well_behaved : well_behaved failing.
Proof. intros [|[|[|f]]] this args st; apply extends_refl. Qed.

Lemma meddling_well_behaved : well_behaved meddling.
Proof.
  intros [|f] this args st; [|apply extends_refl]. cbn [meddling snd].
  destruct (Emitter.off _ _ _ _) as [[r st2]|] eqn:Hoff.
  - eapply extends_trans; [apply subscribed_extends|]. eapply off_extends, Hoff.
  - apply subscribed_extends.
Qed.

(** ** What a dispatch does before and after its runner *)

Lemma emit_inv runners event args st tr c st' :
  Emitter.emit runners event args st = Some (tr, c, st') ->
  (exists e, Emitter.select_runner runners event = inl e
     /\ tr = [] /\ c = Thrown e /\ st' = st)
  \/ exists name r h st1 c0,
       Emitter.select_runner runners event = inr (name, r) /\ located st name h st1
       /\ chains st1 !! h = Some c0
       /\ ((r = None /\ tr = [] /\ c = Thrown VTypeError /\ st' = st1)
           \/ exists run candidates,
                r = Some run
                /\ run h candidates (Handlers.handled c0 + 1) (VArray args)
                     (write_chain h (Handlers.set_handled (Handlers.handled c0 + 1)) st1)
                   = Some (tr, c, st')).
Proof.
  unfold Emitter.emit. destruct (Emitter.select_runner runners event) as [e|[name r]].
  { intros [= <- <- <-]. left. eauto. }
  intros H. right. exists name, r.
  destruct (handlers st !! name) as [h|] eqn:Hh.
  - destruct (chains st !! h) as [c0|] eqn:Hc0; [|discriminate].
    cbn [mbind option_bind] in H.
    destruct (Handlers.head c0) as [a|].
    + destruct (Emitter.emit_loop _ _ _ _) as [candidates|]; [|discriminate].
      cbn [mbind option_bind] in H. exists h, st, c0. split; [reflexivity|].
      split; [left; auto|]. split; [exact Hc0|]. destruct r as [run|].
      * rewrite Hc0 in H. cbn [mbind option_bind] in H. right. eauto 7.
      * injection H as <- <- <-. left. auto.
    + cbn [mbind option_bind] in H. exists h, st, c0. split; [reflexivity|].
      split; [left; auto|]. split; [exact Hc0|]. destruct r as [run|].
      * rewrite Hc0 in H. cbn [mbind option_bind] in H. right. eauto 7.
      * injection H as <- <- <-. left. auto.
  - cbn [mbind option_bind] in H. eexists _, _, _. split; [reflexivity|].
    split; [right; eauto|]. split; [apply lookup_snoc|]. destruct r as [run|].
    + cbn [set_chains set_handlers chains] in H. rewrite lookup_snoc in H.
      cbn [mbind option_bind] in H. right. eexists _, _. split; [reflexivity|]. exact H.
    + injection H as <- <- <-. left. auto.
Qed.

Lemma reemit_inv runners event senile context callback st tr c st' :
  Emitter.reemit runners event senile context callback st = Some (tr, c, st') ->
  (exists e, Emitter.select_runner runners event = inl e
     /\ tr = [] /\ c = Thrown e /\ st' = st)
  \/ exists name r h st1 c0,
       Emitter.select_runner runners event = inr (name, r) /\ located st name h st1
       /\ chains st1 !! h = Some c0
       /\ ((r = None /\ tr = [] /\ c = Thrown VTypeError /\ st' = st1)
           \/ exists run candidates,
                r = Some run
                /\ run h candidates (Handlers.handled c0)
                     (default VUndefined (Handlers.memory c0)) st1
                   = Some (tr, c, st')).
Proof.
  unfold Emitter.reemit. destruct (Emitter.select_runner runners event) as [e|[name r]].
  { intros [= <- <- <-]. left. eauto. }
  intros H. right. exists name, r.
  destruct (handlers st !! name) as [h|] eqn:Hh.
  - destruct (chains st !! h) as [c0|] eqn:Hc0; [|discriminate].
    cbn [mbind option_bind] in H.
    destruct (Handlers.head c0) as [a|].
    + destruct (Emitter.reemit_loop _ _ _ _ _ _ _ _) as [candidates|]; [|discriminate].
      cbn [mbind option_bind] in H. exists h, st, c0. split; [reflexivity|].
      split; [left; auto|]. split; [exact Hc0|]. destruct r as [run|].
      * rewrite Hc0 in H. cbn [mbind option_bind] in H. right. eauto 7.
      * injection H as <- <- <-. left. auto.
    + cbn [mbind option_bind] in H. exists h, st, c0. split; [reflexivity|].
      split; [left; auto|]. split; [exact Hc0|]. destruct r as [run|].
      * rewrite Hc0 in H. cbn [mbind option_bind] in H. right. eauto 7.
      * injection H as <- <- <-. left. auto.
  - cbn [mbind option_bind] in H. eexists _, _, _. split; [reflexivity|].
    split; [right; eauto|]. split; [apply lookup_snoc|]. destruct r as [run|].
    + cbn [set_chains set_handlers chains] in H. rewrite lookup_snoc in H.
      cbn [mbind option_bind] in H. right. eexists _, _. split; [reflexivity|]. exact H.
    + injection H as <- <- <-. left. auto.
Qed.

(** ** The runners of the repository *)

(** Every known runner is a traversal. *)
Ltac as_run_over Hknown Hrun :=
  destruct Hknown as [->|[->| ->]];
  [ rewrite sequence_is_over, sequence_over_run in Hrun
  | rewrite hub_sequence_is_over, hub_sequence_over_run in Hrun
  | rewrite pipeline_is_over, pipeline_over_run in Hrun ].

Lemma known_surfaces call r h candidates handled args st tr c st' :
  known_runner call r ->
  r h candidates handled args st = Some (tr, c, st') -> surfaces tr c.
Proof. intros Hk Hrun. as_run_over Hk Hrun; eapply run_over_surfaces, Hrun. Qed.

Lemma known_steps call (R : store -> store -> Prop) r h candidates handled args st tr c st' :
  (forall st, R st st) ->
  (forall st1 st2 st3, R st1 st2 -> R st2 st3 -> R st1 st3) ->
  (forall a st, R st (write_handler a (Handler.set_handled handled) st)) ->
  (forall f this al st, R st (call f this al st).2) ->
  known_runner call r ->
  r h candidates handled args st = Some (tr, c, st') ->
  exists st1, R st st1 /\
    ((exists m v, c = Normal (Resolved v)
        /\ st' = write_chain h (Handlers.set_memory m) st1
        /\ (h < length (chains st1))%nat)
     \/ (forall v, c <> Normal (Resolved v)) /\ st' = st1).
Proof.
  intros H1 H2 H3 H4 Hk Hrun.
  as_run_over Hk Hrun;
    destruct (run_over_steps _ _ _ _ _ _ _ _ _ R H1 H2 H3 H4 _ _ _ _ _ _ Hrun)
      as (st1 & HR & [(s' & -> & -> & Hh)|[Hc ->]]); exists st1; split; eauto 8.
Qed.

Lemma peek_write_chain event h f st :
  (forall c, Handlers.memory (f c) = Handlers.memory c) ->
  Emitter.peek event (write_chain h f st) = Emitter.peek event st.
Proof.
  intros Hf. unfold Emitter.peek. cbn [write_chain set_chains chains handlers].
  destruct (handlers st !! event) as [h'|]; [|reflexivity].
  destruct (decide (h = h')) as [->|Hh].
  - rewrite list_lookup_alter_eq. destruct (chains st !! h'); [|reflexivity].
    cbn. now rewrite Hf.
  - now rewrite list_lookup_alter_ne.
Qed.

Lemma located_handlers st name h st1 :
  located st name h st1 -> handlers st1 !! name = Some h.
Proof.
  intros [[Hh ->]|(Hh & -> & ->)]; [exact Hh|].
  cbn [set_chains set_handlers handlers]. apply lookup_insert_eq.
Qed.

Lemma located_extends st name h st1 : located st name h st1 -> extends st st1.
Proof.
  intros [[Hh ->]|(Hh & -> & ->)]; [apply extends_refl|apply extends_register].
Qed.

Lemma located_peek st name h st1 :
  located st name h st1 -> forall event, Emitter.peek event st1 = Emitter.peek event st.
Proof.
  intros [[Hh ->]|(Hh & -> & ->)] event; [reflexivity|].
  unfold Emitter.peek. cbn [set_chains set_handlers handlers chains].
  destruct (decide (name = event)) as [<-|Hne].
  - rewrite lookup_insert_eq, lookup_snoc, Hh. reflexivity.
  - rewrite lookup_insert_ne by assumption.
    destruct (handlers st !! event) as [h'|]; [|reflexivity].
    destruct (decide (h' < length (chains st))%nat) as [Hlt|Hge].
    + now rewrite lookup_app_l.
    + rewrite (lookup_ge_None_2 (chains st)) by lia.
      destruct (decide (h' = length (chains st))) as [->|Hne'].
      * now rewrite lookup_snoc.
      * rewrite lookup_ge_None_2; [reflexivity|]. rewrite length_app. cbn. lia.
Qed.



(** After [++handlers[HANDLED]] the epoch of the name is the new counter
    and no epoch is lower than before. *)
Lemma epoch_incremented st name h c0 :
  handlers st !! name = Some h -> chains st !! h = Some c0 ->
  let st2 := write_chain h (Handlers.set_handled (Handlers.handled c0 + 1)) st in
  epoch st2 name = Some (Handlers.handled c0 + 1) /\ epochs_le st st2.
Proof.
  intros Hh Hc0 st2. split.
  - unfold epoch. cbn [st2 write_chain set_chains handlers chains]. rewrite Hh.
    cbn [mbind option_bind]. now rewrite list_lookup_alter_eq, Hc0.
  - intros event n. unfold epoch. cbn [st2 write_chain set_chains handlers chains].
    destruct (handlers st !! event) as [h'|]; [|discriminate]. cbn [mbind option_bind].
    destruct (decide (h = h')) as [<-|Hne].
    + rewrite list_lookup_alter_eq, Hc0. cbn. intros [= <-]. eexists. split; [reflexivity|lia].
    + rewrite list_lookup_alter_ne by assumption. intros H. exists n. split; [exact H|lia].
Qed.

Lemma epochs_kept_stamp a n st : epochs_kept st (write_handler a (Handler.set_handled n) st).
Proof. now intros event m. Qed.

Lemma epochs_kept_memory h m st : epochs_kept st (write_chain h (Handlers.set_memory m) st).
Proof. intros event n. now rewrite epoch_write_chain. Qed.

(** A known runner moves the epochs only as its callbacks do. *)
Lemma known_epochs call (R : store -> store -> Prop) r h candidates handled args st tr c st' :
  (forall st, R st st) ->
  (forall st1 st2 st3, R st1 st2 -> R st2 st3 -> R st1 st3) ->
  (forall st st', epochs_kept st st' -> R st st') ->
  (forall f this al st, R st (call f this al st).2) ->
  known_runner call r ->
  r h candidates handled args st = Some (tr, c, st') ->
  R st st'.
Proof.
  intros H1 H2 H3 H4 Hk Hrun.
  destruct (known_steps call R r h candidates handled args st tr c st' H1 H2
              (fun a st => H3 _ _ (epochs_kept_stamp a handled st)) H4 Hk Hrun)
    as (st1 & HR & [(m & v & _ & -> & _)|[_ ->]]); [|exact HR].
  eapply H2; [exact HR|]. apply H3, epochs_kept_memory.
Qed.




(** ** Failures *)

Lemma surfaces_nil c : surfaces [] c.
Proof. intros [|] ? ? ? ?; discriminate. Qed.

Lemma selected_known call runners event name run :
  known_runners call runners ->
  Emitter.select_runner runners event = inr (name, Some run) -> known_runner call run.
Proof.
  intros Hrs Hsel. unfold Emitter.select_runner in Hsel.
  destruct (Regex.RE_RUNNER event) as [[n s]|].
  - destruct (runners !! s) as [r0|] eqn:Hr0; [|discriminate]. injection Hsel as _ <-. eauto.
  - injection Hsel as _ Hd. eauto.
Qed.

Lemma failure_surfaces_aux call runners :
  known_runners call runners ->
  (forall event args st tr c st',
     Emitter.emit runners event args st = Some (tr, c, st') -> surfaces tr c)
  /\ (forall event senile context callback st tr c st',
        Emitter.reemit runners event senile context callback st = Some (tr, c, st') ->
        surfaces tr c).
Proof.
  intros Hrs. split.
  - intros event args st tr c st' H.
    apply emit_inv in H as [(e & _ & -> & _)|(name & r & h & st1 & c0 & Hsel & _ & _ &
      [(_ & -> & _)|(run & cands & -> & Hrun)])]; try apply surfaces_nil.
    eapply known_surfaces; [|exact Hrun]. eapply selected_known; eauto.
  - intros event senile context callback st tr c st' H.
    apply reemit_inv in H as [(e & _ & -> & _)|(name & r & h & st1 & c0 & Hsel & _ & _ &
      [(_ & -> & _)|(run & cands & -> & Hrun)])]; try apply surfaces_nil.
    eapply known_surfaces; [|exact Hrun]. eapply selected_known; eauto.
Qed.

(** C6, as the code has it.  When the callback of a candidate throws or
    the promise it returns rejects, no further candidate of the dispatch
    is invoked and the failure reaches the caller of [emit], [publish],
    [reemit] or [republish] as it is.  A rejection rejects the promise the
    dispatch returns.  An exception rejects that promise too, unless it
    comes from the first invocation of the dispatch, which the runner
    makes before it returns: that exception leaves the dispatch itself,
    which returns no promise. *)
Theorem failure_ends_the_dispatch (call : callbacks) (runners : gmap string runner) :
  known_runners call runners ->
  (forall event args st tr c st',
     Emitter.emit runners event args st = Some (tr, c, st') -> surfaces tr c)
  /\ (forall event senile context callback st tr c st',
        Emitter.reemit runners event senile context callback st = Some (tr, c, st') ->
        surfaces tr c)
  /\ (forall event args st tr c st',
        Hub.publish call event args st = Some (tr, c, st') -> surfaces tr c)
  /\ (forall event context callback senile st tr c st',
        Hub.republish call event context callback senile st = Some (tr, c, st') ->
        surfaces tr c).
Proof.
  intros Hrs.
  destruct (failure_surfaces_aux call runners Hrs) as (S1 & S2).
  destruct (failure_surfaces_aux call (Hub.runners call) (hub_runners_known call)) as (S3 & S4).
  split; [exact S1|]. split; [exact S2|]. split; [exact S3|].
  intros event context callback senile. apply S4.
Qed.

Lemma failed_not_resolved tr c :
  surfaces tr c -> Exists failed tr -> forall v, c <> Normal (Resolved v).
Proof.
  intros Hs Hex v ->. apply Exists_exists in Hex as (i & Hi & e & Ho).
  apply list_elem_of_split in Hi as (pre & post & ->).
  destruct (Hs pre i post e eq_refl) as [Hrej Hthr]. destruct Ho as [Ho|Ho].
  - destruct (Hthr Ho) as [_ Hc]. destruct pre; discriminate.
  - destruct (Hrej Ho) as [_ Hc]. discriminate.
Qed.

(** A dispatch that does not resolve leaves every memory as the callbacks
    left it. *)
Lemma unresolved_keeps_memory call runners :
  known_runners call runners -> keeps_memory call ->
  (forall event args st tr c st',
     Emitter.emit runners event args st = Some (tr, c, st') ->
     (forall v, c <> Normal (Resolved v)) ->
     forall ev, Emitter.peek ev st' = Emitter.peek ev st)
  /\ (forall event senile context callback st tr c st',
        Emitter.reemit runners event senile context callback st = Some (tr, c, st') ->
        (forall v, c <> Normal (Resolved v)) ->
        forall ev, Emitter.peek ev st' = Emitter.peek ev st).
Proof.
  intros Hrs Hkeep.
  set (R := fun st st' : store => forall ev, Emitter.peek ev st' = Emitter.peek ev st).
  assert (HR1 : forall st, R st st) by (intros st ev; reflexivity).
  assert (HR2 : forall st1 st2 st3, R st1 st2 -> R st2 st3 -> R st1 st3).
  { intros st1 st2 st3 H12 H23 ev. now rewrite H23. }
  assert (HR3 : forall n a st, R st (write_handler a (Handler.set_handled n) st)).
  { intros n a st ev. reflexivity. }
  assert (HR4 : forall f this al st, R st (call f this al st).2).
  { intros f this al st ev. apply Hkeep. }
  split.
  - intros event args st tr c st' H Hc ev.
    apply emit_inv in H as [(e & _ & _ & _ & ->)|(name & r & h & st1 & c0 & Hsel & Hloc & Hc0 &
      [(_ & _ & _ & ->)|(run & cands & -> & Hrun)])];
      [reflexivity|now apply (located_peek _ _ _ _ Hloc)|].
    eapply known_steps in Hrun as (st2 & HR & [(m & v & -> & _)|[_ ->]]);
      eauto using selected_known; [now destruct (Hc v)|].
    rewrite HR, peek_write_chain by reflexivity. now apply (located_peek _ _ _ _ Hloc).
  - intros event senile context callback st tr c st' H Hc ev.
    apply reemit_inv in H as [(e & _ & _ & _ & ->)|(name & r & h & st1 & c0 & Hsel & Hloc & Hc0 &
      [(_ & _ & _ & ->)|(run & cands & -> & Hrun)])];
      [reflexivity|now apply (located_peek _ _ _ _ Hloc)|].
    eapply known_steps in Hrun as (st2 & HR & [(m & v & -> & _)|[_ ->]]);
      eauto using selected_known; [now destruct (Hc v)|].
    rewrite HR. now apply (located_peek _ _ _ _ Hloc).
Qed.

(** C10.  When a handler of a dispatch throws or its promise rejects, the
    runner has not written the memory: with callbacks that do not
    themselves change what [peek] returns, [peek] returns for every event
    what it returned before the dispatch. *)
Theorem failed_dispatch_keeps_memory (call : callbacks) (runners : gmap string runner) :
  known_runners call runners -> keeps_memory call ->
  (forall event args st tr c st',
     Emitter.emit runners event args st = Some (tr, c, st') -> Exists failed tr ->
     forall ev, Emitter.peek ev st' = Emitter.peek ev st)
  /\ (forall event senile context callback st tr c st',
        Emitter.reemit runners event senile context callback st = Some (tr, c, st') ->
        Exists failed tr ->
        forall ev, Emitter.peek ev st' = Emitter.peek ev st)
  /\ (forall event args st tr c st',
        Hub.publish call event args st = Some (tr, c, st') -> Exists failed tr ->
        forall ev, Hub.peek ev st' = Hub.peek ev st)
  /\ (forall event context callback senile st tr c st',
        Hub.republish call event context callback senile st = Some (tr, c, st') ->
        Exists failed tr ->
        forall ev, Hub.peek ev st' = Hub.peek ev st).
Proof.
  intros Hrs Hkeep.
  destruct (failure_surfaces_aux call runners Hrs) as (S1 & S2).
  destruct (failure_surfaces_aux call (Hub.runners call) (hub_runners_known call)) as (S3 & S4).
  destruct (unresolved_keeps_memory call runners Hrs Hkeep) as (M1 & M2).
  destruct (unresolved_keeps_memory call (Hub.runners call) (hub_runners_known call) Hkeep)
    as (M3 & M4).
  split; [|split; [|split]].
  - intros event args st tr c st' H Hf. eapply M1; [exact H|].
    eapply failed_not_resolved; eauto.
  - intros event senile context callback st tr c st' H Hf. eapply M2; [exact H|].
    eapply failed_not_resolved; eauto.
  - intros event args st tr c st' H Hf. eapply M3; [exact H|].
    eapply failed_not_resolved; eauto.
  - intros event context callback senile st tr c st' H Hf. eapply M4; [exact H|].
    eapply failed_not_resolved; eauto.
Qed.

(** ** Epochs *)


(** ** The sequence runner *)

Lemma filter_kept_none st l : List.filter (kept skips_none st) l = l.
Proof.
  induction l as [|a l IH]; [reflexivity|]. cbn [List.filter].
  unfold kept at 1, skips_none. destruct (heap st !! a); cbn [negb]; now f_equal.
Qed.

Lemma after_all_snoc (vs rs : list value) :
  after_all (fun rs v => rs ++ [v]) rs vs = rs ++ vs.
Proof.
  unfold after_all. revert rs. induction vs as [|v vs IH]; intros rs; cbn.
  - now rewrite app_nil_r.
  - now rewrite IH, <- app_assoc.
Qed.

Lemma prefix_valid (l k : list nat) (n : nat) :
  l `prefix_of` k -> Forall (fun a => (a < n)%nat) k -> Forall (fun a => (a < n)%nat) l.
Proof. intros [k' ->] H. now apply Forall_app in H as [H _]. Qed.

(** What the emitter's [sequence] does over existing candidates. *)
Lemma sequence_spec call h candidates handled (args : value) (al : list value) st :
  well_behaved call -> arg_list args = Some al ->
  (h < length (chains st))%nat ->
  Forall (fun a => (a < length (heap st))%nat) candidates ->
  exists tr c st',
    Emitter.sequence call h candidates handled args st = Some (tr, c, st')
    /\ map inv_handler tr `prefix_of` candidates
    /\ Forall (bound_in st) tr
    /\ Forall (fun i => inv_args i = al) tr
    /\ (forall pre i post, tr = pre ++ i :: post -> post <> [] -> returned i)
    /\ (Forall returned tr ->
        map inv_handler tr = candidates
        /\ c = Normal (Resolved (VArray (returned_values tr)))
        /\ memory_at st' h = Some (Some args)).
Proof.
  intros Hwb Hal Hh Hcands. rewrite sequence_is_over, sequence_over_run.
  destruct (run_over_total call h handled (list value) (fun _ => args)
              (fun rs v => rs ++ [v]) (fun _ => args) VArray skips_none Hwb
              candidates [] st Hh Hcands) as [[[tr c] st'] Hrun].
  exists tr, c, st'. split; [exact Hrun|].
  assert (Hstamp : forall a st, extends st (write_handler a (Handler.set_handled handled) st))
    by (intros; apply extends_stamp).
  assert (Hskips : forall st st' a hd hd', extends st st' -> heap st !! a = Some hd ->
            heap st' !! a = Some hd' -> skips_none st' hd' = skips_none st hd)
    by reflexivity.
  split; [|split; [|split; [|split]]].
  - rewrite <- (filter_kept_none st candidates).
    eapply (run_over_prefix call h handled _ _ _ _ _ _ extends extends_trans Hstamp Hwb
              (fun _ _ H => H) Hskips); eauto.
  - eapply (run_over_bound call h handled _ _ _ _ _ _ extends extends_trans Hstamp Hwb
              (fun _ _ H => H) Hskips); eauto.
  - eapply Forall_impl.
    + eapply (run_over_same_args call h handled _ (fun _ => args)); [reflexivity|].
      exact Hrun.
    + intros i Hi. cbn in Hi. congruence.
  - eapply run_over_serial, Hrun.
  - intros Hret.
    assert (Hargs : forall s : list value, is_Some (arg_list ((fun _ => args) s)))
      by (intros; eexists; exact Hal).
    destruct (run_over_finished call h handled (list value) (fun _ => args)
                (fun rs v => rs ++ [v]) (fun _ => args) VArray skips_none
                extends extends_trans Hstamp Hwb (fun _ _ H => H) Hskips Hargs
                _ _ _ _ _ _ Hcands Hrun Hret) as (Htr & -> & Hmem).
    rewrite filter_kept_none in Htr. rewrite after_all_snoc. auto.
Qed.

(** C4.  Run over existing candidates with callbacks that keep the objects
    in place, the emitter's [sequence] invokes the candidates in the order
    of the snapshot, each with its own callback and context and all with
    the same arguments (those [apply] reads from [args], the array that
    [emit] made of its arguments), and it invokes a candidate only once
    the invocation before it has returned.  When every invocation
    returns, all the candidates have been invoked, the promise resolves
    with the list of the values returned, in the order of the invocations
    and with no other entry, and [args] is the memory of the chain. *)
Theorem sequence_runs_the_snapshot (call : callbacks) (h : nat) (candidates : list nat)
    (handled : Z) (args : value) (al : list value) (st : store) :
  well_behaved call -> arg_list args = Some al ->
  (h < length (chains st))%nat ->
  Forall (fun a => (a < length (heap st))%nat) candidates ->
  exists tr c st',
    Emitter.sequence call h candidates handled args st = Some (tr, c, st')
    /\ map inv_handler tr `prefix_of` candidates
    /\ Forall (bound_in st) tr
    /\ Forall (fun i => inv_args i = al) tr
    /\ (forall pre i post, tr = pre ++ i :: post -> post <> [] -> returned i)
    /\ (Forall returned tr ->
        map inv_handler tr = candidates
        /\ c = Normal (Resolved (VArray (returned_values tr)))
        /\ memory_at st' h = Some (Some args)).
Proof. apply sequence_spec. Qed.

(** ** The snapshot of [emit] *)

(** [emit] on a registered chain hands the chain as it is to the runner,
    with the epoch raised by one. *)
Lemma emit_registered runners event name run args st h c l :
  Emitter.select_runner runners event = inr (name, Some run) ->
  handlers st !! name = Some h -> chains st !! h = Some c ->
  linked (heap st) (Handlers.head c) l ->
  Emitter.emit runners event args st
  = run h l (Handlers.handled c + 1) (VArray args)
      (write_chain h (Handlers.set_handled (Handlers.handled c + 1)) st).
Proof.
  intros Hsel Hh Hc Hl. unfold Emitter.emit. rewrite Hsel, Hh, Hc.
  cbn [mbind option_bind].
  destruct (Handlers.head c) as [a|].
  - rewrite (emit_loop_linked _ l) by (auto; eapply linked_length, Hl).
    cbn [mbind option_bind app]. now rewrite Hc.
  - apply linked_head_None in Hl as ->. cbn [mbind option_bind]. now rewrite Hc.
Qed.

Lemma select_emitter_runner call event name r :
  Emitter.select_runner (Emitter.runners call) event = inr (name, r) ->
  r = Some (Emitter.sequence call).
Proof.
  unfold Emitter.select_runner. destruct (Regex.RE_RUNNER event) as [[n s]|].
  - destruct (Emitter.runners call !! s) as [r0|] eqn:Hr0; [|discriminate].
    intros [= _ <-]. f_equal. eapply emitter_runners_lookup, Hr0.
  - now intros [= _ <-].
Qed.

(** C9.  The handlers [emit] invokes are those of the chain as it is when
    [emit] is called, whatever the callbacks do to the chain meanwhile
    (they are only assumed to keep the objects in place, as [on] and
    [off] do): only handler objects that exist at the call are invoked,
    in the order of the chain at the call; and when every invocation
    returns, every handler of that chain has been invoked, also one that
    has been unlinked since. *)
Theorem snapshot_is_independent (call : callbacks) (event name : string)
    (r : option runner) (args : list value) (st : store) (h : nat) (c : Handlers.t)
    (l : list nat) :
  well_behaved call ->
  Emitter.select_runner (Emitter.runners call) event = inr (name, r) ->
  handlers st !! name = Some h -> chains st !! h = Some c ->
  chain_of (heap st) c l ->
  exists tr p st',
    Emitter.emit (Emitter.runners call) event args st = Some (tr, p, st')
    /\ map inv_handler tr `prefix_of` l
    /\ Forall (fun i => (inv_handler i < length (heap st))%nat) tr
    /\ Forall (bound_in st) tr
    /\ (Forall returned tr -> map inv_handler tr = l).
Proof.
  intros Hwb Hsel Hh Hc [Hl _].
  pose proof (select_emitter_runner _ _ _ _ Hsel) as ->.
  rewrite (emit_registered _ _ _ _ _ _ _ _ _ Hsel Hh Hc Hl).
  pose proof (linked_valid _ _ _ Hl) as Hvalid.
  destruct (sequence_spec call h l (Handlers.handled c + 1) (VArray args) args
              (write_chain h (Handlers.set_handled (Handlers.handled c + 1)) st) Hwb)
    as (tr & p & st' & Hrun & Hpre & Hbound & _ & _ & Hall).
  - reflexivity.
  - cbn [write_chain set_chains chains]. rewrite length_alter. eapply lookup_lt_Some, Hc.
  - exact Hvalid.
  - exists tr, p, st'. split; [exact Hrun|]. split; [exact Hpre|]. split; [|split].
    + pose proof (prefix_valid _ _ _ Hpre Hvalid) as Hv.
      apply Forall_fmap in Hv. exact Hv.
    + exact Hbound.
    + intros Hret. now destruct (Hall Hret).
Qed.

(** ** Blocked phases *)

Lemma replayed_same senile context callback n hp hp' a hd hd' :
  hp !! a = Some hd -> hp' !! a = Some hd' ->
  Handler.callback hd' = Handler.callback hd ->
  Handler.context hd' = Handler.context hd ->
  Handler.handled hd' = Handler.handled hd ->
  replayed senile context callback n hp' a = replayed senile context callback n hp a.
Proof.
  intros Ha Ha' Hcb Hctx Hh. unfold replayed, selected. now rewrite Ha, Ha', Hcb, Hctx, Hh.
Qed.

Section Blocked.

Variable call : callbacks.
Hypothesis call_well_behaved : well_behaved call.
Hypothesis call_keeps_phases : keeps_phases call.

Lemma steady_trans st1 st2 st3 : steady st1 st2 -> steady st2 st3 -> steady st1 st3.
Proof.
  intros [E1 P1] [E2 P2]. split; [eapply extends_trans; eauto|congruence].
Qed.

Lemma steady_stamp handled a st : steady st (write_handler a (Handler.set_handled handled) st).
Proof. split; [apply extends_stamp|reflexivity]. Qed.

Lemma steady_call f this al st : steady st (call f this al st).2.
Proof. split; [apply call_well_behaved|apply call_keeps_phases]. Qed.

Lemma steady_blocked st st' a hd hd' :
  steady st st' -> heap st !! a = Some hd -> heap st' !! a = Some hd' ->
  blocked st' hd' = blocked st hd.
Proof.
  intros [[Hext _] Hph] Ha Ha'. destruct (Hext _ _ Ha) as (hd2 & Ha2 & _ & Hctx).
  assert (hd2 = hd') as -> by congruence.
  unfold blocked, Hub.phase_of. now rewrite Hctx, Hph.
Qed.

(** Every traversal that passes over the blocked candidates does so in
    the sense of [passes_over_blocked]. *)
Lemma run_over_passes (run : runner) :
  (forall h handled candidates args st,
     exists (acc : Type) (args_of : acc -> value) (after : acc -> value -> acc)
            (memory_of resolution_of : acc -> value) (s : acc),
       run h candidates handled args st
       = run_over call h handled acc args_of after memory_of resolution_of blocked
           s candidates st) ->
  passes_over_blocked call run.
Proof.
  intros Hrun h candidates handled args st Hh Hcands.
  destruct (Hrun h handled candidates args st)
    as (acc & args_of & after & memory_of & resolution_of & s & ->).
  destruct (run_over_total call h handled acc args_of after memory_of resolution_of
              blocked call_well_behaved candidates s st Hh Hcands)
    as [[[tr c] st'] Hr].
  exists tr, c, st'. split; [exact Hr|].
  pose proof (fun st st' (H : steady st st') => proj1 H) as Hext.
  split; [|split].
  - eapply (run_over_prefix call h handled acc args_of after memory_of resolution_of
              blocked steady steady_trans (steady_stamp handled) steady_call Hext
              steady_blocked); eauto.
  - intros v Hc.
    destruct (run_over_resolved call h handled acc args_of after memory_of resolution_of
                blocked steady steady_trans (steady_stamp handled) steady_call Hext
                steady_blocked _ _ _ _ _ _ v Hcands Hr Hc) as (Htr & Hret & _).
    auto.
  - intros Hkeep a hd Ha Hb.
    destruct (run_over_skipped_untouched call h handled acc args_of after memory_of
                resolution_of blocked steady steady_trans (steady_stamp handled)
                steady_call steady_blocked Hkeep _ _ _ _ _ _ Hr a hd Ha Hb)
      as (hd' & Ha' & Hh').
    split; [eauto|]. intros senile context callback n.
    destruct (run_over_steps call h handled acc args_of after memory_of resolution_of
                blocked extends extends_refl extends_trans
                (fun a st => extends_stamp a handled st) call_well_behaved
                _ _ _ _ _ _ Hr) as (st1 & [Hext1 _] & Hend).
    assert (Hheap : heap st' = heap st1).
    { destruct Hend as [(s' & _ & -> & _)|[_ ->]]; reflexivity. }
    destruct (Hext1 _ _ Ha) as (hd1 & Ha1 & Hcb & Hctx). rewrite <- Hheap in Ha1.
    assert (hd1 = hd') as -> by congruence.
    eapply replayed_same; eauto.
Qed.


Lemma pipeline_passes : passes_over_blocked call (Hub.pipeline call).
Proof.
  apply run_over_passes. intros h handled candidates args st.
  eexists _, _, _, _, _, _. rewrite pipeline_is_over. apply pipeline_over_run.
Qed.


End Blocked.


(** ** Adding a handler *)

Lemma linked_grow hp first l hd : linked hp first l -> linked (hp ++ [hd]) first l.
Proof.
  intros Hl. eapply linked_frame; [exact Hl|]. intros a hda _ Ha. exists hda.
  split; [|reflexivity]. rewrite lookup_app_l by (eapply lookup_lt_Some, Ha). exact Ha.
Qed.

(** Linking a new handler object behind the last handler of a chain. *)
Lemma linked_snoc hp hd : forall l first t,
  linked hp first l -> last l = Some t -> Handler.next hd = None ->
  linked (alter (Handler.set_next (Some (length hp))) t (hp ++ [hd])) first
    (l ++ [length hp]).
Proof.
  induction l as [|a l IH]; intros first t Hl Hlast Hnext; [discriminate|].
  pose proof (linked_NoDup _ _ _ Hl) as Hnd.
  inversion Hl as [|? hda ? Ha Hl']; subst. inversion Hnd as [|? ? Hnotin Hnd']; subst.
  pose proof (lookup_lt_Some _ _ _ Ha) as Hlt.
  destruct l as [|b l].
  - injection Hlast as ->. apply linked_nil_head in Hl' as Hn. cbn [app].
    eapply linked_cons.
    + rewrite list_lookup_alter_eq, lookup_app_l, Ha by assumption. reflexivity.
    + cbn [Handler.set_next Handler.next]. eapply linked_cons.
      * rewrite list_lookup_alter_ne by lia. apply lookup_snoc.
      * rewrite Hnext. constructor.
  - change (last (a :: b :: l)) with (last (b :: l)) in Hlast.
    assert (Hta : t <> a).
    { intros ->. apply Hnotin. eapply last_Some_elem_of, Hlast. }
    cbn [app]. eapply linked_cons.
    + rewrite list_lookup_alter_ne, lookup_app_l, Ha by auto. reflexivity.
    + apply (IH _ t Hl' Hlast Hnext).
Qed.


(** ** Replaying *)



(** ** Threading *)

Section Threading.

Variable call : callbacks.
Variables (h : nat) (handled : Z).
Variable acc : Type.
Variable args_of : acc -> value.
Variable after : acc -> value -> acc.
Variable memory_of resolution_of : acc -> value.
Variable skips : store -> Handler.t -> bool.

(** Each invocation receives the arguments of the variables as the
    values returned before it have left them. *)
Lemma run_over_args rest : forall s st tr c st',
  run_over call h handled acc args_of after memory_of resolution_of skips s rest st
  = Some (tr, c, st') ->
  forall pre i post, tr = pre ++ i :: post ->
    arg_list (args_of (after_all after s (returned_values pre))) = Some (inv_args i).
Proof.
  induction rest as [|a rest IH]; intros s st tr c st' Hrun.
  - apply run_over_nil_inv in Hrun as (-> & _). intros [|] ? ? ?; discriminate.
  - apply run_over_cons_inv in Hrun as (hd & Hhd & [[_ Hrun]|[_ Hrun]]); [eauto|].
    apply invoke_inv in Hrun as (hd' & _ & [(_ & -> & _)|(al & o & st2 & Hal & _ & Ho)]).
    { intros [|] ? ? ?; discriminate. }
    cbv zeta in Ho. destruct o as [v|e|e|].
    + destruct Ho as (tr' & c' & Hk & -> & ->).
      intros [|i0 pre] j post Htr.
      * injection Htr as <- <-. exact Hal.
      * injection Htr as <- Htr. cbn [returned_values omap inv_outcome].
        apply (IH _ _ _ _ _ Hk _ _ _ Htr).
    + destruct Ho as (-> & _). intros [|? [|]] j post Htr; try discriminate.
      injection Htr as <- <-. exact Hal.
    + destruct Ho as (-> & _). intros [|? [|]] j post Htr; try discriminate.
      injection Htr as <- <-. exact Hal.
    + destruct Ho as (-> & _). intros [|? [|]] j post Htr; try discriminate.
      injection Htr as <- <-. exact Hal.
Qed.

(** A run that resolves does so with the variables as all the returned
    values have left them, and has stored its memory. *)
Lemma run_over_resolution rest : forall s st tr c st' v,
  run_over call h handled acc args_of after memory_of resolution_of skips s rest st
  = Some (tr, c, st') ->
  c = Normal (Resolved v) ->
  v = resolution_of (after_all after s (returned_values tr))
  /\ memory_at st' h = Some (Some (memory_of (after_all after s (returned_values tr)))).
Proof.
  induction rest as [|a rest IH]; intros s st tr c st' v Hrun Hc.
  - apply run_over_nil_inv in Hrun as (-> & -> & -> & Hh). injection Hc as <-.
    split; [reflexivity|]. unfold memory_at. cbn [write_chain set_chains chains].
    rewrite list_lookup_alter_eq. apply lookup_lt_is_Some in Hh as [c0 ->]. reflexivity.
  - apply run_over_cons_inv in Hrun as (hd & Hhd & [[_ Hrun]|[_ Hrun]]); [eauto|].
    apply invoke_inv in Hrun as (hd' & _ & [(_ & _ & Hc' & _)|(al & o & st2 & _ & _ & Ho)]).
    { congruence. }
    cbv zeta in Ho. destruct o as [v0|e|e|].
    + destruct Ho as (tr' & c' & Hk & -> & Hc').
      assert (Hc'' : c' = Normal (Resolved v)).
      { rewrite Hc' in Hc. destruct c' as [[]|]; try discriminate. now injection Hc as ->. }
      cbn [returned_values omap inv_outcome]. apply (IH _ _ _ _ _ _ Hk Hc'').
    + destruct Ho as (_ & Hc' & _). congruence.
    + destruct Ho as (_ & Hc' & _). congruence.
    + destruct Ho as (_ & Hc' & _). congruence.
Qed.

End Threading.

(** X3.  In [pipeline] every handler receives the arguments threaded so
    far: the published ones, each value returned so far having replaced
    them unless it was [undefined]; [apply] reads an array as the
    arguments it holds.  When the promise resolves it resolves with the
    arguments threaded through all the handlers invoked, which are also
    the memory of the chain. *)
Theorem pipeline_threads_the_arguments (call : callbacks) (h : nat)
    (candidates : list nat) (handled : Z) (args : value) (st : store)
    (tr : list invocation) (c : completion promise) (st' : store) :
  Hub.pipeline call h candidates handled args st = Some (tr, c, st') ->
  (forall pre i post, tr = pre ++ i :: post ->
     arg_list (after_all threaded args (returned_values pre)) = Some (inv_args i))
  /\ (forall v, c = Normal (Resolved v) ->
        v = after_all threaded args (returned_values tr)
        /\ memory_at st' h = Some (Some v)).
Proof.
  rewrite pipeline_is_over, pipeline_over_run. intros Hrun. split.
  - apply (run_over_args _ _ _ _ _ _ _ _ _ _ _ _ _ _ _ Hrun).
  - intros v Hc.
    destruct (run_over_resolution _ _ _ _ _ _ _ _ _ _ _ _ _ _ _ _ Hrun Hc) as [-> Hm].
    auto.
Qed.

Lemma pipeline_threads_the_arguments_witness :
  exists tr c st',
    Hub.pipeline piping 0%nat [0; 1]%nat 1 (VArray [VNum 1]) two_handlers
    = Some (tr, c, st')
    /\ map inv_args tr = [[VNum 1]; [VNum 2; VNum 3]]
    /\ c = Normal (Resolved (VArray [VNum 2; VNum 3]))
    /\ memory_at st' 0%nat = Some (Some (VArray [VNum 2; VNum 3])).
Proof.
  destruct (Hub.pipeline piping 0%nat [0; 1]%nat 1 (VArray [VNum 1]) two_handlers)
    as [[[tr c] st']|] eqn:Hrun; [|vm_compute in Hrun; discriminate].
  exists tr, c, st'. split; [reflexivity|].
  pose proof (proj2 (pipeline_threads_the_arguments _ _ _ _ _ _ _ _ _ Hrun)) as Hres.
  vm_compute in Hrun. injection Hrun as <- <- <-.
  split; [reflexivity|]. split; [reflexivity|].
  exact (proj2 (Hres _ eq_refl)).
Defined.

(** ** The claims on concrete emitters *)

(** C1, where the code departs from it.  Two handlers are subscribed to
    ["evt"] on the hub and the first returns the number 7.  [publish]
    invokes the first with the arguments published; [next] then makes 7
    itself the argument array of [apply], which raises a [TypeError]: the
    second handler is stamped and never invoked, the promise rejects and
    no memory is written. *)
Lemma pipeline_scalar_is_not_an_argument :
  exists i st',
    Hub.publish failing "evt" [VNum 1] two_handlers
    = Some ([i], Normal (Rejected VTypeError), st')
    /\ inv_handler i = 0%nat /\ inv_args i = [VNum 1]
    /\ inv_outcome i = Returns (VNum 7)
    /\ Handler.handled <$> heap st' !! 1%nat = Some (Some 1)
    /\ Hub.peek "evt" st' = VUndefined.
Proof.
  eexists. eexists. split; [vm_compute; reflexivity|].
  repeat split; vm_compute; reflexivity.
Qed.



(** C5, where the code departs from it.  A handler is subscribed to
    ["evt"], which is never emitted; [reemit] does not dismiss the call:
    it invokes the handler, with no argument, stamps it with the epoch
    [0] and makes [undefined] the memory of the chain. *)
Lemma reemit_before_any_emit_invokes :
  epoch one_handler "evt" = Some 0
  /\ memory_at one_handler 0 = Some None
  /\ exists i st',
       Emitter.reemit (Emitter.runners silent) "evt" false None None one_handler
       = Some ([i], Normal (Resolved (VArray [VUndefined])), st')
       /\ inv_handler i = 0%nat /\ inv_args i = []
       /\ Handler.handled <$> heap st' !! 0%nat = Some (Some 0)
       /\ memory_at st' 0 = Some (Some VUndefined).
Proof.
  split; [vm_compute; reflexivity|]. split; [vm_compute; reflexivity|].
  eexists. eexists. split; [vm_compute; reflexivity|].
  repeat split; vm_compute; reflexivity.
Qed.

(** C6, where the code departs from it: the only handler throws, and
    [emit] itself throws the exception; it returns no promise that could
    reject. *)
Lemma first_throw_leaves_emit :
  exists i st',
    Emitter.emit (Emitter.runners failing) "evt" [] one_handler
    = Some ([i], Thrown (VStr "thrown"), st')
    /\ inv_handler i = 0%nat /\ inv_outcome i = Throws (VStr "thrown").
Proof.
  eexists. eexists. split; [vm_compute; reflexivity|]. split; reflexivity.
Qed.

(** ** The theorems at work *)

Lemma three_handlers_chain :
  exists c, chains three_handlers !! 0%nat = Some c
    /\ chain_of (heap three_handlers) c [0; 1; 2]%nat.
Proof.
  eexists. split; [vm_compute; reflexivity|]. split; [|vm_compute; reflexivity].
  eapply linked_cons; [vm_compute; reflexivity|].
  eapply linked_cons; [vm_compute; reflexivity|].
  eapply linked_cons; [vm_compute; reflexivity|].
  apply linked_nil.
Defined.

Lemma off_removes_the_selected_witness :
  exists st' c',
    Emitter.off "evt" None (Some 1%nat) three_handlers = Some (Emitter.Me, st')
    /\ chains st' !! 0%nat = Some c'
    /\ chain_of (heap st') c' [0; 2]%nat.
Proof.
  destruct three_handlers_chain as (c & Hc & Hchain).
  destruct (proj2 (off_removes_the_selected "evt" None (Some 1%nat) three_handlers)
              0%nat c [0; 1; 2]%nat) as (st' & c' & Hoff & _ & Hc' & _ & _ & _ & Hchain' & _).
  - vm_compute; reflexivity.
  - exact Hc.
  - exact Hchain.
  - exists st', c'. split; [exact Hoff|]. split; [exact Hc'|]. exact Hchain'.
Defined.

Lemma silent_keeps_phases : keeps_phases silent.
Proof. intros f this args st. reflexivity. Qed.

Lemma failing_keeps_memory : keeps_memory failing.
Proof. intros [|[|[|f]]] this args st event; reflexivity. Qed.



Lemma sequence_runs_the_snapshot_witness :
  exists tr c st',
    Emitter.sequence quiet 0%nat [0; 1; 2]%nat 1 (VArray [VNum 5]) three_handlers
    = Some (tr, c, st')
    /\ map inv_handler tr = [0; 1; 2]%nat
    /\ c = Normal (Resolved (VArray [VNum 0; VNum 1; VNum 2]))
    /\ memory_at st' 0%nat = Some (Some (VArray [VNum 5])).
Proof.
  destruct (sequence_runs_the_snapshot quiet 0%nat [0; 1; 2]%nat 1 (VArray [VNum 5])
              [VNum 5] three_handlers)
    as (tr & c & st' & Hrun & _ & _ & _ & _ & Hall).
  - exact quiet_well_behaved.
  - reflexivity.
  - vm_compute. lia.
  - repeat constructor; vm_compute; lia.
  - exists tr, c, st'. split; [exact Hrun|].
    vm_compute in Hrun. injection Hrun as <- <- <-.
    split; [reflexivity|]. split; [reflexivity|]. vm_compute. reflexivity.
Defined.

Lemma failure_ends_the_dispatch_witness :
  exists tr c st',
    Emitter.emit (Emitter.runners failing) "evt" [] three_handlers = Some (tr, c, st')
    /\ map inv_handler tr = [0; 1]%nat
    /\ c = Normal (Rejected (VStr "thrown"))
    /\ surfaces tr c.
Proof.
  destruct (Emitter.emit (Emitter.runners failing) "evt" [] three_handlers)
    as [[[tr c] st']|] eqn:Hrun; [|vm_compute in Hrun; discriminate].
  exists tr, c, st'. split; [reflexivity|].
  pose proof (proj1 (failure_ends_the_dispatch failing (Emitter.runners failing)
                       (emitter_runners_known failing)) _ _ _ _ _ _ Hrun) as Hs.
  vm_compute in Hrun. injection Hrun as <- <- <-.
  split; [reflexivity|]. split; [reflexivity|]. exact Hs.
Defined.


Lemma snapshot_is_independent_witness :
  exists tr p st' c',
    Emitter.emit (Emitter.runners meddling) "evt" [] three_handlers = Some (tr, p, st')
    /\ map inv_handler tr = [0; 1; 2]%nat
    /\ chains st' !! 0%nat = Some c'
    /\ chain_of (heap st') c' [0; 2; 3]%nat.
Proof.
  destruct three_handlers_chain as (c & Hc & Hchain).
  destruct (snapshot_is_independent meddling "evt" "evt" (Some (Emitter.sequence meddling))
              [] three_handlers 0 c [0; 1; 2]%nat)
    as (tr & p & st' & Hrun & _ & _ & _ & Hall).
  - exact meddling_well_behaved.
  - reflexivity.
  - vm_compute; reflexivity.
  - exact Hc.
  - exact Hchain.
  - exists tr, p, st'. vm_compute in Hrun. injection Hrun as <- <- <-.
    eexists. split; [vm_compute; reflexivity|]. split; [reflexivity|].
    split; [vm_compute; reflexivity|]. split; [|vm_compute; reflexivity].
    eapply linked_cons; [vm_compute; reflexivity|].
    eapply linked_cons; [vm_compute; reflexivity|].
    eapply linked_cons; [vm_compute; reflexivity|].
    apply linked_nil.
Defined.

Lemma failed_dispatch_keeps_memory_witness :
  exists tr c st',
    Emitter.emit (Emitter.runners failing) "evt" [VNum 2] three_handlers_emitted
    = Some (tr, c, st')
    /\ Exists failed tr
    /\ Emitter.peek "evt" three_handlers_emitted = VArray [VNum 1]
    /\ Emitter.peek "evt" st' = Emitter.peek "evt" three_handlers_emitted.
Proof.
  destruct (Emitter.emit (Emitter.runners failing) "evt" [VNum 2] three_handlers_emitted)
    as [[[tr c] st']|] eqn:Hrun; [|vm_compute in Hrun; discriminate].
  exists tr, c, st'. split; [reflexivity|].
  pose proof (proj1 (failed_dispatch_keeps_memory failing (Emitter.runners failing)
                       (emitter_runners_known failing) failing_keeps_memory)
                _ _ _ _ _ _ Hrun) as Hpeek.
  vm_compute in Hrun. injection Hrun as <- <- <-.
  assert (Hf : Exists failed
                 [Invocation 0 0 (Some 10%nat) [VNum 2] (Returns (VNum 7));
                  Invocation 1 1 (Some 11%nat) [VNum 2] (Throws (VStr "thrown"))]).
  { apply Exists_cons_tl, Exists_cons_hd. exists (VStr "thrown"). now left. }
  split; [exact Hf|]. split; [vm_compute; reflexivity|]. exact (Hpeek Hf "evt").
Defined.

(** * Further properties *)

(** ** What [peek] returns after a dispatch *)

Lemma peek_memory_at name h m st :
  handlers st !! name = Some h -> memory_at st h = Some (Some m) ->
  Emitter.peek name st = m.
Proof.
  unfold memory_at, Emitter.peek. intros -> Hm.
  destruct (chains st !! h) as [c|]; [|discriminate]. cbn in Hm.
  injection Hm as Hm. now rewrite Hm.
Qed.

Lemma registry_kept_refl st : registry_kept st st.
Proof. intros name h H. exact H. Qed.

Lemma registry_kept_trans st1 st2 st3 :
  registry_kept st1 st2 -> registry_kept st2 st3 -> registry_kept st1 st3.
Proof. intros H12 H23 name h H. auto. Qed.

Lemma located_registry st name h st1 : located st name h st1 -> registry_kept st st1.
Proof.
  intros [[_ ->]|(Hnone & -> & ->)]; [apply registry_kept_refl|].
  intros name' h' H. cbn [set_chains set_handlers handlers].
  rewrite lookup_insert_ne; [exact H|]. intros ->. congruence.
Qed.

Lemma known_registry call r h candidates handled args st tr c st' :
  keeps_registry call -> known_runner call r ->
  r h candidates handled args st = Some (tr, c, st') -> registry_kept st st'.
Proof.
  intros Hkeep Hk Hrun.
  eapply (known_steps call registry_kept) in Hrun
    as (st1 & HR & [(m & v & _ & -> & _)|[_ ->]]);
    eauto using registry_kept_refl, registry_kept_trans.
  intros a st0 name h0 H. exact H.
Qed.

(** The table of the hub, entry by entry. *)
Lemma hub_runners_lookup call name :
  Hub.runners call !! name
  = if String.eqb name "sequence" then Some (Hub.sequence call)
    else if String.eqb name "pipeline" || String.eqb name "default"
         then Some (Hub.pipeline call)
    else None.
Proof.
  unfold Hub.runners, Hub.merge, Emitter.runners, Emitter.DEFAULT, Hub.DEFAULT,
    Emitter.DEFAULT.
  rewrite lookup_union, !lookup_insert, !lookup_empty.
  destruct (String.eqb_spec name "sequence") as [->|H1]; [reflexivity|].
  destruct (String.eqb_spec name "pipeline") as [->|H2]; [reflexivity|].
  destruct (String.eqb_spec name "default") as [->|H3]; [reflexivity|].
  repeat case_decide; try congruence. reflexivity.
Qed.

(** X4.  When the promise of [emit] resolves, [peek] returns the
    arguments emitted, as an array; on the hub, [peek] returns what the
    promise of [publish] resolved with, the arguments as the pipeline has
    threaded them, unless the event names the runner [sequence], where it
    returns the arguments published.  The callbacks are assumed to leave
    the registrations of the event names as they are. *)
Theorem resolved_dispatch_is_remembered (call : callbacks) :
  keeps_registry call ->
  (forall event name r args st tr v st',
     Emitter.select_runner (Emitter.runners call) event = inr (name, r) ->
     Emitter.emit (Emitter.runners call) event args st
     = Some (tr, Normal (Resolved v), st') ->
     Emitter.peek name st' = VArray args)
  /\ (forall event args st tr v st',
        Hub.publish call event args st = Some (tr, Normal (Resolved v), st') ->
        match Hub.RE_RUNNER event with
        | None => Hub.peek event st' = v
        | Some (name, suffix) =>
            Hub.peek name st' = if String.eqb suffix "sequence" then VArray args else v
        end).
Proof.
  intros Hkeep.
  assert (Hreg : forall runners event name run h st1 c0 args st tr c st' cands,
            known_runners call runners ->
            Emitter.select_runner runners event = inr (name, Some run) ->
            located st name h st1 ->
            run h cands (Handlers.handled c0 + 1) (VArray args)
              (write_chain h (Handlers.set_handled (Handlers.handled c0 + 1)) st1)
            = Some (tr, c, st') ->
            handlers st' !! name = Some h).
  { intros runners event name run h st1 c0 args st tr c st' cands Hrs Hsel Hloc Hrun.
    eapply known_registry in Hrun; eauto using selected_known.
    apply Hrun. cbn [write_chain set_chains handlers].
    eapply located_handlers, Hloc. }
  split.
  - intros event name r args st tr v st' Hsel H.
    apply emit_inv in H as [(e & _ & _ & [=] & _)|(name' & r' & h & st1 & c0 & Hsel' & Hloc & Hc0 &
      [(_ & _ & [=] & _)|(run & cands & -> & Hrun)])].
    rewrite Hsel in Hsel'. injection Hsel' as <- ->.
    pose proof (Hreg _ _ _ _ _ _ _ _ _ _ _ _ _ (emitter_runners_known call) Hsel Hloc Hrun)
      as Hh.
    apply select_emitter_runner in Hsel. injection Hsel as ->.
    rewrite sequence_is_over, sequence_over_run in Hrun.
    eapply run_over_resolution in Hrun as [_ Hm]; [|reflexivity].
    eapply peek_memory_at; eauto.
  - intros event args st tr v st' H. rewrite publish_is_emit in H.
    apply emit_inv in H as [(e & _ & _ & [=] & _)|(name & r & h & st1 & c0 & Hsel & Hloc & Hc0 &
      [(_ & _ & [=] & _)|(run & cands & -> & Hrun)])].
    pose proof (Hreg _ _ _ _ _ _ _ _ _ _ _ _ _ (hub_runners_known call) Hsel Hloc Hrun)
      as Hh.
    unfold Emitter.select_runner in Hsel. unfold Hub.RE_RUNNER, Hub.peek.
    destruct (Regex.RE_RUNNER event) as [[name' suffix]|].
    + rewrite hub_runners_lookup in Hsel.
      destruct (String.eqb suffix "sequence").
      * injection Hsel as -> <-.
        rewrite hub_sequence_is_over, hub_sequence_over_run in Hrun.
        eapply run_over_resolution in Hrun as [_ Hm]; [|reflexivity].
        eapply peek_memory_at; eauto.
      * destruct (String.eqb suffix "pipeline" || String.eqb suffix "default");
          [|discriminate].
        injection Hsel as -> <-.
        rewrite pipeline_is_over, pipeline_over_run in Hrun.
        eapply run_over_resolution in Hrun as [Hv Hm]; [|reflexivity].
        rewrite <- Hv in Hm. eapply peek_memory_at; eauto.
    + rewrite hub_runners_lookup in Hsel. cbn in Hsel. injection Hsel as -> <-.
      rewrite pipeline_is_over, pipeline_over_run in Hrun.
      eapply run_over_resolution in Hrun as [Hv Hm]; [|reflexivity].
      rewrite <- Hv in Hm. eapply peek_memory_at; eauto.
Qed.

Lemma quiet_keeps_registry : keeps_registry quiet.
Proof. intros f this args st. apply registry_kept_refl. Qed.

Lemma resolved_dispatch_is_remembered_witness :
  Emitter.peek "evt" three_handlers_emitted = VArray [VNum 1].
Proof.
  unfold three_handlers_emitted.
  destruct (Emitter.emit (Emitter.runners quiet) "evt" [VNum 1] three_handlers)
    as [[[tr c] st']|] eqn:Hrun; [|vm_compute in Hrun; discriminate].
  destruct c as [[v|e|]|e]; try (vm_compute in Hrun; discriminate).
  apply (proj1 (resolved_dispatch_is_remembered quiet quiet_keeps_registry)
           "evt" "evt" (Some (Emitter.sequence quiet)) [VNum 1] three_handlers tr v st').
  - vm_compute; reflexivity.
  - exact Hrun.
Defined.

(** ** Registrations and the memory *)

Lemma peek_grow event hd st :
  Emitter.peek event (set_heap (heap st ++ [hd]) st) = Emitter.peek event st.
Proof. reflexivity. Qed.

Lemma peek_register event name c st :
  handlers st !! name = None -> Handlers.memory c = None ->
  Emitter.peek event
    (set_chains (chains st ++ [c])
       (set_handlers (<[name := length (chains st)]> (handlers st)) st))
  = Emitter.peek event st.
Proof.
  intros Hnone Hc. unfold Emitter.peek. cbn [set_chains set_handlers handlers chains].
  destruct (decide (event = name)) as [->|Hne].
  - rewrite lookup_insert_eq, Hnone, lookup_snoc, Hc. reflexivity.
  - rewrite lookup_insert_ne by congruence.
    destruct (handlers st !! event) as [h|]; [|reflexivity].
    destruct (chains st !! h) as [c0|] eqn:Hc0.
    + rewrite lookup_app_l by (eapply lookup_lt_Some, Hc0). now rewrite Hc0.
    + apply lookup_ge_None in Hc0.
      destruct (decide (h = length (chains st))) as [->|Hh].
      * now rewrite lookup_snoc, Hc.
      * rewrite lookup_ge_None_2; [reflexivity|]. rewrite length_app. cbn. lia.
Qed.

Lemma on_peek event context callback st r st' :
  Emitter.on event context callback st = Some (r, st') ->
  forall ev, Emitter.peek ev st' = Emitter.peek ev st.
Proof.
  unfold Emitter.on. destruct callback as [f|]; [|now intros [= _ <-]].
  cbn zeta. cbn [set_heap handlers chains heap].
  destruct (handlers st !! event) as [h|] eqn:Hh.
  - destruct (chains st !! h) as [c|]; [|discriminate]. cbn [mbind option_bind].
    destruct (Handlers.tail c) as [t|]; intros [= _ <-] ev.
    + rewrite peek_write_chain by reflexivity. reflexivity.
    + rewrite peek_write_chain by reflexivity. reflexivity.
  - intros [= _ <-] ev.
    apply (peek_register ev event _ (set_heap _ st)); [exact Hh|reflexivity].
Qed.

Lemma off_peek event context callback st r st' :
  Emitter.off event context callback st = Some (r, st') ->
  forall ev, Emitter.peek ev st' = Emitter.peek ev st.
Proof.
  unfold Emitter.off. destruct (handlers st !! event) as [h|]; [|now intros [= _ <-]].
  destruct (chains st !! h) as [c|]; [|discriminate]. cbn [mbind option_bind].
  destruct (Handlers.head c) as [a|]; [|now intros [= _ <-]].
  destruct (Emitter.off_loop _ _ _ _ _ _ _) as [[[hp' head'] tail']|]; [|discriminate].
  cbn [mbind option_bind].
  destruct head' as [x|], tail' as [t|]; intros [= _ <-] ev.
  - rewrite peek_write_handler, peek_write_chain by reflexivity. reflexivity.
  - rewrite peek_write_chain by reflexivity. reflexivity.
  - rewrite peek_write_chain by reflexivity. reflexivity.
  - rewrite peek_write_chain by reflexivity. reflexivity.
Qed.

(** X5.  Subscribing and unsubscribing never change what [peek]
    returns, for any event; nor does [reemit] with a [sequence] runner,
    whatever its outcome, when the callbacks leave the registrations and
    what [peek] returns as they are: the runner stores the memory it was
    given. *)
Theorem only_a_dispatch_changes_the_memory (call : callbacks)
    (runners : gmap string runner) :
  (forall event context callback st r st',
     Emitter.on event context callback st = Some (r, st') ->
     forall ev, Emitter.peek ev st' = Emitter.peek ev st)
  /\ (forall event context callback st r st',
        Emitter.off event context callback st = Some (r, st') ->
        forall ev, Emitter.peek ev st' = Emitter.peek ev st)
  /\ (keeps_registry call -> keeps_memory call ->
      forall event name run senile context callback st tr c st',
        Emitter.select_runner runners event = inr (name, Some run) ->
        run = Emitter.sequence call \/ run = Hub.sequence call ->
        Emitter.reemit runners event senile context callback st = Some (tr, c, st') ->
        forall ev, Emitter.peek ev st' = Emitter.peek ev st).
Proof.
  split; [exact on_peek|]. split; [exact off_peek|].
  intros Hreg Hmem event name run senile context callback st tr c st' Hsel Hkind H ev.
  apply reemit_inv in H as [(e & Hsel' & _)|(name' & r' & h & st1 & c0 & Hsel' & Hloc & Hc0 &
    [(-> & _)|(run' & cands & -> & Hrun)])]; try congruence.
  rewrite Hsel in Hsel'. injection Hsel' as <- <-.
  set (R := fun st st' : store =>
              registry_kept st st' /\ forall ev, Emitter.peek ev st' = Emitter.peek ev st).
  assert (HR1 : forall st, R st st) by (intros s; split; [apply registry_kept_refl|auto]).
  assert (HR2 : forall st1 st2 st3, R st1 st2 -> R st2 st3 -> R st1 st3).
  { intros s1 s2 s3 [A1 B1] [A2 B2]. split; [eapply registry_kept_trans; eauto|].
    intros ev'. now rewrite B2. }
  assert (HR3 : forall a s, R s (write_handler a (Handler.set_handled (Handlers.handled c0)) s)).
  { intros a s. split; [intros n h0 Hn; exact Hn|reflexivity]. }
  assert (HR4 : forall f this al s, R s (call f this al s).2).
  { intros f this al s. split; [apply Hreg|intros ev'; apply Hmem]. }
  assert (Hsteps : exists st2, R st1 st2 /\
            (st' = write_chain h (Handlers.set_memory (default VUndefined (Handlers.memory c0))) st2
             /\ (h < length (chains st2))%nat
             \/ st' = st2)).
  { destruct Hkind as [-> | ->].
    - rewrite sequence_is_over, sequence_over_run in Hrun.
      eapply (run_over_steps _ _ _ _ _ _ _ _ _ R) in Hrun
        as (st2 & HR & [(s' & _ & -> & Hlt)|[_ ->]]); eauto.
    - rewrite hub_sequence_is_over, hub_sequence_over_run in Hrun.
      eapply (run_over_steps _ _ _ _ _ _ _ _ _ R) in Hrun
        as (st2 & HR & [(s' & _ & -> & Hlt)|[_ ->]]); eauto. }
  destruct Hsteps as (st2 & [Hkept Hpeek] & [[-> Hlt]| ->]);
    [|rewrite Hpeek; now apply (located_peek _ _ _ _ Hloc)].
  rewrite <- (located_peek _ _ _ _ Hloc ev), <- Hpeek.
  pose proof (Hkept _ _ (located_handlers _ _ _ _ Hloc)) as Hh2.
  pose proof (Hpeek name) as Hname. unfold Emitter.peek in Hname.
  rewrite Hh2, (located_handlers _ _ _ _ Hloc), Hc0 in Hname.
  unfold Emitter.peek. cbn [write_chain set_chains handlers chains].
  destruct (handlers st2 !! ev) as [h'|]; [|reflexivity].
  destruct (decide (h' = h)) as [->|Hne]; [|now rewrite list_lookup_alter_ne].
  rewrite list_lookup_alter_eq.
  destruct (chains st2 !! h) as [c2|]; [|reflexivity]. cbn.
  rewrite Hname. now destruct (Handlers.memory c0).
Qed.

(** ** A dispatch and the subscriptions *)

Lemma subscriptions_kept_refl st : subscriptions_kept st st.
Proof. split; [apply registry_kept_refl|]. split; eauto. Qed.

Lemma subscriptions_kept_trans st1 st2 st3 :
  subscriptions_kept st1 st2 -> subscriptions_kept st2 st3 -> subscriptions_kept st1 st3.
Proof.
  intros (A1 & B1 & C1) (A2 & B2 & C2). split; [eapply registry_kept_trans; eauto|]. split.
  - intros h c Hc. destruct (B1 _ _ Hc) as (c' & Hc' & E1 & E2).
    destruct (B2 _ _ Hc') as (c'' & Hc'' & F1 & F2). exists c''. split; [exact Hc''|].
    split; congruence.
  - intros a hd Ha. destruct (C1 _ _ Ha) as (hd' & Ha' & E1 & E2 & E3).
    destruct (C2 _ _ Ha') as (hd'' & Ha'' & F1 & F2 & F3). exists hd''. split; [exact Ha''|].
    split; [congruence|]. split; congruence.
Qed.

Lemma subscriptions_kept_stamp a n st :
  subscriptions_kept st (write_handler a (Handler.set_handled n) st).
Proof.
  split; [intros name h H; exact H|]. split; [eauto|].
  intros b hd Hb. cbn [write_handler set_heap heap].
  destruct (decide (b = a)) as [->|Hne].
  - rewrite list_lookup_alter_eq, Hb. eexists. split; [reflexivity|]. auto.
  - rewrite list_lookup_alter_ne by congruence. eauto.
Qed.

Lemma subscriptions_kept_write_chain h f st :
  (forall c, Handlers.head (f c) = Handlers.head c) ->
  (forall c, Handlers.tail (f c) = Handlers.tail c) ->
  subscriptions_kept st (write_chain h f st).
Proof.
  intros Hhead Htail. split; [intros name h0 H; exact H|]. split; [|eauto].
  intros h' c Hc. cbn [write_chain set_chains chains].
  destruct (decide (h' = h)) as [->|Hne].
  - rewrite list_lookup_alter_eq, Hc. eexists. split; [reflexivity|]. auto.
  - rewrite list_lookup_alter_ne by congruence. eauto.
Qed.

Lemma located_subscriptions st name h st1 :
  located st name h st1 -> subscriptions_kept st st1.
Proof.
  intros Hloc. split; [eapply located_registry, Hloc|].
  destruct Hloc as [[_ ->]|(Hnone & -> & ->)]; [split; eauto|]. split; [|eauto].
  intros h c Hc. cbn [set_chains set_handlers chains].
  rewrite lookup_app_l by (eapply lookup_lt_Some, Hc). eauto.
Qed.

Lemma known_subscriptions call r h candidates handled args st tr c st' :
  keeps_subscriptions call -> known_runner call r ->
  r h candidates handled args st = Some (tr, c, st') -> subscriptions_kept st st'.
Proof.
  intros Hkeep Hk Hrun.
  eapply (known_steps call subscriptions_kept) in Hrun
    as (st1 & HR & [(m & v & _ & -> & _)|[_ ->]]);
    eauto using subscriptions_kept_refl, subscriptions_kept_trans, subscriptions_kept_stamp.
  eapply subscriptions_kept_trans; [exact HR|].
  apply subscriptions_kept_write_chain; reflexivity.
Qed.

Lemma subscriptions_kept_linked st st' first l :
  subscriptions_kept st st' -> linked (heap st) first l -> linked (heap st') first l.
Proof.
  intros (_ & _ & Hheap) Hl. eapply linked_frame; [exact Hl|].
  intros a hd _ Ha. destruct (Hheap _ _ Ha) as (hd' & Ha' & _ & _ & Hn). eauto.
Qed.

(** X6.  A dispatch changes no subscription by itself: when the
    callbacks neither subscribe nor unsubscribe, after [emit] and
    [reemit], however they end, every event name is registered as it
    was and its chain holds the same handler objects in the same order,
    each with the callback and the context it had. *)
Theorem dispatch_keeps_the_subscriptions (call : callbacks)
    (runners : gmap string runner) :
  known_runners call runners -> keeps_subscriptions call ->
  (forall event args st tr c st',
     Emitter.emit runners event args st = Some (tr, c, st') -> subscriptions_kept st st')
  /\ (forall event senile context callback st tr c st',
        Emitter.reemit runners event senile context callback st = Some (tr, c, st') ->
        subscriptions_kept st st')
  /\ (forall st st' name h c l,
        subscriptions_kept st st' ->
        handlers st !! name = Some h -> chains st !! h = Some c ->
        chain_of (heap st) c l ->
        exists c', handlers st' !! name = Some h /\ chains st' !! h = Some c'
          /\ chain_of (heap st') c' l
          /\ Forall (fun a => exists hd hd',
                       heap st !! a = Some hd /\ heap st' !! a = Some hd'
                       /\ Handler.callback hd' = Handler.callback hd
                       /\ Handler.context hd' = Handler.context hd) l).
Proof.
  intros Hrs Hkeep. split; [|split].
  - intros event args st tr c st' H.
    apply emit_inv in H as [(e & _ & _ & _ & ->)|(name & r & h & st1 & c0 & Hsel & Hloc & Hc0 &
      [(_ & _ & _ & ->)|(run & cands & -> & Hrun)])];
      [apply subscriptions_kept_refl|eapply located_subscriptions, Hloc|].
    eapply subscriptions_kept_trans; [eapply located_subscriptions, Hloc|].
    eapply subscriptions_kept_trans;
      [|eapply known_subscriptions; eauto using selected_known].
    apply subscriptions_kept_write_chain; reflexivity.
  - intros event senile context callback st tr c st' H.
    apply reemit_inv in H as [(e & _ & _ & _ & ->)|(name & r & h & st1 & c0 & Hsel & Hloc & Hc0 &
      [(_ & _ & _ & ->)|(run & cands & -> & Hrun)])];
      [apply subscriptions_kept_refl|eapply located_subscriptions, Hloc|].
    eapply subscriptions_kept_trans; [eapply located_subscriptions, Hloc|].
    eapply known_subscriptions; eauto using selected_known.
  - intros st st' name h c l Hkept Hh Hc [Hl Htail].
    pose proof Hkept as (Hreg & Hchains & Hheap).
    destruct (Hchains _ _ Hc) as (c' & Hc' & Hhead' & Htail'). exists c'.
    split; [auto|]. split; [exact Hc'|]. split.
    + split; [|congruence]. rewrite Hhead'. eapply subscriptions_kept_linked; eauto.
    + apply linked_valid in Hl. eapply Forall_impl; [exact Hl|].
      intros a Ha. cbn in Ha. apply lookup_lt_is_Some in Ha as [hd Hhd].
      destruct (Hheap _ _ Hhd) as (hd' & Hhd' & E1 & E2 & _). eauto 8.
Qed.

Lemma quiet_keeps_subscriptions : keeps_subscriptions quiet.
Proof. intros f this args st. apply subscriptions_kept_refl. Qed.

Lemma dispatch_keeps_the_subscriptions_witness :
  subscriptions_kept three_handlers three_handlers_emitted.
Proof.
  unfold three_handlers_emitted.
  destruct (Emitter.emit (Emitter.runners quiet) "evt" [VNum 1] three_handlers)
    as [[[tr c] st']|] eqn:Hrun; [|vm_compute in Hrun; discriminate].
  apply (proj1 (dispatch_keeps_the_subscriptions quiet (Emitter.runners quiet)
                  (emitter_runners_known quiet) quiet_keeps_subscriptions)
           "evt" [VNum 1] three_handlers tr c st' Hrun).
Defined.

(** ** What a runner stamps *)

Section Stamping.

Variable call : callbacks.
Variables (h : nat) (handled : Z).
Variable acc : Type.
Variable args_of : acc -> value.
Variable after : acc -> value -> acc.
Variable memory_of resolution_of : acc -> value.
Variable skips : store -> Handler.t -> bool.

Local Abbreviation run_over :=
  (run_over call h handled acc args_of after memory_of resolution_of skips).

(** Only candidates are invoked. *)
Lemma run_over_invokes_candidates rest : forall s st tr c st',
  run_over s rest st = Some (tr, c, st') ->
  Forall (fun i => inv_handler i ∈ rest) tr.
Proof.
  induction rest as [|a rest IH]; intros s st tr c st' Hrun.
  - apply run_over_nil_inv in Hrun as (-> & _). constructor.
  - assert (Hmono : forall tr0, Forall (fun i => inv_handler i ∈ rest) tr0 ->
                      Forall (fun i => inv_handler i ∈ a :: rest) tr0).
    { intros tr0 H0. eapply Forall_impl; [exact H0|]. intros i Hi. now right. }
    apply run_over_cons_inv in Hrun as (hd & Hhd & [[_ Hrun]|[_ Hrun]]); [eauto|].
    apply invoke_inv in Hrun as (hd' & _ & [(_ & -> & _)|(al & o & st2 & _ & _ & Ho)]);
      [constructor|].
    cbv zeta in Ho. destruct o as [v|e|e|].
    + destruct Ho as (tr' & c' & Hk & -> & _). constructor; [left|eauto].
    + destruct Ho as (-> & _). repeat constructor.
    + destruct Ho as (-> & _). repeat constructor.
    + destruct Ho as (-> & _). repeat constructor.
Qed.

Hypothesis call_keeps_stamps : keeps_stamps call.

Lemma stamps_stick_run rest s st tr c st' :
  run_over s rest st = Some (tr, c, st') -> stamps_stick handled st st'.
Proof.
  intros Hrun.
  eapply (run_over_steps _ _ _ _ _ _ _ _ _ (stamps_stick handled)) in Hrun
    as (st1 & HR & [(s' & _ & -> & _)|[_ ->]]); try exact HR.
  - intros st0 a hd Ha Hn. eauto.
  - intros st1 st2 st3 H12 H23 a hd Ha Hn.
    destruct (H12 _ _ Ha Hn) as (hd' & Ha' & Hn'). eauto.
  - intros b st0 a hd Ha Hn. cbn [write_handler set_heap heap].
    destruct (decide (a = b)) as [->|Hne].
    + rewrite list_lookup_alter_eq, Ha. eexists. split; reflexivity.
    + rewrite list_lookup_alter_ne by congruence. eauto.
  - intros f this al st0 a hd Ha Hn.
    destruct (call_keeps_stamps f this al st0 a hd Ha) as (hd' & Ha' & Hn').
    exists hd'. split; [exact Ha'|congruence].
Qed.

(** Every handler invoked is stamped with the epoch of the run, and
    still is when the run ends. *)
Lemma run_over_stamped rest : forall s st tr c st',
  run_over s rest st = Some (tr, c, st') ->
  Forall (fun i => exists hd, heap st' !! inv_handler i = Some hd
                     /\ Handler.handled hd = Some handled) tr.
Proof.
  induction rest as [|a rest IH]; intros s st tr c st' Hrun.
  - apply run_over_nil_inv in Hrun as (-> & _). constructor.
  - apply run_over_cons_inv in Hrun as (hd & Hhd & [[_ Hrun]|[_ Hrun]]); [eauto|].
    apply invoke_inv in Hrun as (hd' & Hhd' & [(_ & -> & _)|(al & o & st2 & _ & Hcall & Ho)]);
      [constructor|].
    cbv zeta in Ho.
    assert (Ha1 : heap (write_handler a (Handler.set_handled handled) st) !! a
                  = Some (Handler.set_handled handled hd')).
    { rewrite lookup_stamped, Hhd'. reflexivity. }
    pose proof (call_keeps_stamps (Handler.callback hd')
                  (Handler.context (Handler.set_handled handled hd')) al _ _ _ Ha1) as Hk.
    rewrite Hcall in Hk. destruct Hk as (hd2 & Ha2 & Hh2). cbn in Hh2.
    destruct o as [v|e|e|].
    + destruct Ho as (tr' & c' & Hk & -> & _). constructor; [|eauto].
      cbn [inv_handler]. eapply stamps_stick_run; eauto.
    + destruct Ho as (-> & _ & ->). repeat constructor. cbn [inv_handler]. eauto.
    + destruct Ho as (-> & _ & ->). repeat constructor. cbn [inv_handler]. eauto.
    + destruct Ho as (-> & _ & ->). repeat constructor. cbn [inv_handler]. eauto.
Qed.

End Stamping.

Lemma known_invokes_candidates call r h candidates handled args st tr c st' :
  known_runner call r ->
  r h candidates handled args st = Some (tr, c, st') ->
  Forall (fun i => inv_handler i ∈ candidates) tr.
Proof. intros Hk Hrun. as_run_over Hk Hrun; eapply run_over_invokes_candidates, Hrun. Qed.

Lemma known_stamped call r h candidates handled args st tr c st' :
  keeps_stamps call -> known_runner call r ->
  r h candidates handled args st = Some (tr, c, st') ->
  Forall (fun i => exists hd, heap st' !! inv_handler i = Some hd
                     /\ Handler.handled hd = Some handled) tr.
Proof.
  intros Hkeep Hk Hrun. as_run_over Hk Hrun; eapply run_over_stamped; eauto.
Qed.

(** The candidates of [reemit] are handlers it replays. *)
Lemma reemit_loop_sound senile context callback handled hp : forall fuel a cands0 cands,
  Emitter.reemit_loop fuel senile context callback handled hp a cands0 = Some cands ->
  Forall (fun b => replayed senile context callback handled hp b = true) cands0 ->
  Forall (fun b => replayed senile context callback handled hp b = true) cands.
Proof.
  induction fuel as [|fuel IH]; intros a cands0 cands; [discriminate|].
  cbn [Emitter.reemit_loop]. destruct (hp !! a) as [hd|] eqn:Ha; [|discriminate].
  cbn [mbind option_bind]. intros Hloop H0.
  pose proof (reemit_tests senile context callback handled hd) as Ht.
  assert (H1 : Forall (fun b => replayed senile context callback handled hp b = true)
                 (if Emitter.context_differs context hd then cands0
                  else if Emitter.callback_differs callback hd then cands0
                  else if bool_decide (Handler.handled hd = Some handled) && negb senile
                       then cands0
                  else cands0 ++ [a])).
  { destruct (Emitter.context_differs context hd); [exact H0|].
    destruct (Emitter.callback_differs callback hd); [exact H0|].
    destruct (bool_decide (Handler.handled hd = Some handled) && negb senile); [exact H0|].
    apply Forall_app. split; [exact H0|]. repeat constructor.
    unfold replayed. rewrite Ha. now rewrite <- Ht. }
  destruct (Handler.next hd) as [n|]; [eapply IH; eauto|].
  now injection Hloop as <-.
Qed.

Lemma reemit_registered_inv runners event senile context callback st tr c st'
    name run h c0 :
  Emitter.select_runner runners event = inr (name, Some run) ->
  handlers st !! name = Some h -> chains st !! h = Some c0 ->
  Emitter.reemit runners event senile context callback st = Some (tr, c, st') ->
  exists cands,
    run h cands (Handlers.handled c0) (default VUndefined (Handlers.memory c0)) st
    = Some (tr, c, st')
    /\ Forall (fun b => replayed senile context callback (Handlers.handled c0) (heap st) b
                        = true) cands.
Proof.
  intros Hsel Hh Hc0. unfold Emitter.reemit. rewrite Hsel, Hh, Hc0.
  cbn [mbind option_bind]. destruct (Handlers.head c0) as [a|].
  - destruct (Emitter.reemit_loop _ _ _ _ _ _ _ _) as [cands|] eqn:Hloop; [|discriminate].
    cbn [mbind option_bind]. rewrite Hc0. cbn [mbind option_bind]. intros Hrun.
    exists cands. split; [exact Hrun|]. eapply reemit_loop_sound; [exact Hloop|constructor].
  - cbn [mbind option_bind]. rewrite Hc0. cbn [mbind option_bind]. intros Hrun.
    exists []. split; [exact Hrun|constructor].
Qed.

(** ** Replaying after a dispatch *)

(** X7.  [reemit] that is not senile invokes none of the handlers that
    the [emit] of the same event before it has invoked: [emit] stamped
    them with the epoch it took, which is the one [reemit] compares the
    stamps with.  The callbacks are assumed to leave stamps and epochs as
    they are. *)
Theorem reemit_skips_the_invoked (call : callbacks) (runners : gmap string runner) :
  known_runners call runners -> keeps_stamps call ->
  (forall f this args st, epochs_kept st (call f this args st).2) ->
  forall event args st tr c st' context callback tr2 c2 st2,
    Emitter.emit runners event args st = Some (tr, c, st') ->
    Emitter.reemit runners event false context callback st' = Some (tr2, c2, st2) ->
    forall i j, i ∈ tr -> j ∈ tr2 -> inv_handler j <> inv_handler i.
Proof.
  intros Hrs Hstamps Hepochs event args st tr c st' context callback tr2 c2 st2 H1 H2
    i j Hi Hj Heq.
  apply emit_inv in H1 as [(e & _ & -> & _)|(name & r & h & st1 & c0 & Hsel & Hloc & Hc0 &
    [(_ & -> & _)|(run & cands & -> & Hrun)])]; try (now apply elem_of_nil in Hi).
  pose proof (selected_known _ _ _ _ _ Hrs Hsel) as Hk.
  pose proof (located_handlers _ _ _ _ Hloc) as Hh.
  destruct (epoch_incremented st1 name h c0 Hh Hc0) as [Hinc _]. cbv zeta in Hinc.
  pose proof (known_epochs call epochs_kept _ _ _ _ _ _ _ _ _
                (fun st ev n H => H) epochs_kept_trans (fun _ _ H => H) Hepochs Hk Hrun)
    as Hkept.
  apply Hkept in Hinc. unfold epoch in Hinc.
  destruct (handlers st' !! name) as [h'|] eqn:Hh'; [|discriminate].
  cbn [mbind option_bind] in Hinc.
  destruct (chains st' !! h') as [c'|] eqn:Hc'; [|discriminate].
  cbn [mbind option_bind] in Hinc. injection Hinc as Hn.
  destruct (reemit_registered_inv _ _ _ _ _ _ _ _ _ _ _ _ _ Hsel Hh' Hc' H2)
    as (cands2 & Hrun2 & Hrep).
  rewrite Hn in Hrep.
  pose proof (known_invokes_candidates _ _ _ _ _ _ _ _ _ _ Hk Hrun2) as Hin.
  pose proof (known_stamped _ _ _ _ _ _ _ _ _ _ Hstamps Hk Hrun) as Hst.
  rewrite Forall_forall in Hin. rewrite Forall_forall in Hst.
  rewrite Forall_forall in Hrep.
  destruct (Hst _ Hi) as (hd & Hhd & Hstamp).
  pose proof (Hrep _ (Hin _ Hj)) as Hr. unfold replayed in Hr.
  rewrite Heq, Hhd, Hstamp in Hr. rewrite bool_decide_eq_true_2 in Hr by reflexivity.
  cbn in Hr. rewrite andb_false_r in Hr. discriminate.
Qed.

Lemma failing_keeps_stamps : keeps_stamps failing.
Proof. intros [|[|[|f]]] this args st a hd Ha; eauto. Qed.

Lemma failing_keeps_epochs f this args st : epochs_kept st (failing f this args st).2.
Proof. destruct f as [|[|[|f]]]; intros ev n H; exact H. Qed.

Lemma reemit_skips_the_invoked_witness :
  exists tr c st' tr2 c2 st2,
    Emitter.emit (Emitter.runners failing) "evt" [] three_handlers = Some (tr, c, st')
    /\ Emitter.reemit (Emitter.runners failing) "evt" false None None st'
       = Some (tr2, c2, st2)
    /\ map inv_handler tr = [0; 1]%nat /\ map inv_handler tr2 = [2%nat]
    /\ forall i j, i ∈ tr -> j ∈ tr2 -> inv_handler j <> inv_handler i.
Proof.
  destruct (Emitter.emit (Emitter.runners failing) "evt" [] three_handlers)
    as [[[tr c] st']|] eqn:H1; [|vm_compute in H1; discriminate].
  pose proof (reemit_skips_the_invoked failing (Emitter.runners failing)
                (emitter_runners_known failing) failing_keeps_stamps failing_keeps_epochs
                "evt" [] three_handlers tr c st' None None) as T.
  destruct (Emitter.reemit (Emitter.runners failing) "evt" false None None st')
    as [[[tr2 c2] st2]|] eqn:H2;
    [|vm_compute in H1; injection H1 as <- <- <-; vm_compute in H2; discriminate].
  specialize (T tr2 c2 st2 H1 eq_refl).
  exists tr, c, st', tr2, c2, st2. split; [reflexivity|]. split; [exact H2|].
  vm_compute in H1. injection H1 as <- <- <-. vm_compute in H2. injection H2 as <- <- <-.
  split; [reflexivity|]. split; [reflexivity|]. exact T.
Defined.

(** ** Subscribing late *)

(** [on] for a registered event, on the chain. *)
Lemma on_registered event context f st h c l :
  handlers st !! event = Some h -> chains st !! h = Some c ->
  chain_of (heap st) c l ->
  exists st' c',
    Emitter.on event context (Some f) st = Some (Normal Emitter.Me, st')
    /\ handlers st' = handlers st
    /\ chains st' !! h = Some c'
    /\ Handlers.handled c' = Handlers.handled c
    /\ Handlers.memory c' = Handlers.memory c
    /\ chain_of (heap st') c' (l ++ [length (heap st)])
    /\ heap st' !! length (heap st) = Some (Handler.Build f context None None)
    /\ relinked (heap st) (take (length (heap st)) (heap st')).
Proof.
  intros Hh Hc [Hl Htail]. unfold Emitter.on. cbn zeta.
  cbn [set_heap handlers chains heap]. rewrite Hh, Hc. cbn [mbind option_bind].
  destruct (Handlers.tail c) as [t|] eqn:Ht.
  - eexists _, _. split; [reflexivity|].
    cbn [write_chain write_handler set_chains set_heap handlers chains heap].
    rewrite list_lookup_alter_eq, Hc.
    split; [reflexivity|]. split; [reflexivity|]. split; [reflexivity|].
    split; [reflexivity|].
    assert (Htl : (t < length (heap st))%nat).
    { pose proof (linked_valid _ _ _ Hl) as Hv. rewrite Forall_forall in Hv.
      apply Hv. eapply last_Some_elem_of. now rewrite <- Htail. }
    split; [|split].
    + split; [|cbn [Handlers.tail]; now rewrite last_snoc].
      cbn [Handlers.head]. apply linked_snoc; [exact Hl|congruence|reflexivity].
    + rewrite list_lookup_alter_ne by lia. apply lookup_snoc.
    + rewrite take_alter, take_app_length. rewrite decide_True by exact Htl.
      apply relinked_set_next.
  - eexists _, _. split; [reflexivity|].
    cbn [write_chain write_handler set_chains set_heap handlers chains heap].
    rewrite list_lookup_alter_eq, Hc.
    split; [reflexivity|]. split; [reflexivity|]. split; [reflexivity|].
    split; [reflexivity|].
    assert (l = []) as ->.
    { symmetry in Htail. now apply last_None in Htail. }
    split; [|split].
    + split; [|reflexivity]. cbn [app Handlers.head]. eapply linked_cons.
      * apply lookup_snoc.
      * constructor.
    + apply lookup_snoc.
    + rewrite take_app_length. apply relinked_refl.
Qed.





(** ** Subscribing and unsubscribing *)

(** [off] for a registered event, on the chain. *)
Lemma off_registered event context callback st h c l :
  handlers st !! event = Some h -> chains st !! h = Some c ->
  chain_of (heap st) c l ->
  exists st' c',
    Emitter.off event context callback st = Some (Emitter.Me, st')
    /\ handlers st' = handlers st
    /\ chains st' !! h = Some c'
    /\ Handlers.handled c' = Handlers.handled c
    /\ Handlers.memory c' = Handlers.memory c
    /\ chain_of (heap st') c' (List.filter (survives context callback (heap st)) l)
    /\ relinked (heap st) (heap st').
Proof.
  intros Hh Hc [Hl Htail]. unfold Emitter.off. rewrite Hh, Hc.
  cbn [mbind option_bind].
  set (survivors := List.filter (survives context callback (heap st)) l).
  destruct (Handlers.head c) as [a|] eqn:Hhead.
  - inversion Hl as [|? hd rest Hhd Hnext]; subst.
    destruct (off_loop_spec context callback (heap st) rest (length (heap st))
                (heap st) a []) as (hp' & Hloop & Hseg & Hre).
    + exact Hl.
    + constructor.
    + eapply linked_NoDup, Hl.
    + apply relinked_refl.
    + eapply linked_length, Hl.
    + cbn [head last] in Hloop. rewrite Hloop. cbn [mbind option_bind app] in *.
      fold survivors in Hloop, Hseg |- *.
      destruct survivors as [|x surv] eqn:Hsurv.
      * cbn [head last]. eexists. eexists. split; [reflexivity|].
        cbn [write_chain set_chains set_heap handlers chains heap].
        rewrite list_lookup_alter_eq, Hc.
        split; [reflexivity|]. split; [reflexivity|].
        split; [reflexivity|]. split; [reflexivity|].
        split; [split; [constructor|reflexivity]|exact Hre].
      * destruct (last (x :: surv)) as [t|] eqn:Hlast;
          [|apply last_None in Hlast; discriminate].
        cbn [head]. eexists. eexists. split; [reflexivity|].
        cbn [write_handler write_chain set_chains set_heap handlers chains heap].
        rewrite list_lookup_alter_eq, Hc.
        split; [reflexivity|]. split; [reflexivity|].
        split; [reflexivity|]. split; [reflexivity|]. split.
        -- split; [|now rewrite Hlast].
           apply (segment_close hp' (x :: surv) t Hseg Hlast).
           rewrite <- Hsurv. apply NoDup_ListNoDup, List.NoDup_filter, NoDup_ListNoDup.
           eapply linked_NoDup, Hl.
        -- eapply relinked_trans; [exact Hre|apply relinked_set_next].
  - apply linked_head_None in Hl as Hnil. subst l. subst survivors. cbn [List.filter].
    exists st, c. split; [reflexivity|]. split; [reflexivity|]. split; [assumption|].
    split; [reflexivity|]. split; [reflexivity|].
    split; [split; [rewrite Hhead; constructor|assumption]|apply relinked_refl].
Qed.

Lemma survives_same context callback hp hp' a hd hd' :
  hp !! a = Some hd -> hp' !! a = Some hd' ->
  Handler.callback hd' = Handler.callback hd ->
  Handler.context hd' = Handler.context hd ->
  survives context callback hp' a = survives context callback hp a.
Proof.
  intros Ha Ha' E1 E2. unfold survives. rewrite Ha, Ha'.
  now rewrite (selected_relinked context callback hd hd' E1 E2).
Qed.

Lemma relinked_take_survives context callback hp hp' l :
  relinked hp (take (length hp) hp') ->
  Forall (fun a => (a < length hp)%nat) l ->
  List.filter (survives context callback hp') l
  = List.filter (survives context callback hp) l.
Proof.
  intros [_ Hre] Hl. induction Hl as [|a l Ha Hl IH]; [reflexivity|].
  cbn [List.filter]. rewrite IH.
  apply lookup_lt_is_Some in Ha as Hs. destruct Hs as [hd Hhd].
  destruct (Hre _ _ Hhd) as (hd' & Hhd' & E1 & E2 & _).
  rewrite lookup_take_lt in Hhd' by exact Ha.
  now rewrite (survives_same context callback hp hp' a hd hd' Hhd Hhd' E1 E2).
Qed.


(** X9.  [off] with the context and the callback of a subscription just
    made takes it out of the chain again, together with every earlier
    handler of the chain that [off] selects with them: the chain is left
    with the handlers it had that have another callback or, when a
    context is given, another context, in their order, and with its
    epoch and memory. *)
Theorem off_undoes_on (event : string) (context : option nat) (f : nat) (st : store)
    (h : nat) (c : Handlers.t) (l : list nat) :
  handlers st !! event = Some h -> chains st !! h = Some c ->
  chain_of (heap st) c l ->
  exists st1 st2 c2,
    Emitter.on event context (Some f) st = Some (Normal Emitter.Me, st1)
    /\ Emitter.off event context (Some f) st1 = Some (Emitter.Me, st2)
    /\ handlers st2 = handlers st
    /\ chains st2 !! h = Some c2
    /\ Handlers.handled c2 = Handlers.handled c
    /\ Handlers.memory c2 = Handlers.memory c
    /\ chain_of (heap st2) c2 (List.filter (survives context (Some f) (heap st)) l)
    /\ (Forall (fun a => survives context (Some f) (heap st) a = true) l ->
        chain_of (heap st2) c2 l).
Proof.
  intros Hh Hc Hchain.
  destruct (on_registered event context f st h c l Hh Hc Hchain)
    as (st1 & c1 & Hon & Hhs & Hc1 & Hhandled & Hmem & Hchain1 & Hnew & Hrel).
  rewrite <- Hhs in Hh.
  destruct (off_registered event context (Some f) st1 h c1 _ Hh Hc1 Hchain1)
    as (st2 & c2 & Hoff & Hhs2 & Hc2 & Hhandled2 & Hmem2 & Hchain2 & _).
  destruct Hchain as [Hl _]. pose proof (linked_valid _ _ _ Hl) as Hvalid.
  rewrite List.filter_app in Hchain2.
  rewrite (relinked_take_survives context (Some f) (heap st) (heap st1) l Hrel Hvalid)
    in Hchain2.
  assert (Hlast : List.filter (survives context (Some f) (heap st1)) [length (heap st)] = []).
  { cbn [List.filter]. unfold survives, selected. rewrite Hnew.
    cbn [Handler.context Handler.callback].
    rewrite (bool_decide_eq_true_2 (context = context)) by reflexivity.
    rewrite (bool_decide_eq_true_2 (Some f = Some f)) by reflexivity.
    now rewrite !orb_true_r. }
  rewrite Hlast, app_nil_r in Hchain2.
  exists st1, st2, c2. split; [exact Hon|]. split; [exact Hoff|].
  split; [congruence|]. split; [exact Hc2|]. split; [congruence|]. split; [congruence|].
  split; [exact Hchain2|].
  intros Hall. rewrite forallb_filter_id in Hchain2; [exact Hchain2|].
  apply forallb_forall. intros a Ha. rewrite Forall_forall in Hall.
  apply Hall, list_elem_of_In, Ha.
Qed.


Lemma off_undoes_on_witness :
  exists st1 st2 c2,
    Emitter.on "evt" (Some 11%nat) (Some 1%nat) three_handlers
    = Some (Normal Emitter.Me, st1)
    /\ Emitter.off "evt" (Some 11%nat) (Some 1%nat) st1 = Some (Emitter.Me, st2)
    /\ chains st2 !! 0%nat = Some c2
    /\ chain_of (heap st2) c2 [0; 2]%nat.
Proof.
  destruct (off_undoes_on "evt" (Some 11%nat) 1 three_handlers 0
              (Handlers.Build 0 (Some 0%nat) (Some 2%nat) None) [0; 1; 2]%nat)
    as (st1 & st2 & c2 & Hon & Hoff & _ & Hc2 & _ & _ & Hchain & _).
  - vm_compute; reflexivity.
  - vm_compute; reflexivity.
  - split; [|vm_compute; reflexivity].
    eapply linked_cons; [vm_compute; reflexivity|].
    eapply linked_cons; [vm_compute; reflexivity|].
    eapply linked_cons; [vm_compute; reflexivity|].
    apply linked_nil.
  - exists st1, st2, c2. split; [exact Hon|]. split; [exact Hoff|].
    split; [exact Hc2|]. exact Hchain.
Defined.


(** ** A handler that never settles *)

Section Pending.

Variable call : callbacks.
Variables (h : nat) (handled : Z).
Variable acc : Type.
Variable args_of : acc -> value.
Variable after : acc -> value -> acc.
Variable memory_of resolution_of : acc -> value.
Variable skips : store -> Handler.t -> bool.

Lemma run_over_pending rest : forall s st tr c st',
  run_over call h handled acc args_of after memory_of resolution_of skips s rest st
  = Some (tr, c, st') ->
  forall pre i post, tr = pre ++ i :: post -> inv_outcome i = Pends ->
    post = [] /\ c = Normal Pending.
Proof.
  induction rest as [|a rest IH]; intros s st tr c st' Hrun.
  - apply run_over_nil_inv in Hrun as (-> & _). intros [|] ? ? ?; discriminate.
  - apply run_over_cons_inv in Hrun as (hd & Hhd & [[_ Hrun]|[_ Hrun]]); [eauto|].
    apply invoke_inv in Hrun as (hd' & _ & [(_ & -> & _)|(al & o & st2 & _ & _ & Ho)]).
    { intros [|] ? ? ?; discriminate. }
    cbv zeta in Ho. destruct o as [v|e|e|].
    + destruct Ho as (tr' & c' & Hk & -> & ->).
      intros [|i0 pre] j post Htr Hp.
      * injection Htr as <- <-. discriminate.
      * injection Htr as _ Htr. destruct (IH _ _ _ _ _ Hk _ _ _ Htr Hp) as [-> ->]. auto.
    + destruct Ho as (-> & _). intros [|? [|]] j post Htr Hp; try discriminate.
      injection Htr as <- <-. discriminate.
    + destruct Ho as (-> & _). intros [|? [|]] j post Htr Hp; try discriminate.
      injection Htr as <- <-. discriminate.
    + destruct Ho as (-> & -> & _). intros [|? [|]] j post Htr Hp; try discriminate.
      injection Htr as <- <-. auto.
Qed.

End Pending.

Lemma known_pending call r h candidates handled args st tr c st' :
  known_runner call r ->
  r h candidates handled args st = Some (tr, c, st') ->
  forall pre i post, tr = pre ++ i :: post -> inv_outcome i = Pends ->
    post = [] /\ c = Normal Pending.
Proof. intros Hk Hrun. as_run_over Hk Hrun; eapply run_over_pending, Hrun. Qed.

(** X11.  When a callback returns a promise that never settles, the
    dispatch stops there: no further candidate is invoked, the promise
    of the dispatch stays pending, and the memory is not written, so
    that [peek] returns for every event what it returned before (the
    callbacks being assumed not to change it themselves). *)
Theorem pending_handler_halts_the_dispatch (call : callbacks)
    (runners : gmap string runner) :
  known_runners call runners -> keeps_memory call ->
  (forall event args st tr c st' pre i post,
     Emitter.emit runners event args st = Some (tr, c, st') ->
     tr = pre ++ i :: post -> inv_outcome i = Pends ->
     post = [] /\ c = Normal Pending
     /\ forall ev, Emitter.peek ev st' = Emitter.peek ev st)
  /\ (forall event senile context callback st tr c st' pre i post,
        Emitter.reemit runners event senile context callback st = Some (tr, c, st') ->
        tr = pre ++ i :: post -> inv_outcome i = Pends ->
        post = [] /\ c = Normal Pending
        /\ forall ev, Emitter.peek ev st' = Emitter.peek ev st).
Proof.
  intros Hrs Hkeep. destruct (unresolved_keeps_memory call runners Hrs Hkeep) as (M1 & M2).
  split.
  - intros event args st tr c st' pre i post H Htr Hp.
    assert (Hend : post = [] /\ c = Normal Pending).
    { apply emit_inv in H as [(e & _ & -> & _)|(name & r & h & st1 & c0 & Hsel & _ & _ &
        [(_ & -> & _)|(run & cands & -> & Hrun)])]; try (now destruct pre).
      eapply known_pending; eauto using selected_known. }
    destruct Hend as [-> ->]. split; [reflexivity|]. split; [reflexivity|].
    eapply M1; [exact H|discriminate].
  - intros event senile context callback st tr c st' pre i post H Htr Hp.
    assert (Hend : post = [] /\ c = Normal Pending).
    { apply reemit_inv in H as [(e & _ & -> & _)|(name & r & h & st1 & c0 & Hsel & _ & _ &
        [(_ & -> & _)|(run & cands & -> & Hrun)])]; try (now destruct pre).
      eapply known_pending; eauto using selected_known. }
    destruct Hend as [-> ->]. split; [reflexivity|]. split; [reflexivity|].
    eapply M2; [exact H|discriminate].
Qed.

Lemma stalling_keeps_memory : keeps_memory stalling.
Proof. intros [|[|f]] this args st ev; reflexivity. Qed.

Lemma pending_handler_halts_the_dispatch_witness :
  exists tr c st',
    Emitter.emit (Emitter.runners stalling) "evt" [VNum 1] three_handlers
    = Some (tr, c, st')
    /\ map inv_handler tr = [0; 1]%nat /\ c = Normal Pending
    /\ Emitter.peek "evt" st' = Emitter.peek "evt" three_handlers.
Proof.
  destruct (Emitter.emit (Emitter.runners stalling) "evt" [VNum 1] three_handlers)
    as [[[tr c] st']|] eqn:Hrun; [|vm_compute in Hrun; discriminate].
  pose proof Hrun as Hval. vm_compute in Hval. injection Hval as Htr _ _.
  destruct (proj1 (pending_handler_halts_the_dispatch stalling (Emitter.runners stalling)
                     (emitter_runners_known stalling) stalling_keeps_memory)
              "evt" [VNum 1] three_handlers tr c st'
              [Invocation 0 0 (Some 10%nat) [VNum 1] (Returns VUndefined)]
              (Invocation 1 1 (Some 11%nat) [VNum 1] Pends) [] Hrun)
    as (_ & Hc & Hpeek).
  - symmetry. exact Htr.
  - reflexivity.
  - exists tr, c, st'. split; [reflexivity|]. split; [now rewrite <- Htr|].
    split; [exact Hc|apply Hpeek].
Defined.

(** ** Publishing on the hub *)

(** X12.  [publish] of an event that names no runner runs the pipeline
    over the handlers of the chain as it is at the call: it invokes, in
    their order, those whose context is not in a blocked phase, the
    first with the arguments published and each next one with the
    arguments as the values returned before it have threaded them; when
    the promise resolves, all of them have been invoked and it resolves
    with the arguments threaded through all.  The callbacks are assumed
    to keep the objects in place and the phases as they are. *)
Theorem publish_runs_the_pipeline (call : callbacks) (event : string)
    (args : list value) (st : store) (h : nat) (c : Handlers.t) (l : list nat) :
  well_behaved call -> keeps_phases call ->
  Hub.RE_RUNNER event = None ->
  handlers st !! event = Some h -> chains st !! h = Some c ->
  chain_of (heap st) c l ->
  exists tr p st',
    Hub.publish call event args st = Some (tr, p, st')
    /\ map inv_handler tr `prefix_of` List.filter (unblocked st) l
    /\ (forall pre i post, tr = pre ++ i :: post ->
          arg_list (after_all threaded (VArray args) (returned_values pre))
          = Some (inv_args i))
    /\ (forall v, p = Normal (Resolved v) ->
          map inv_handler tr = List.filter (unblocked st) l
          /\ v = after_all threaded (VArray args) (returned_values tr)).
Proof.
  intros Hwb Hkp Hre Hh Hc [Hl _].
  assert (Hsel : Emitter.select_runner (Hub.runners call) event
                 = inr (event, Some (Hub.pipeline call))).
  { rewrite select_runner_default by exact Hre. now rewrite hub_runners_lookup. }
  rewrite publish_is_emit, (emit_registered _ _ _ _ args _ _ _ _ Hsel Hh Hc Hl).
  set (st1 := write_chain h (Handlers.set_handled (Handlers.handled c + 1)) st).
  destruct (pipeline_passes call Hwb Hkp h l (Handlers.handled c + 1) (VArray args) st1)
    as (tr & p & st' & Hrun & Hpre & Hres & _).
  - unfold st1. cbn [write_chain set_chains chains]. rewrite length_alter.
    eapply lookup_lt_Some, Hc.
  - eapply linked_valid, Hl.
  - exists tr, p, st'. split; [exact Hrun|]. split; [exact Hpre|].
    rewrite pipeline_is_over, pipeline_over_run in Hrun. split.
    + intros pre i post Htr.
      exact (run_over_args _ _ _ _ _ _ _ _ _ _ _ _ _ _ _ Hrun pre i post Htr).
    + intros v Hp. destruct (Hres v Hp) as [Hmap _]. split; [exact Hmap|].
      eapply run_over_resolution in Hrun as [Hv _]; [|exact Hp]. exact Hv.
Qed.

Lemma publish_runs_the_pipeline_witness :
  exists tr p st',
    Hub.publish silent "evt" [VNum 1] first_finalized = Some (tr, p, st')
    /\ map inv_handler tr = [1; 2]%nat
    /\ map inv_args tr = [[VNum 1]; [VNum 1]]
    /\ p = Normal (Resolved (VArray [VNum 1])).
Proof.
  destruct (publish_runs_the_pipeline silent "evt" [VNum 1] first_finalized 0
              (Handlers.Build 0 (Some 0%nat) (Some 2%nat) None) [0; 1; 2]%nat)
    as (tr & p & st' & Hrun & _).
  - exact silent_well_behaved.
  - exact silent_keeps_phases.
  - vm_compute; reflexivity.
  - vm_compute; reflexivity.
  - vm_compute; reflexivity.
  - split; [|vm_compute; reflexivity].
    eapply linked_cons; [vm_compute; reflexivity|].
    eapply linked_cons; [vm_compute; reflexivity|].
    eapply linked_cons; [vm_compute; reflexivity|].
    apply linked_nil.
  - exists tr, p, st'. split; [exact Hrun|].
    vm_compute in Hrun. injection Hrun as <- <- <-.
    split; [reflexivity|]. split; reflexivity.
Defined.

(** ** Naming the runner *)

Lemma app_cons_longer {A} (p : list A) : forall p' a b q q',
  p ++ a :: q = p' ++ b :: q' -> (length p < length p')%nat ->
  exists x, q = x ++ b :: q'.
Proof.
  induction p as [|c p IH]; intros [|c' p'] a b q q' H Hlen; cbn in *; try lia.
  - injection H as _ ->. eauto.
  - injection H as _ H. eapply IH; [exact H|lia].
Qed.

Lemma take_while_all (P : ascii -> bool) l :
  Forall (fun c => P c = true) l -> Regex.take_while P l = l.
Proof. induction 1 as [|c l Hc _ IH]; [reflexivity|]. cbn. now rewrite Hc, IH. Qed.

Lemma RE_RUNNER_compose name suffix :
  one_line name -> word suffix ->
  Regex.RE_RUNNER (name +:+ ":" +:+ suffix) = Some (name, suffix).
Proof.
  intros [Hname Hline] [Hsuffix Hword]. apply RE_RUNNER_some.
  assert (Hsplit : list_ascii_of_string (name +:+ ":" +:+ suffix)
                   = list_ascii_of_string name ++ ":"%char :: list_ascii_of_string suffix).
  { now rewrite !list_ascii_of_string_app. }
  exists suffix. split; [|split].
  - unfold runner_split, colon_split. split; [exact Hsplit|].
    split; [destruct name; [congruence|discriminate]|]. split; [exact Hline|].
    destruct suffix as [|w t]; [congruence|]. exists w, (list_ascii_of_string t).
    split; [reflexivity|]. now inversion Hword.
  - unfold word_prefix. rewrite take_while_all by exact Hword.
    now rewrite string_of_list_ascii_of_string.
  - intros name' rest' (Hs & _ & _ & _).
    rewrite <- !length_list_ascii_of_string.
    destruct (le_lt_dec (length (list_ascii_of_string name'))
                (length (list_ascii_of_string name))) as [Hle|Hlt]; [exact Hle|].
    rewrite Hsplit in Hs. destruct (app_cons_longer _ _ _ _ _ _ Hs Hlt) as (x & Hx).
    rewrite Hx in Hword. apply Forall_app in Hword as [_ Hword].
    inversion Hword as [|? ? Hcolon _]. discriminate Hcolon.
Qed.

(** X13.  An event name followed by a colon and the name of a runner is
    read back as that name and that runner, whenever the name is a
    non-empty single line and the runner a non-empty run of word
    characters.  On an event name that carries no suffix itself, naming
    the default runner changes nothing: [sequence] for the emitter,
    [pipeline] for the hub. *)
Theorem runner_suffix_round_trip (call : callbacks) (name suffix : string) :
  one_line name -> word suffix ->
  Regex.RE_RUNNER (name +:+ ":" +:+ suffix) = Some (name, suffix)
  /\ (Regex.RE_RUNNER name = None ->
      forall args st,
        Emitter.emit (Emitter.runners call) (name +:+ ":sequence") args st
        = Emitter.emit (Emitter.runners call) name args st
        /\ Hub.publish call (name +:+ ":pipeline") args st
           = Hub.publish call name args st).
Proof.
  intros Hname Hsuffix. split; [now apply RE_RUNNER_compose|].
  intros Hnone args st.
  assert (Hseq : word "sequence").
  { split; [discriminate|]. repeat constructor. }
  assert (Hpipe : word "pipeline").
  { split; [discriminate|]. repeat constructor. }
  pose proof (RE_RUNNER_compose name "sequence" Hname Hseq) as H1.
  pose proof (RE_RUNNER_compose name "pipeline" Hname Hpipe) as H2.
  change (name +:+ ":" +:+ "sequence") with (name +:+ ":sequence") in H1.
  change (name +:+ ":" +:+ "pipeline") with (name +:+ ":pipeline") in H2.
  split.
  - unfold Emitter.emit, Emitter.select_runner. rewrite H1, Hnone. reflexivity.
  - unfold Hub.publish, Emitter.emit, Emitter.select_runner.
    rewrite H2, Hnone, !hub_runners_lookup. reflexivity.
Qed.

Lemma runner_suffix_round_trip_witness :
  Regex.RE_RUNNER "load:sequence" = Some ("load", "sequence")
  /\ (Regex.RE_RUNNER "load" = None ->
      forall args st,
        Emitter.emit (Emitter.runners quiet) "load:sequence" args st
        = Emitter.emit (Emitter.runners quiet) "load" args st
        /\ Hub.publish quiet "load:pipeline" args st = Hub.publish quiet "load" args st).
Proof.
  apply (runner_suffix_round_trip quiet "load" "sequence").
  - split; [discriminate|]. repeat constructor.
  - split; [discriminate|]. repeat constructor.
Defined.




(** ** The two [sequence] runners *)

Lemma none_blocked_call call f this al st :
  keeps_phases call -> none_blocked st -> none_blocked (call f this al st).2.
Proof. intros Hkp Hnb ctx. unfold Hub.phase_of. rewrite Hkp. apply Hnb. Qed.

Lemma none_blocked_not_blocked st hd : none_blocked st -> blocked st hd = false.
Proof. intros Hnb. unfold blocked. destruct (Handler.context hd); [apply Hnb|reflexivity]. Qed.

Lemma run_over_none_blocked call h handled acc args_of after memory_of resolution_of :
  keeps_phases call ->
  forall rest s st, none_blocked st ->
    run_over call h handled acc args_of after memory_of resolution_of blocked s rest st
    = run_over call h handled acc args_of after memory_of resolution_of skips_none s rest st.
Proof.
  intros Hkp. induction rest as [|a rest IH]; intros s st Hnb; [reflexivity|].
  cbn [run_over]. destruct (heap st !! a) as [hd|] eqn:Ha; [|reflexivity].
  cbn [mbind option_bind]. rewrite (none_blocked_not_blocked _ _ Hnb).
  unfold skips_none at 1. unfold invoke. rewrite lookup_stamped, Ha.
  cbn [fmap option_fmap option_map mbind option_bind].
  destruct (arg_list (args_of s)) as [al|]; [|reflexivity].
  destruct (call _ _ al _) as [o st2] eqn:Hcall.
  destruct o as [v|e|e|]; try reflexivity.
  rewrite IH; [reflexivity|].
  pose proof (none_blocked_call call (Handler.callback (Handler.set_handled handled hd))
                (Handler.context (Handler.set_handled handled hd)) al
                (write_handler a (Handler.set_handled handled) st) Hkp) as H.
  rewrite Hcall in H. apply H. exact Hnb.
Qed.

(** X15.  As long as no context is in a blocked phase, the hub's
    [sequence] does what the emitter's does: the same invocations, the
    same promise and the same store.  The callbacks are assumed to leave
    the phases as they are. *)
Theorem hub_sequence_is_sequence_when_none_blocked (call : callbacks) (h : nat)
    (candidates : list nat) (handled : Z) (args : value) (st : store) :
  keeps_phases call -> none_blocked st ->
  Hub.sequence call h candidates handled args st
  = Emitter.sequence call h candidates handled args st.
Proof.
  intros Hkp Hnb.
  rewrite hub_sequence_is_over, hub_sequence_over_run, sequence_is_over, sequence_over_run.
  now apply run_over_none_blocked.
Qed.

Lemma three_handlers_none_blocked : none_blocked three_handlers.
Proof. intros ctx. reflexivity. Qed.

Lemma hub_sequence_is_sequence_when_none_blocked_witness :
  Hub.sequence silent 0%nat [0; 1; 2]%nat 1 (VArray [VNum 1]) three_handlers
  = Emitter.sequence silent 0%nat [0; 1; 2]%nat 1 (VArray [VNum 1]) three_handlers.
Proof.
  apply hub_sequence_is_sequence_when_none_blocked;
    [exact silent_keeps_phases|exact three_handlers_none_blocked].
Defined.

(** ** The names of the components *)

Lemma app_cons_unique {A} (x : A) (p p' q q' : list A) :
  p ++ x :: q = p' ++ x :: q' -> x ∉ q -> x ∉ q' -> p = p' /\ q = q'.
Proof.
  intros H Hq Hq'.
  destruct (lt_eq_lt_dec (length p) (length p')) as [[Hlt|Heq]|Hgt].
  - destruct (app_cons_longer _ _ _ _ _ _ H Hlt) as (y & ->).
    destruct Hq. apply elem_of_app. right. left.
  - apply app_inj_1 in H as [-> H]; [|exact Heq]. injection H as ->. auto.
  - symmetry in H. destruct (app_cons_longer _ _ _ _ _ _ H Hgt) as (y & ->).
    destruct Hq'. apply elem_of_app. right. left.
Qed.

Lemma digits_have_no_at d :
  "@"%char ∉ list_ascii_of_string (NilEmpty.string_of_uint d).
Proof.
  induction d; cbn [NilEmpty.string_of_uint list_ascii_of_string]; intros H;
    inversion H; subst; auto.
Qed.

Lemma number_to_string_inj n m :
  Component.number_to_string n = Component.number_to_string m -> n = m.
Proof.
  unfold Component.number_to_string. intros H.
  apply (f_equal NilEmpty.uint_of_string) in H. rewrite !NilEmpty.usu in H.
  injection H as H. apply (f_equal N.of_uint) in H.
  now rewrite !DecimalN.Unsigned.of_to in H.
Qed.

Lemma toString_inj a b :
  Component.toString a = Component.toString b ->
  Component.displayName a = Component.displayName b
  /\ Component.instanceCount a = Component.instanceCount b.
Proof.
  unfold Component.toString. intros H.
  apply (f_equal list_ascii_of_string) in H. rewrite !list_ascii_of_string_app in H.
  cbn [list_ascii_of_string app] in H.
  apply app_cons_unique in H as [Hn Hd]; try apply digits_have_no_at.
  apply list_ascii_of_string_inj in Hn, Hd. apply number_to_string_inj in Hd. auto.
Qed.

Lemma NoDup_fmap_through {A B C} (f : A -> B) (g : A -> C) (l : list A) :
  (forall a b, f a = f b -> g a = g b) -> NoDup (g <$> l) -> NoDup (f <$> l).
Proof.
  intros Hfg. induction l as [|a l IH]; [constructor|]. cbn [fmap list_fmap].
  change (list_fmap _ _ ?k l) with (k <$> l). intros Hnd.
  inversion Hnd as [|? ? Hnotin Hnd']; subst. constructor; [|auto].
  intros Hin. apply Hnotin. apply list_elem_of_fmap in Hin as (b & Hab & Hb).
  apply list_elem_of_fmap. exists b. split; [now apply Hfg|exact Hb].
Qed.

Lemma constructed_counts names : forall COUNT,
  (COUNT + N.of_nat (length names) <= Component.MAX_COUNT + 1)%N ->
  Component.instanceCount <$> constructed names COUNT
  = (fun i => (COUNT + N.of_nat i)%N) <$> seq 0 (length names).
Proof.
  induction names as [|name names IH]; intros COUNT Hle; [reflexivity|].
  cbn [constructed Component.Component length seq fmap list_fmap Component.instanceCount].
  f_equal; [now rewrite N.add_0_r|].
  destruct names as [|name' names]; [reflexivity|].
  assert (Hlt : (COUNT <? Component.MAX_COUNT)%N = true).
  { apply N.ltb_lt. cbn [length] in Hle. lia. }
  unfold Component.increment. rewrite Hlt.
  change (list_fmap _ _ ?f ?l) with (f <$> l).
  rewrite IH by (cbn [length] in Hle |- *; lia).
  rewrite <- (fmap_S_seq 0), <- list_fmap_compose.
  apply list_fmap_ext. intros _ i _. cbn. lia.
Qed.

(** X16.  [toString] tells the instances apart: two instances with the
    same string have the same display name and the same instance count.
    The constructor numbers the instances from [0] in the order they
    are made, so that the strings of the instances made are all
    different, up to the [2^53 + 1] instances the counter can tell
    apart. *)
Theorem component_names_are_distinct :
  (forall a b, Component.toString a = Component.toString b ->
     Component.displayName a = Component.displayName b
     /\ Component.instanceCount a = Component.instanceCount b)
  /\ forall names,
       (N.of_nat (length names) <= Component.MAX_COUNT + 1)%N ->
       Component.instanceCount <$> constructed names 0
       = N.of_nat <$> seq 0 (length names)
       /\ NoDup (Component.toString <$> constructed names 0).
Proof.
  split; [exact toString_inj|]. intros names Hle.
  pose proof (constructed_counts names 0%N ltac:(lia)) as Hcounts.
  split; [exact Hcounts|].
  apply (NoDup_fmap_through _ Component.instanceCount);
    [intros a b Hab; now apply toString_inj|].
  rewrite Hcounts. apply NoDup_fmap_2; [intros i j H; lia|apply NoDup_seq].
Qed.

(** ** Well-formed stores *)










(** *** What [off] and [on] leave alone *)






(** *** Dispatching in a well-formed store *)







(** ** What a handler of the pipeline hands on *)



Section Scalars.

Variable call : callbacks.
Variables (h : nat) (handled : Z).
Variable acc : Type.
Variable args_of : acc -> value.
Variable after : acc -> value -> acc.
Variable memory_of resolution_of : acc -> value.
Variable skips : store -> Handler.t -> bool.

Local Abbreviation run_over :=
  (run_over call h handled acc args_of after memory_of resolution_of skips).

(** With arguments that [apply] refuses nothing is invoked: the first
    candidate that is not passed over is stamped and [apply] throws. *)
Lemma run_over_no_arguments rest : forall s st tr c st',
  arg_list (args_of s) = None ->
  run_over s rest st = Some (tr, c, st') ->
  tr = []
  /\ (c = Thrown VTypeError \/ c = Normal (Resolved (resolution_of s))).
Proof.
  induction rest as [|a rest IH]; intros s st tr c st' Hargs Hrun.
  - apply run_over_nil_inv in Hrun as (-> & -> & _). auto.
  - apply run_over_cons_inv in Hrun as (hd & Hhd & [[_ Hrun]|[_ Hrun]]); [eauto|].
    apply invoke_inv in Hrun as (hd' & _ & [(_ & -> & -> & _)|(al & o & st2 & Hal & _)]);
      [auto|congruence].
Qed.


End Scalars.




(** ** A memory that cannot be replayed *)

(** X19.  Once the memory of an event is a number, a string or a
    boolean, which the pipeline stores when its last handler returns
    one, [reemit] and [republish] of that event invoke no handler: the
    first candidate they reach is stamped and [apply] throws a
    [TypeError], which leaves the call itself; with no candidate to reach
    the promise resolves. *)
Theorem scalar_memory_is_not_replayed (call : callbacks) (runners : gmap string runner)
    (event name : string) (run : runner) (senile : bool) (context callback : option nat)
    (st : store) (tr : list invocation) (c : completion promise) (st' : store) :
  known_runners call runners ->
  Emitter.select_runner runners event = inr (name, Some run) ->
  scalar (Emitter.peek name st) ->
  Emitter.reemit runners event senile context callback st = Some (tr, c, st') ->
  tr = [] /\ (c = Thrown VTypeError \/ exists v, c = Normal (Resolved v)).
Proof.
  intros Hrs Hsel Hscalar H.
  apply reemit_inv in H as [(e & Hsel' & _)|(name' & r' & h & st1 & c0 & Hsel' & Hloc & Hc0 &
    [(-> & _)|(run' & cands & -> & Hrun)])]; try congruence.
  rewrite Hsel in Hsel'. injection Hsel' as <- <-.
  assert (Hargs : arg_list (default VUndefined (Handlers.memory c0)) = None).
  { rewrite <- (located_peek _ _ _ _ Hloc name) in Hscalar.
    unfold scalar, Emitter.peek in Hscalar.
    rewrite (located_handlers _ _ _ _ Hloc), Hc0 in Hscalar.
    destruct (Handlers.memory c0); exact Hscalar. }
  pose proof (selected_known _ _ _ _ _ Hrs Hsel) as Hk.
  as_run_over Hk Hrun;
    (eapply run_over_no_arguments in Hrun as [-> [->| ->]]; [eauto|eauto|exact Hargs]).
Qed.

Lemma scalar_memory_is_not_replayed_witness :
  Hub.peek "evt" scalar_memory = VNum 7
  /\ exists st',
       Hub.republish failing "evt" None None true scalar_memory
       = Some ([], Thrown VTypeError, st')
       /\ Handler.handled <$> heap st' !! 0%nat = Some (Some 1).
Proof.
  split; [vm_compute; reflexivity|].
  destruct (Hub.republish failing "evt" None None true scalar_memory)
    as [[[tr c] st']|] eqn:Hrun; [|vm_compute in Hrun; discriminate].
  destruct (scalar_memory_is_not_replayed failing (Hub.runners failing) "evt" "evt"
              (Hub.pipeline failing) true None None scalar_memory tr c st'
              (hub_runners_known failing)) as [-> _].
  - vm_compute; reflexivity.
  - vm_compute; reflexivity.
  - exact Hrun.
  - exists st'. vm_compute in Hrun. injection Hrun as <- <-.
    split; [reflexivity|vm_compute; reflexivity].
Defined.

(** ** Replaying a dispatch that resolved *)













(** ** The order of the subscriptions *)









(** ** One event and another *)








(** ** A handler passed over is served later *)

Lemma filter_ext_in {A} (f g : A -> bool) (l : list A) :
  (forall a, a ∈ l -> f a = g a) -> List.filter f l = List.filter g l.
Proof.
  intros H. apply List.filter_ext_in. intros a Ha. apply H, list_elem_of_In, Ha.
Qed.






